(** * PathFinder: the RRT / RRT* planner core

    A shallow embedding of [src/services/rrt.ts] (class [RRTTree]) and of the
    geometry helpers it imports from [utils/geo] ([src/unnamed/part_002]).

    - [Geo] embeds the geometry helpers over IEEE-754 binary64 numbers
      (Rocq's primitive floats), which is what a JavaScript [number] is.
    - Section [Planner] embeds the class [RRTTree] over an arbitrary number
      type and over the four functions the class imports ([dist], [steer],
      [checkCollision], [samplePoint]).  Every law the proofs need about
      the numbers is an explicit hypothesis of the theorem that uses it.
    - [F64] instantiates the planner with [Geo]; [Lattice] instantiates it
      with exact integer arithmetic. *)

From Stdlib Require Import ZArith Floats Lia Bool.
From stdpp Require Import base tactics option list.

#[local] Set Warnings "-clear-no-such-hyp".

(** ** Shared data model ([types.ts]) *)

Module Point.
Record t (num : Type) : Type := mk { x : num; y : num }.
Arguments mk {num} _ _.
Arguments x {num} _.
Arguments y {num} _.
End Point.

Module Obstacle.
Record t (num : Type) : Type := mk { x : num; y : num; w : num; h : num }.
Arguments mk {num} _ _ _ _.
Arguments x {num} _.
Arguments y {num} _.
Arguments w {num} _.
Arguments h {num} _.
End Obstacle.

(** [Math.random()]: the sequence of numbers the calls will return, consumed
    one value per call. *)
Definition Rng (num : Type) : Type := nat -> num.

Definition Math_random {num : Type} (g : Rng num) : num * Rng num :=
  (g 0, fun n => g (S n)).

(** ** Geometry and collision ([utils/geo]) over binary64 *)

Module Geo.
Local Open Scope float_scope.

Abbreviation Point := (Point.t float).
Abbreviation Obstacle := (Obstacle.t float).

(** [Math.pow(b, 2)].  ECMAScript leaves [Math.pow] implementation-approximated;
    the model takes the correctly rounded square. *)
Definition Math_pow2 (b : float) : float := b * b.

(** [Math.min] and [Math.max]: NaN if either argument is NaN, and -0 below +0. *)
Definition Math_min (a b : float) : float :=
  if is_nan a || is_nan b then nan
  else if a <? b then a
  else if b <? a then b
  else if get_sign a then a else b.

Definition Math_max (a b : float) : float :=
  if is_nan a || is_nan b then nan
  else if a <? b then b
  else if b <? a then a
  else if get_sign a then b else a.

Definition two52 : float := 4503599627370496.

(** [Math.ceil]: every binary64 of magnitude at least 2^52 is an integer; below
    that, adding and subtracting 2^52 rounds to a neighbouring integer, which
    is then moved up when it fell below the argument.  Results in (-1, 0]
    keep the sign of the argument. *)
Definition Math_ceil (v : float) : float :=
  if is_nan v then nan
  else if two52 <=? abs v then v
  else if v =? 0 then v
  else
    let r := if v <? 0 then (v - two52) + two52 else (v + two52) - two52 in
    let c := if r <? v then r + 1 else r in
    if c =? 0 then (if v <? 0 then neg_zero else zero) else c.

Definition dist (p1 p2 : Point) : float :=
  sqrt (Math_pow2 (Point.x p1 - Point.x p2) + Math_pow2 (Point.y p1 - Point.y p2)).

Definition samplePoint (width height : float) (g : Rng float) : Point * Rng float :=
  let (r1, g1) := Math_random g in
  let (r2, g2) := Math_random g1 in
  (Point.mk (r1 * width) (r2 * height), g2).

(** [Math.atan2], [Math.cos] and [Math.sin] are implementation-approximated
    too; [steer] takes them from the platform. *)
Record Libm : Type := {
  Math_atan2 : float -> float -> float;
  Math_cos : float -> float;
  Math_sin : float -> float
}.

Definition steer (libm : Libm) (from to : Point) (stepSize : float) : Point :=
  let d := dist from to in
  if d <=? stepSize then to
  else
    let theta := Math_atan2 libm (Point.y to - Point.y from) (Point.x to - Point.x from) in
    Point.mk (Point.x from + stepSize * Math_cos libm theta)
             (Point.y from + stepSize * Math_sin libm theta).

Definition inside (px py : float) (obs : Obstacle) : bool :=
  (Obstacle.x obs <=? px) && (px <=? Obstacle.x obs + Obstacle.w obs) &&
  (Obstacle.y obs <=? py) && (py <=? Obstacle.y obs + Obstacle.h obs).

Definition pointInObstacles (p : Point) (obstacles : list Obstacle) : bool :=
  existsb (inside (Point.x p) (Point.y p)) obstacles.

(** The sampling loop [for (let i = 0; i <= steps; i++)] of
    [lineIntersectsObstacle].  The counter is a number, and the loop does not
    end when [steps] is infinite: [fuel] bounds the evaluations of the loop
    condition, and [None] means the bound was reached. *)
Fixpoint sampleLoop (fuel : nat) (i steps : float) (p1 p2 : Point) (obstacle : Obstacle)
  : option bool :=
  match fuel with
  | O => None
  | S fuel' =>
      if i <=? steps then
        let t := i / steps in
        let px := Point.x p1 + t * (Point.x p2 - Point.x p1) in
        let py := Point.y p1 + t * (Point.y p2 - Point.y p1) in
        if inside px py obstacle then Some true
        else sampleLoop fuel' (i + 1) steps p1 p2 obstacle
      else Some false
  end.

Definition bboxDisjoint (p1 p2 : Point) (obstacle : Obstacle) : bool :=
  let minX := Math_min (Point.x p1) (Point.x p2) in
  let maxX := Math_max (Point.x p1) (Point.x p2) in
  let minY := Math_min (Point.y p1) (Point.y p2) in
  let maxY := Math_max (Point.y p1) (Point.y p2) in
  (maxX <? Obstacle.x obstacle) || (Obstacle.x obstacle + Obstacle.w obstacle <? minX) ||
  (maxY <? Obstacle.y obstacle) || (Obstacle.y obstacle + Obstacle.h obstacle <? minY).

Definition lineIntersectsObstacle (fuel : nat) (p1 p2 : Point) (obstacle : Obstacle)
  : option bool :=
  if bboxDisjoint p1 p2 obstacle then Some false
  else
    let d := dist p1 p2 in
    let steps := Math_ceil (d / 5) in
    sampleLoop fuel 0 steps p1 p2 obstacle.

(** [obstacles.some(obs => lineIntersectsObstacle(p1, p2, obs))]: left to
    right, stopping at the first hit. *)
Fixpoint checkCollision (fuel : nat) (p1 p2 : Point) (obstacles : list Obstacle)
  : option bool :=
  match obstacles with
  | [] => Some false
  | obs :: rest =>
      match lineIntersectsObstacle fuel p1 p2 obs with
      | None => None
      | Some true => Some true
      | Some false => checkCollision fuel p1 p2 rest
      end
  end.

(** *** Concrete checks of the arithmetic model *)

Example dist_3_4_5 : dist (Point.mk 0 0) (Point.mk 3 4) = 5.
Proof. reflexivity. Qed.

Example Math_ceil_values :
  (Math_ceil 0, Math_ceil 0.25, Math_ceil 1, Math_ceil 6.5, Math_ceil (-0.5),
   Math_ceil (-1.5), Math_ceil infinity, Math_ceil 4503599627370497)
  = (0, 1, 1, 7, neg_zero, -1, infinity, 4503599627370497).
Proof. reflexivity. Qed.

Example Math_min_max_values :
  (Math_min 2 3, Math_min 3 2, Math_min nan 1, Math_min 0 neg_zero,
   Math_max 2 3, Math_max 1 nan, Math_max neg_zero 0)
  = (2, 2, nan, neg_zero, 3, nan, 0).
Proof. reflexivity. Qed.

(** A segment that crosses a 10 x 10 obstacle is reported, a segment beside
    it is not. *)
Example checkCollision_hit :
  checkCollision 100 (Point.mk (-5) 5) (Point.mk 15 5) [Obstacle.mk 0 0 10 10] = Some true.
Proof. reflexivity. Qed.

Example checkCollision_miss :
  checkCollision 100 (Point.mk (-5) 20) (Point.mk 15 20) [Obstacle.mk 0 0 10 10] = Some false.
Proof. reflexivity. Qed.

(** *** Facts about binary64 used below *)

Lemma nan_add_r (a : float) : a + nan = nan.
Proof.
  apply Prim2SF_inj. rewrite add_spec.
  change (Prim2SF nan) with S754_nan.
  unfold SF64add, SFadd. destruct (Prim2SF a); reflexivity.
Qed.

Lemma leb_nan_r (a : float) : (a <=? nan) = false.
Proof.
  rewrite leb_spec. change (Prim2SF nan) with S754_nan.
  unfold SFleb, SFcompare. destruct (Prim2SF a); reflexivity.
Qed.

Lemma leb_nan_l (a : float) : (nan <=? a) = false.
Proof.
  rewrite leb_spec. change (Prim2SF nan) with S754_nan. reflexivity.
Qed.

Lemma cond_Zopp_cancel (s : bool) (m : positive) :
  (cond_Zopp s (Zpos m) - cond_Zopp s (Zpos m))%Z = 0%Z.
Proof. lia. Qed.

(** [a - a] is +0 for a finite [a] and NaN otherwise. *)
Lemma sub_diag (a : float) : a - a = 0 \/ a - a = nan.
Proof.
  destruct (Prim2SF a) as [s|s| |s m e] eqn:E.
  - left. apply Prim2SF_inj. rewrite sub_spec, E. destruct s; reflexivity.
  - right. apply Prim2SF_inj. rewrite sub_spec, E. destruct s; reflexivity.
  - right. apply Prim2SF_inj. rewrite sub_spec, E. reflexivity.
  - left. apply Prim2SF_inj. rewrite sub_spec, E.
    unfold SF64sub, SFsub. cbv zeta.
    rewrite cond_Zopp_cancel. reflexivity.
Qed.

Lemma inside_nan_x (py : float) (obs : Obstacle) : inside nan py obs = false.
Proof. unfold inside. rewrite leb_nan_r. reflexivity. Qed.

(** On a zero-length segment the sampling loop never reports a hit. *)
Lemma sampleLoop_degenerate (fuel : nat) (p : Point) (obstacle : Obstacle) :
  sampleLoop (S (S fuel)) 0 (Math_ceil (dist p p / 5)) p p obstacle = Some false.
Proof.
  unfold dist.
  destruct (sub_diag (Point.x p)) as [Hx|Hx], (sub_diag (Point.y p)) as [Hy|Hy];
    rewrite Hx, Hy.
  - (* finite point: steps = 0, one sample at t = 0/0 *)
    change (Math_ceil (sqrt (Math_pow2 0 + Math_pow2 0) / 5)) with 0.
    cbn [sampleLoop]. rewrite Hx, Hy.
    change (0 <=? 0) with true. cbv iota.
    change (0 / 0) with nan. change (nan * 0) with nan.
    rewrite nan_add_r, inside_nan_x.
    change (0 + 1 <=? 0) with false. reflexivity.
  - change (Math_ceil (sqrt (Math_pow2 0 + Math_pow2 nan) / 5)) with nan.
    cbn [sampleLoop]. rewrite leb_nan_r. reflexivity.
  - change (Math_ceil (sqrt (Math_pow2 nan + Math_pow2 0) / 5)) with nan.
    cbn [sampleLoop]. rewrite leb_nan_r. reflexivity.
  - change (Math_ceil (sqrt (Math_pow2 nan + Math_pow2 nan) / 5)) with nan.
    cbn [sampleLoop]. rewrite leb_nan_r. reflexivity.
Qed.

Lemma lineIntersectsObstacle_degenerate (fuel : nat) (p : Point) (obstacle : Obstacle) :
  lineIntersectsObstacle (S (S fuel)) p p obstacle = Some false.
Proof.
  unfold lineIntersectsObstacle.
  destruct (bboxDisjoint p p obstacle); [reflexivity|].
  apply sampleLoop_degenerate.
Qed.

Lemma checkCollision_degenerate (fuel : nat) (p : Point) (obstacles : list Obstacle) :
  checkCollision (S (S fuel)) p p obstacles = Some false.
Proof.
  induction obstacles as [|obs rest IH]; [reflexivity|].
  cbn [checkCollision]. rewrite lineIntersectsObstacle_degenerate. exact IH.
Qed.

(** C10.  The collision test on a zero-length segment [p]-[p] answers
    [false] for every point and every obstacle list, also when [p] lies inside
    an obstacle: either the bounding boxes are disjoint, or the step count
    [Math.ceil(d / 5)] is 0 (or NaN), the only interpolation parameter is
    [0 / 0 = NaN], and no comparison with a NaN coordinate holds.  Two
    evaluations of the loop condition suffice. *)
Theorem checkCollision_zero_length_segment :
  (forall (fuel : nat) (p : Point) (obstacles : list Obstacle),
      checkCollision (S (S fuel)) p p obstacles = Some false)
  /\ (forall p : Point,
        Math_ceil (dist p p / 5) = 0 \/ Math_ceil (dist p p / 5) = nan)
  /\ 0 / 0 = nan
  /\ (forall (py : float) (obs : Obstacle), inside nan py obs = false)
  /\ (let p := Point.mk 5 5 in
      let obs := Obstacle.mk 0 0 10 10 in
      pointInObstacles p [obs] = true
      /\ bboxDisjoint p p obs = false
      /\ Math_ceil (dist p p / 5) = 0
      /\ checkCollision 2 p p [obs] = Some false).
Proof.
  split; [exact checkCollision_degenerate|].
  split.
  { intros p. unfold dist.
    destruct (sub_diag (Point.x p)) as [Hx|Hx], (sub_diag (Point.y p)) as [Hy|Hy];
      rewrite Hx, Hy; [left|right|right|right]; reflexivity. }
  split; [reflexivity|].
  split; [exact inside_nan_x|].
  cbv zeta. repeat split; reflexivity.
Qed.

End Geo.

(** ** The planner ([services/rrt.ts]) *)

(** The arithmetic of [number] that [stepMicro] uses: [+], [<], [<=], [0]
    and [Infinity]. *)
Class Numbers (num : Type) : Type := {
  num_add : num -> num -> num;
  num_ltb : num -> num -> bool;
  num_leb : num -> num -> bool;
  num_zero : num;
  num_infinity : num
}.

(** What [getPath] uses besides: [-], [*] and the literal [1.5]. *)
Class PathNumbers (num : Type) : Type := {
  num_sub : num -> num -> num;
  num_mul : num -> num -> num;
  num_1_5 : num
}.

(** [import { dist, steer, checkCollision, samplePoint } from '../utils/geo'].
    [checkCollision] answers [None] when its sampling loop does not end. *)
Class Geometry (num : Type) : Type := {
  dist : Point.t num -> Point.t num -> num;
  steer : Point.t num -> Point.t num -> num -> Point.t num;
  checkCollision : Point.t num -> Point.t num -> list (Obstacle.t num) -> option bool;
  samplePoint : num -> num -> Rng num -> Point.t num * Rng num
}.

Declare Scope num_scope.
Delimit Scope num_scope with num.
Infix "+" := num_add : num_scope.
Infix "-" := num_sub : num_scope.
Infix "*" := num_mul : num_scope.
Infix "<?" := num_ltb : num_scope.
Infix "<=?" := num_leb : num_scope.

Module Node.
Record t (num : Type) : Type := mk {
  id : nat;
  x : num;
  y : num;
  parentId : option nat;
  cost : num;
  children : list nat
}.
Arguments mk {num} _ _ _ _ _ _.
Arguments id {num} _.
Arguments x {num} _.
Arguments y {num} _.
Arguments parentId {num} _.
Arguments cost {num} _.
Arguments children {num} _.

(** [Node extends Point]: a node used where a point is expected. *)
Definition point {num : Type} (n : t num) : Point.t num := Point.mk (x n) (y n).

Definition set_parentId {num : Type} (p : option nat) (n : t num) : t num :=
  mk (id n) (x n) (y n) p (cost n) (children n).
Definition set_cost {num : Type} (c : num) (n : t num) : t num :=
  mk (id n) (x n) (y n) (parentId n) c (children n).
Definition set_children {num : Type} (cs : list nat) (n : t num) : t num :=
  mk (id n) (x n) (y n) (parentId n) (cost n) cs.
End Node.

Inductive AlgorithmType : Type := RRT | RRTstar.

Inductive CodeStep : Type :=
  | SAMPLE | NEAREST | STEER | COLLISION_CHECK | NEIGHBORS | CHOOSE_PARENT
  | ADD_NODE | REWIRE | IDLE.

Record SolverParams (num : Type) : Type := {
  stepSize : num;
  maxIterations : nat;
  goalBias : num;
  searchRadius : num
}.
Arguments stepSize {num} _.
Arguments maxIterations {num} _.
Arguments goalBias {num} _.
Arguments searchRadius {num} _.

(** The fields of the class.  [tempNearestNode] is a reference to a node object
    of [nodes]; it is kept as the index of that object, and every read goes
    through the store. *)
Record RRTTree (num : Type) : Type := mkRRTTree {
  nodes : list (Node.t num);
  width : num;
  height : num;
  start : Point.t num;
  goal : Point.t num;
  obstacles : list (Obstacle.t num);
  params : SolverParams num;
  goalNodeId : option nat;
  algorithm : AlgorithmType;
  microState : CodeStep;
  tempSample : option (Point.t num);
  tempNearestNode : option nat;
  tempNewPoint : option (Point.t num);
  tempNeighbors : list nat;
  tempBestParent : option nat
}.
Arguments mkRRTTree {num} _ _ _ _ _ _ _ _ _ _ _ _ _ _ _.
Arguments nodes {num} _.
Arguments width {num} _.
Arguments height {num} _.
Arguments start {num} _.
Arguments goal {num} _.
Arguments obstacles {num} _.
Arguments params {num} _.
Arguments goalNodeId {num} _.
Arguments algorithm {num} _.
Arguments microState {num} _.
Arguments tempSample {num} _.
Arguments tempNearestNode {num} _.
Arguments tempNewPoint {num} _.
Arguments tempNeighbors {num} _.
Arguments tempBestParent {num} _.

(** What a call does: it returns, it throws a [TypeError] (a property of
    [undefined] is read), or it does not come back within the fuel given to
    its loops and recursion. *)
Inductive result (A : Type) : Type :=
  | Ok (a : A)
  | TypeError
  | OutOfFuel.
Arguments Ok {A} _.
Arguments TypeError {A}.
Arguments OutOfFuel {A}.

Definition bind {A B : Type} (r : result A) (k : A -> result B) : result B :=
  match r with
  | Ok a => k a
  | TypeError => TypeError
  | OutOfFuel => OutOfFuel
  end.

Notation "'let*' x ':=' r 'in' k" := (bind r (fun x => k))
  (at level 10, x pattern, r at level 100, k at level 200).

(** [xs[i]] followed by a property read. *)
Definition get {A : Type} (xs : list A) (i : nat) : result A :=
  match xs !! i with
  | Some a => Ok a
  | None => TypeError
  end.

Definition algorithm_eqb (a b : AlgorithmType) : bool :=
  match a, b with
  | RRT, RRT | RRTstar, RRTstar => true
  | _, _ => false
  end.

Section Planner.
Context {num : Type} `{Numbers num} `{PathNumbers num} `{Geometry num}.
Local Open Scope num_scope.

Implicit Types (t : RRTTree num) (ns : list (Node.t num)) (g : Rng num).

Definition set_nodes ns t : RRTTree num :=
  mkRRTTree ns (width t) (height t) (start t) (goal t) (obstacles t) (params t)
    (goalNodeId t) (algorithm t) (microState t) (tempSample t) (tempNearestNode t)
    (tempNewPoint t) (tempNeighbors t) (tempBestParent t).
Definition set_microState (m : CodeStep) t : RRTTree num :=
  mkRRTTree (nodes t) (width t) (height t) (start t) (goal t) (obstacles t) (params t)
    (goalNodeId t) (algorithm t) m (tempSample t) (tempNearestNode t)
    (tempNewPoint t) (tempNeighbors t) (tempBestParent t).
Definition set_tempSample (p : option (Point.t num)) t : RRTTree num :=
  mkRRTTree (nodes t) (width t) (height t) (start t) (goal t) (obstacles t) (params t)
    (goalNodeId t) (algorithm t) (microState t) p (tempNearestNode t)
    (tempNewPoint t) (tempNeighbors t) (tempBestParent t).
Definition set_tempNearestNode (r : option nat) t : RRTTree num :=
  mkRRTTree (nodes t) (width t) (height t) (start t) (goal t) (obstacles t) (params t)
    (goalNodeId t) (algorithm t) (microState t) (tempSample t) r
    (tempNewPoint t) (tempNeighbors t) (tempBestParent t).
Definition set_tempNewPoint (p : option (Point.t num)) t : RRTTree num :=
  mkRRTTree (nodes t) (width t) (height t) (start t) (goal t) (obstacles t) (params t)
    (goalNodeId t) (algorithm t) (microState t) (tempSample t) (tempNearestNode t)
    p (tempNeighbors t) (tempBestParent t).
Definition set_tempNeighbors (l : list nat) t : RRTTree num :=
  mkRRTTree (nodes t) (width t) (height t) (start t) (goal t) (obstacles t) (params t)
    (goalNodeId t) (algorithm t) (microState t) (tempSample t) (tempNearestNode t)
    (tempNewPoint t) l (tempBestParent t).
Definition set_tempBestParent (b : option nat) t : RRTTree num :=
  mkRRTTree (nodes t) (width t) (height t) (start t) (goal t) (obstacles t) (params t)
    (goalNodeId t) (algorithm t) (microState t) (tempSample t) (tempNearestNode t)
    (tempNewPoint t) (tempNeighbors t) b.

(** [constructor]: the store holds the root alone. *)
Definition construct (width height : num) (start goal : Point.t num)
    (obstacles : list (Obstacle.t num)) (params : SolverParams num)
    (algorithm : AlgorithmType) : RRTTree num :=
  mkRRTTree [Node.mk 0 (Point.x start) (Point.y start) None num_zero []]
    width height start goal obstacles params None algorithm
    SAMPLE None None None [] None.

Definition resetTemp t : RRTTree num :=
  set_tempBestParent None
    (set_tempNeighbors []
      (set_tempNewPoint None
        (set_tempNearestNode None
          (set_tempSample None t)))).

(** The node object [tempNearestNode] refers to ([None]: null or undefined). *)
Definition nearestNode t : option (Node.t num) :=
  match tempNearestNode t with
  | Some i => nodes t !! i
  | None => None
  end.

(** NEAREST: [for (let i = 0; i < this.nodes.length; i++)], from index [i] on.
    [nearestNodeIndex] is [None] for the initial -1. *)
Fixpoint nearestLoop (sample : Point.t num) ns (i : nat) (minDist : num)
    (nearestNodeIndex : option nat) : option nat :=
  match ns with
  | [] => nearestNodeIndex
  | n :: rest =>
      let d := dist (Node.point n) sample in
      if d <? minDist then nearestLoop sample rest (S i) d (Some i)
      else nearestLoop sample rest (S i) minDist nearestNodeIndex
  end.

(** NEIGHBORS: the indices pushed by the scan, from index [i] on. *)
Fixpoint neighborsLoop (newPoint : Point.t num) (searchRadius : num) ns (i : nat)
  : list nat :=
  match ns with
  | [] => []
  | n :: rest =>
      if dist (Node.point n) newPoint <=? searchRadius
      then i :: neighborsLoop newPoint searchRadius rest (S i)
      else neighborsLoop newPoint searchRadius rest (S i)
  end.

(** CHOOSE_PARENT: [for (const neighborIdx of this.tempNeighbors)], carrying
    [bestParentIdx] and [minCost]. *)
Fixpoint chooseParentLoop ns (newPoint : Point.t num) (obs : list (Obstacle.t num))
    (neighbors : list nat) (bestParentIdx : nat) (minCost : num)
  : result (nat * num) :=
  match neighbors with
  | [] => Ok (bestParentIdx, minCost)
  | neighborIdx :: rest =>
      let* neighbor := get ns neighborIdx in
      let potentialCost := Node.cost neighbor + dist (Node.point neighbor) newPoint in
      if potentialCost <? minCost then
        match checkCollision (Node.point neighbor) newPoint obs with
        | None => OutOfFuel
        | Some false => chooseParentLoop ns newPoint obs rest neighborIdx potentialCost
        | Some true => chooseParentLoop ns newPoint obs rest bestParentIdx minCost
        end
      else chooseParentLoop ns newPoint obs rest bestParentIdx minCost
  end.

(** [updateCost]: the loop [for (const childId of node.children)], with the
    recursive call passed in, and the function itself; [fuel] bounds the depth
    of the recursion. *)
Fixpoint forChildren (updateCost' : list (Node.t num) -> nat -> result (list (Node.t num)))
    (nodeId : nat) (childIds : list nat) ns : result (list (Node.t num)) :=
  match childIds with
  | [] => Ok ns
  | childId :: rest =>
      let* node := get ns nodeId in
      let* child := get ns childId in
      let ns1 :=
        alter (Node.set_cost (Node.cost node + dist (Node.point node) (Node.point child)))
              childId ns in
      let* ns2 := updateCost' ns1 childId in
      forChildren updateCost' nodeId rest ns2
  end.

Fixpoint updateCost (fuel : nat) ns (nodeId : nat) : result (list (Node.t num)) :=
  match fuel with
  | O => OutOfFuel
  | S fuel' =>
      let* node := get ns nodeId in
      forChildren (updateCost fuel') nodeId (Node.children node) ns
  end.

(** The body of the REWIRE loop for one [neighborIdx]. *)
Definition rewireOne (fuel : nat) (obs : list (Obstacle.t num)) (newNodeId : nat)
    ns (neighborIdx : nat) : result (list (Node.t num)) :=
  let* newNode := get ns newNodeId in
  if decide (Some neighborIdx = Node.parentId newNode) then Ok ns
  else
    let* neighbor := get ns neighborIdx in
    let newCostThroughNewNode :=
      Node.cost newNode + dist (Node.point newNode) (Node.point neighbor) in
    if newCostThroughNewNode <? Node.cost neighbor then
      match checkCollision (Node.point newNode) (Node.point neighbor) obs with
      | None => OutOfFuel
      | Some true => Ok ns
      | Some false =>
          let* ns1 :=
            match Node.parentId neighbor with
            | Some oldParentId =>
                let* oldParent := get ns oldParentId in
                Ok (alter (Node.set_children
                             (filter (fun i => i <> Node.id neighbor) (Node.children oldParent)))
                          oldParentId ns)
            | None => Ok ns
            end in
          let ns2 := alter (Node.set_parentId (Some newNodeId)) neighborIdx ns1 in
          let ns3 := alter (Node.set_cost newCostThroughNewNode) neighborIdx ns2 in
          let ns4 :=
            alter (fun n => Node.set_children (Node.children n ++ [Node.id neighbor]) n)
                  newNodeId ns3 in
          updateCost fuel ns4 (Node.id neighbor)
      end
    else Ok ns.

Fixpoint rewireLoop (fuel : nat) (obs : list (Obstacle.t num)) (newNodeId : nat)
    ns (neighbors : list nat) : result (list (Node.t num)) :=
  match neighbors with
  | [] => Ok ns
  | neighborIdx :: rest =>
      let* ns' := rewireOne fuel obs newNodeId ns neighborIdx in
      rewireLoop fuel obs newNodeId ns' rest
  end.

(** [stepMicro]: one micro-step.  The result is the returned boolean, the
    planner after the call and the unread rest of [Math.random]. *)
Definition stepMicro (fuel : nat) t g : result (bool * RRTTree num * Rng num) :=
  if bool_decide (maxIterations (params t) <= length (nodes t))%nat then Ok (false, t, g)
  else
    match microState t with
    | SAMPLE =>
        let (r, g1) := Math_random g in
        if r <? goalBias (params t) then
          Ok (true, set_microState NEAREST (set_tempSample (Some (goal t)) t), g1)
        else
          let (p, g2) := samplePoint (width t) (height t) g1 in
          Ok (true, set_microState NEAREST (set_tempSample (Some p) t), g2)
    | NEAREST =>
        match tempSample t with
        | None => Ok (true, set_microState SAMPLE t, g)
        | Some sample =>
            let nearestNodeIndex := nearestLoop sample (nodes t) 0 num_infinity None in
            Ok (true, set_microState STEER (set_tempNearestNode nearestNodeIndex t), g)
        end
    | STEER =>
        match nearestNode t, tempSample t with
        | Some nearest, Some sample =>
            let newPoint := steer (Node.point nearest) sample (stepSize (params t)) in
            Ok (true, set_microState COLLISION_CHECK (set_tempNewPoint (Some newPoint) t), g)
        | _, _ => Ok (true, set_microState SAMPLE t, g)
        end
    | COLLISION_CHECK =>
        match nearestNode t, tempNewPoint t with
        | Some nearest, Some newPoint =>
            match checkCollision (Node.point nearest) newPoint (obstacles t) with
            | None => OutOfFuel
            | Some true => Ok (false, set_microState SAMPLE (resetTemp t), g)
            | Some false =>
                if algorithm_eqb (algorithm t) RRTstar
                then Ok (true, set_microState NEIGHBORS t, g)
                else Ok (true, set_microState ADD_NODE t, g)
            end
        | _, _ => Ok (true, set_microState SAMPLE t, g)
        end
    | NEIGHBORS =>
        match tempNewPoint t with
        | None => Ok (true, set_microState SAMPLE t, g)
        | Some newPoint =>
            let neighbors := neighborsLoop newPoint (searchRadius (params t)) (nodes t) 0 in
            Ok (true, set_microState CHOOSE_PARENT (set_tempNeighbors neighbors t), g)
        end
    | CHOOSE_PARENT =>
        match tempNewPoint t, nearestNode t with
        | Some newPoint, Some nearest =>
            let bestParentIdx := Node.id nearest in
            let minCost := Node.cost nearest + dist (Node.point nearest) newPoint in
            let* (best, _) :=
              chooseParentLoop (nodes t) newPoint (obstacles t) (tempNeighbors t)
                bestParentIdx minCost in
            Ok (true, set_microState ADD_NODE (set_tempBestParent (Some best) t), g)
        | _, _ => Ok (true, set_microState SAMPLE t, g)
        end
    | ADD_NODE =>
        match tempNewPoint t with
        | None => Ok (true, set_microState SAMPLE t, g)
        | Some newPoint =>
            let finalParentIdx :=
              match algorithm t, tempBestParent t with
              | RRTstar, Some best => best
              | _, _ => match nearestNode t with Some nearest => Node.id nearest | None => 0%nat end
              end in
            let* parent := get (nodes t) finalParentIdx in
            let cost := Node.cost parent + dist (Node.point parent) newPoint in
            let newNodeId := length (nodes t) in
            let newNode :=
              Node.mk newNodeId (Point.x newPoint) (Point.y newPoint) (Some finalParentIdx) cost [] in
            let ns1 := nodes t ++ [newNode] in
            let ns2 :=
              alter (fun n => Node.set_children (Node.children n ++ [newNodeId]) n)
                    finalParentIdx ns1 in
            if algorithm_eqb (algorithm t) RRTstar
            then Ok (true, set_microState REWIRE (set_nodes ns2 t), g)
            else Ok (false, set_microState SAMPLE (resetTemp (set_nodes ns2 t)), g)
        end
    | REWIRE =>
        let* ns' :=
          match algorithm t, tempNewPoint t with
          | RRTstar, Some _ =>
              let newNodeId := (length (nodes t) - 1)%nat in
              rewireLoop fuel (obstacles t) newNodeId (nodes t) (tempNeighbors t)
          | _, _ => Ok (nodes t)
          end in
        Ok (false, set_microState SAMPLE (resetTemp (set_nodes ns' t)), g)
    | IDLE => Ok (true, set_microState SAMPLE t, g)
    end.

(** [step]: [while (this.stepMicro() && ops < 20) ops++].  [remaining] is
    [20 - ops]; the first component of the result counts the [stepMicro]
    calls made. *)
Fixpoint stepWhile (remaining : nat) (fuel : nat) t g : result (nat * RRTTree num * Rng num) :=
  let* (continues, t', g') := stepMicro fuel t g in
  match remaining with
  | O => Ok (1%nat, t', g')
  | S remaining' =>
      if continues then
        let* (calls, t'', g'') := stepWhile remaining' fuel t' g' in
        Ok (S calls, t'', g'')
      else Ok (1%nat, t', g')
  end.

Definition step (fuel : nat) t g : result (bool * RRTTree num * Rng num) :=
  let* (_, t', g') := stepWhile 20 fuel t g in
  Ok (true, t', g').

(** [Array.prototype.sort] with a comparator, on a consistent comparator: the
    stable order.  An element goes after exactly the elements the comparator
    puts strictly before it. *)
Fixpoint sortInsert {A : Type} (cmp : A -> A -> num) (a : A) (sorted : list A) : list A :=
  match sorted with
  | [] => [a]
  | b :: rest => if cmp b a <? num_zero then b :: sortInsert cmp a rest else a :: b :: rest
  end.

Definition sort {A : Type} (cmp : A -> A -> num) (l : list A) : list A :=
  foldr (sortInsert cmp) [] l.

(** [getPath]: the scan for candidates, from index [i] on. *)
Fixpoint candidatesLoop (goal : Point.t num) (band : num) ns (i : nat) : list nat :=
  match ns with
  | [] => []
  | n :: rest =>
      if dist (Node.point n) goal <=? band
      then i :: candidatesLoop goal band rest (S i)
      else candidatesLoop goal band rest (S i)
  end.

(** [this.nodes[a].cost] inside the comparator; a candidate is always an index
    of the store. *)
Definition costAt ns (a : nat) : num :=
  match ns !! a with
  | Some n => Node.cost n
  | None => num_zero
  end.

(** [while (curr !== null) { path.push(curr); curr = this.nodes[curr].parentId; }] *)
Fixpoint backtrace (fuel : nat) ns (curr : option nat) (path : list nat) : result (list nat) :=
  match curr with
  | None => Ok path
  | Some c =>
      match fuel with
      | O => OutOfFuel
      | S fuel' =>
          let* n := get ns c in
          backtrace fuel' ns (Node.parentId n) (path ++ [c])
      end
  end.

Definition getPath (fuel : nat) t : result (list nat) :=
  let candidates :=
    candidatesLoop (goal t) (stepSize (params t) * num_1_5) (nodes t) 0 in
  match sort (fun a b => costAt (nodes t) a - costAt (nodes t) b) candidates with
  | [] => Ok []
  | closestNode :: _ =>
      let* path := backtrace fuel (nodes t) (Some closestNode) [] in
      Ok (reverse path)
  end.

(** All five scratch fields are null or empty. *)
Definition scratchCleared t : Prop :=
  tempSample t = None /\ tempNearestNode t = None /\ tempNewPoint t = None
  /\ tempNeighbors t = [] /\ tempBestParent t = None.

(** The micro-state has an explicit null guard, and a field it guards is
    missing. *)
Definition guardedFieldMissing t : Prop :=
  match microState t with
  | NEAREST => tempSample t = None
  | STEER => nearestNode t = None \/ tempSample t = None
  | COLLISION_CHECK => nearestNode t = None \/ tempNewPoint t = None
  | NEIGHBORS => tempNewPoint t = None
  | CHOOSE_PARENT => tempNewPoint t = None \/ nearestNode t = None
  | ADD_NODE => tempNewPoint t = None
  | SAMPLE | REWIRE | IDLE => False
  end.

(** [n] consecutive [stepMicro] calls; the booleans returned, first call
    first. *)
Fixpoint runMicro (n : nat) (fuel : nat) t g : result (list bool * RRTTree num * Rng num) :=
  match n with
  | O => Ok ([], t, g)
  | S n' =>
      let* (b, t', g') := stepMicro fuel t g in
      let* (bs, t'', g'') := runMicro n' fuel t' g' in
      Ok (b :: bs, t'', g'')
  end.

End Planner.

(** ** The planner on binary64 *)

Module F64.

#[export] Instance numbers : Numbers float := {|
  num_add := PrimFloat.add;
  num_ltb := PrimFloat.ltb;
  num_leb := PrimFloat.leb;
  num_zero := 0%float;
  num_infinity := PrimFloat.infinity
|}.

#[export] Instance pathNumbers : PathNumbers float := {|
  num_sub := PrimFloat.sub;
  num_mul := PrimFloat.mul;
  num_1_5 := 1.5%float
|}.

Definition geometry (fuel : nat) (libm : Geo.Libm) : Geometry float := {|
  dist := Geo.dist;
  steer := Geo.steer libm;
  checkCollision := Geo.checkCollision fuel;
  samplePoint := Geo.samplePoint
|}.

(** The traces below never leave the branch of [steer] that returns [to]
    unchanged, so the platform's trigonometry is not consulted. *)
Definition libm_unused : Geo.Libm := {|
  Geo.Math_atan2 := fun _ _ => PrimFloat.nan;
  Geo.Math_cos := fun _ => PrimFloat.nan;
  Geo.Math_sin := fun _ => PrimFloat.nan
|}.

#[export] Instance geo : Geometry float := geometry 1000 libm_unused.

(** [Math.random] returning the listed values, then 0 forever. *)
Definition draws (l : list float) : Rng float := fun n => nth n l 0%float.

End F64.

(** ** Micro-steps: guards, saturation and the drain loop *)

Section MicroSteps.
Context {num : Type} `{Numbers num} `{Geometry num}.
Local Open Scope num_scope.

Implicit Types (t : RRTTree num) (g : Rng num).

Lemma bind_Ok {A B : Type} (r : result A) (k : A -> result B) (b : B) :
  bind r k = Ok b -> exists a, r = Ok a /\ k a = Ok b.
Proof. destruct r; cbn; [eauto|discriminate..]. Qed.

Lemma stepMicro_saturated (fuel : nat) t g :
  (maxIterations (params t) <= length (nodes t))%nat ->
  stepMicro fuel t g = Ok (false, t, g).
Proof. intros Hsat. unfold stepMicro. rewrite bool_decide_eq_true_2; done. Qed.

Lemma stepMicro_unsaturated_false (fuel : nat) t g t' g' :
  (length (nodes t) < maxIterations (params t))%nat ->
  stepMicro fuel t g = Ok (false, t', g') ->
  scratchCleared t' /\ microState t' = SAMPLE.
Proof.
  intros Hlt. unfold stepMicro.
  rewrite bool_decide_eq_false_2 by lia.
  unfold scratchCleared.
  destruct (microState t); intros Hstep;
    repeat match type of Hstep with
      | Ok _ = Ok _ => simplify_eq
      | TypeError = Ok _ => discriminate Hstep
      | OutOfFuel = Ok _ => discriminate Hstep
      | bind _ _ = Ok _ => apply bind_Ok in Hstep as (? & ? & Hstep)
      | context [let (_, _) := ?p in _] => destruct p
      | context [match ?x with _ => _ end] => destruct x eqn:?
      end;
    try discriminate; cbn; done.
Qed.

(** C7 (amended).  A saturated call (node count at or above [maxIterations])
    returns [false] and changes nothing, whatever the micro-state and the
    scratch fields are; every other call that returns [false] leaves all five
    scratch fields cleared and the micro-state at [SAMPLE]. *)
Theorem stepMicro_false_scratch (fuel : nat) t g :
  ((maxIterations (params t) <= length (nodes t))%nat ->
     stepMicro fuel t g = Ok (false, t, g))
  /\ ((length (nodes t) < maxIterations (params t))%nat ->
      forall t' g', stepMicro fuel t g = Ok (false, t', g') ->
        scratchCleared t' /\ microState t' = SAMPLE).
Proof.
  split; [apply stepMicro_saturated|].
  intros Hlt t' g'. by apply stepMicro_unsaturated_false.
Qed.

(** C9 (amended).  Below saturation, a call in a micro-state whose null guard
    fires returns [true], sets the micro-state to [SAMPLE] and changes nothing
    else; REWIRE without [tempNewPoint] skips the rewiring and concludes the
    iteration with the store unchanged.  ADD_NODE guards [tempNewPoint] only:
    when no parent is recorded ([tempNearestNode] missing, and no
    [tempBestParent] in use) the parent index falls back to 0 and the node is
    appended below the root. *)
Theorem stepMicro_missing_scratch (fuel : nat) t g :
  (length (nodes t) < maxIterations (params t))%nat ->
  (guardedFieldMissing t ->
     stepMicro fuel t g = Ok (true, set_microState SAMPLE t, g))
  /\ (microState t = REWIRE -> tempNewPoint t = None ->
      stepMicro fuel t g = Ok (false, set_microState SAMPLE (resetTemp t), g))
  /\ (forall newPoint root,
        microState t = ADD_NODE -> tempNewPoint t = Some newPoint ->
        nearestNode t = None ->
        algorithm t = RRT \/ tempBestParent t = None ->
        nodes t !! 0%nat = Some root ->
        exists b t',
          stepMicro fuel t g = Ok (b, t', g)
          /\ nodes t' =
             alter (fun n => Node.set_children (Node.children n ++ [length (nodes t)]) n) 0%nat
               (nodes t ++
                [Node.mk (length (nodes t)) (Point.x newPoint) (Point.y newPoint) (Some 0%nat)
                   (Node.cost root + dist (Node.point root) newPoint) []])).
Proof.
  intros Hlt. unfold stepMicro, guardedFieldMissing.
  rewrite bool_decide_eq_false_2 by lia.
  split; [|split].
  - destruct (microState t); try done.
    + by intros ->.
    + intros [-> | ->]; [done|]. by destruct (nearestNode t).
    + intros [-> | ->]; [done|]. by destruct (nearestNode t).
    + by intros ->.
    + intros [-> | ->]; [done|]. by destruct (tempNewPoint t).
    + by intros ->.
  - intros -> ->. cbn. destruct (algorithm t); cbn; destruct t; reflexivity.
  - intros newPoint root -> -> -> Halg Hroot.
    assert (match algorithm t, tempBestParent t with
            | RRTstar, Some best => best
            | _, _ => 0%nat
            end = 0%nat) as -> by (destruct Halg as [-> | ->]; [done | by destruct (algorithm t)]).
    unfold get. rewrite Hroot. cbn.
    destruct (algorithm_eqb (algorithm t) RRTstar); eauto.
Qed.

Lemma stepWhile_calls (remaining fuel : nat) t g (calls : nat) t' g' :
  stepWhile remaining fuel t g = Ok (calls, t', g') ->
  (1 <= calls <= S remaining)%nat
  /\ exists last,
       runMicro calls fuel t g = Ok (replicate (calls - 1) true ++ [last], t', g')
       /\ ((calls <= remaining)%nat -> last = false).
Proof.
  revert t g calls t' g'.
  induction remaining as [|remaining IH]; intros t g calls t' g' Hloop; cbn in Hloop.
  - apply bind_Ok in Hloop as ([[b t1] g1] & Hstep & Hloop).
    injection Hloop as <- <- <-. split; [lia|].
    exists b. cbn. rewrite Hstep. cbn. split; [done|lia].
  - apply bind_Ok in Hloop as ([[b t1] g1] & Hstep & Hloop).
    destruct b.
    + apply bind_Ok in Hloop as ([[calls1 t2] g2] & Hrec & Hloop).
      injection Hloop as <- <- <-.
      apply IH in Hrec as (Hcalls & last & Hrun & Hlast).
      split; [lia|]. exists last.
      cbn [runMicro]. rewrite Hstep. cbn. rewrite Hrun. cbn.
      replace (calls1 - 0)%nat with (S (calls1 - 1)) by lia.
      split; [done|]. intros ?. apply Hlast. lia.
    + injection Hloop as <- <- <-. split; [lia|].
      exists false. cbn. rewrite Hstep. cbn. done.
Qed.

(** C6 (amended).  [step] calls [stepMicro] again and again until a call
    returns [false] or the counter [ops] has reached the safety cap, which is
    20: a drain makes at most 21 calls, all but the last returned [true], and
    the last returned [false] unless the cap ended the loop.  Whenever its
    [stepMicro] calls return, [step] returns [true]. *)
Theorem step_drains_until_false_or_cap (fuel : nat) t g :
  (forall calls t' g',
     stepWhile 20 fuel t g = Ok (calls, t', g') ->
     step fuel t g = Ok (true, t', g')
     /\ (1 <= calls <= 21)%nat
     /\ exists last,
          runMicro calls fuel t g = Ok (replicate (calls - 1) true ++ [last], t', g')
          /\ ((calls <= 20)%nat -> last = false))
  /\ (forall b t' g',
        step fuel t g = Ok (b, t', g') ->
        b = true /\ exists calls, stepWhile 20 fuel t g = Ok (calls, t', g')).
Proof.
  split.
  - intros calls t' g' Hloop. split; [unfold step; by rewrite Hloop|].
    by apply stepWhile_calls.
  - intros b t' g' Hstep. unfold step in Hstep.
    apply bind_Ok in Hstep as ([[calls t1] g1] & Hloop & Hstep).
    injection Hstep as <- <- <-. eauto.
Qed.

End MicroSteps.

(** ** Concrete runs on binary64 *)

Module Runs.
Import F64.
Local Open Scope float_scope.

(** No obstacles, start (0,0), goal (3,4), the goal sampled on every draw
    ([goalBias] 1), a step long enough for [steer] to return the sample. *)
Definition open_field (maxIterations : nat) (algorithm : AlgorithmType) : RRTTree float :=
  construct 16 16 (Point.mk 0 0) (Point.mk 3 4) []
    {| stepSize := 100; maxIterations := maxIterations; goalBias := 1; searchRadius := 5 |}
    algorithm.

Definition no_draws : Rng float := draws [].

(** The same field with the goal so far away that the squared distance
    overflows: 2^700 squared is [Infinity]. *)
Definition far_goal : RRTTree float :=
  construct 16 16 (Point.mk 0 0) (Point.mk 0x1p+700 0) []
    {| stepSize := 100; maxIterations := 2000; goalBias := 1; searchRadius := 5 |}
    RRTstar.

(** C7, as stated, fails: with room for two nodes, the seventh call appends
    the second node and moves on to REWIRE; the eighth call finds the planner
    saturated and returns [false] with the micro-state still REWIRE and the
    scratch fields still set. *)
Lemma saturated_call_keeps_scratch :
  exists t7 g7 t8 g8,
    runMicro 7 50 (open_field 2 RRTstar) no_draws
      = Ok ([true; true; true; true; true; true; true], t7, g7)
    /\ stepMicro 50 t7 g7 = Ok (false, t8, g8)
    /\ length (nodes t8) = 2%nat
    /\ microState t8 = REWIRE
    /\ tempSample t8 = Some (Point.mk 3 4)
    /\ tempNewPoint t8 = Some (Point.mk 3 4)
    /\ tempNeighbors t8 = [0%nat]
    /\ ~ (scratchCleared t8 /\ microState t8 = SAMPLE).
Proof.
  eexists _, _, _, _. split; [vm_compute; reflexivity|].
  split; [vm_compute; reflexivity|].
  repeat (split; [vm_compute; reflexivity|]).
  intros [_ Hstate]. vm_compute in Hstate. discriminate Hstate.
Qed.

(** Plain RRT in the open field: the fifth call (ADD_NODE) concludes the
    iteration below saturation, and the scratch fields are cleared. *)
Lemma stepMicro_false_scratch_witness :
  exists t4 g4 t5 g5,
    runMicro 4 50 (open_field 2000 RRT) no_draws = Ok ([true; true; true; true], t4, g4)
    /\ (length (nodes t4) < maxIterations (params t4))%nat
    /\ stepMicro 50 t4 g4 = Ok (false, t5, g5)
    /\ scratchCleared t5 /\ microState t5 = SAMPLE.
Proof.
  eexists _, _, _, _. split; [vm_compute; reflexivity|].
  assert (forall A B : Prop, A -> (A -> B) -> A /\ B) as both by tauto.
  apply both; [cbn; lia|]. intros Hlt.
  apply both; [vm_compute; reflexivity|]. intros Hstep.
  exact (proj2 (stepMicro_false_scratch 50 _ _) Hlt _ _ Hstep).
Defined.

(** A planner in ADD_NODE that holds a candidate point and nothing else. *)
Definition add_node_without_parent : RRTTree float :=
  set_microState ADD_NODE
    (set_tempNewPoint (Some (Point.mk 3 4)) (open_field 2000 RRTstar)).

(** C9, as stated, fails: in ADD_NODE a missing [tempNearestNode] is not
    guarded.  The call appends a node below the root and moves on to REWIRE. *)
Lemma add_node_with_missing_nearest_appends :
  microState add_node_without_parent = ADD_NODE
  /\ tempNearestNode add_node_without_parent = None
  /\ tempBestParent add_node_without_parent = None
  /\ length (nodes add_node_without_parent) = 1%nat
  /\ exists t' g',
       stepMicro 50 add_node_without_parent no_draws = Ok (true, t', g')
       /\ microState t' = REWIRE
       /\ nodes t' = [Node.mk 0 0 0 None 0 [1%nat]; Node.mk 1 3 4 (Some 0%nat) 5 []].
Proof.
  repeat (split; [reflexivity|]).
  eexists _, _. repeat split; vm_compute; reflexivity.
Qed.

(** A planner in STEER whose [tempNearestNode] is missing. *)
Definition steer_without_nearest : RRTTree float :=
  set_microState STEER
    (set_tempSample (Some (Point.mk 3 4)) (open_field 2000 RRTstar)).

Lemma stepMicro_missing_scratch_witness :
  (length (nodes steer_without_nearest) < maxIterations (params steer_without_nearest))%nat
  /\ guardedFieldMissing steer_without_nearest
  /\ stepMicro 50 steer_without_nearest no_draws
      = Ok (true, set_microState SAMPLE steer_without_nearest, no_draws).
Proof.
  assert (forall A B : Prop, A -> (A -> B) -> A /\ B) as both by tauto.
  apply both; [cbn; lia|]. intros Hlt.
  apply both; [left; reflexivity|]. intros Hmiss.
  exact (proj1 (stepMicro_missing_scratch 50 _ no_draws Hlt) Hmiss).
Defined.

(** C6, as stated, fails: with the goal out of numeric range NEAREST finds no
    node, STEER falls back to SAMPLE, and no call concludes the iteration.
    One [step] makes 21 [stepMicro] calls, all returning [true]. *)
Lemma step_makes_21_calls :
  exists t' g',
    stepWhile 20 50 far_goal no_draws = Ok (21%nat, t', g')
    /\ runMicro 21 50 far_goal no_draws = Ok (replicate 21 true, t', g')
    /\ step 50 far_goal no_draws = Ok (true, t', g')
    /\ length (nodes t') = 1%nat
    /\ ~ (21 <= 8)%nat.
Proof.
  eexists _, _. split; [vm_compute; reflexivity|].
  split; [vm_compute; reflexivity|].
  split; [vm_compute; reflexivity|].
  split; [reflexivity|lia].
Qed.

(** In the open field one [step] of RRT* makes the eight calls of an
    iteration. *)
Lemma step_drains_witness :
  exists t' g',
    stepWhile 20 50 (open_field 2000 RRTstar) no_draws = Ok (8%nat, t', g')
    /\ step 50 (open_field 2000 RRTstar) no_draws = Ok (true, t', g')
    /\ (1 <= 8 <= 21)%nat
    /\ exists last,
         runMicro 8 50 (open_field 2000 RRTstar) no_draws
           = Ok (replicate (8 - 1) true ++ [last], t', g')
         /\ ((8 <= 20)%nat -> last = false).
Proof.
  eexists _, _.
  assert (forall A B : Prop, A -> (A -> B) -> A /\ B) as both by tauto.
  apply both; [vm_compute; reflexivity|]. intros Hloop.
  exact (proj1 (step_drains_until_false_or_cap 50 _ _) _ _ _ Hloop).
Defined.

End Runs.

(** ** The node store as a rooted tree *)

Section Forest.
Context {num : Type}.

Implicit Types (ns : list (Node.t num)) (i p c k : nat).

Definition parentOf ns i : option nat :=
  match ns !! i with
  | Some n => Node.parentId n
  | None => None
  end.

(** The node reached from [i] by following [parentId] [k] times. *)
Fixpoint climb ns k i : option nat :=
  match k with
  | O => Some i
  | S k' =>
      match parentOf ns i with
      | Some p => climb ns k' p
      | None => None
      end
  end.

(** Ids equal indices, node 0 is the only root, [children] lists exactly the
    nodes whose [parentId] points back, without repetition, and every node
    reaches node 0 by following [parentId]. *)
Record Shape ns : Prop := {
  shape_ids : forall i n, ns !! i = Some n -> Node.id n = i;
  shape_root : is_Some (ns !! 0) /\ parentOf ns 0 = None;
  shape_nodup : forall i n, ns !! i = Some n -> NoDup (Node.children n);
  shape_children : forall p np c,
    ns !! p = Some np -> (c ∈ Node.children np <-> parentOf ns c = Some p);
  shape_reach : forall i, i < length ns -> exists k, climb ns k i = Some 0
}.

(** Two stores that differ in the [cost] fields only. *)
Definition skeleton (n : Node.t num) : nat * Point.t num * option nat * list nat :=
  (Node.id n, Node.point n, Node.parentId n, Node.children n).

Definition sameShape ns ns' : Prop := skeleton <$> ns = skeleton <$> ns'.

Lemma parentOf_Some ns i p :
  parentOf ns i = Some p <-> exists n, ns !! i = Some n /\ Node.parentId n = Some p.
Proof.
  unfold parentOf. destruct (ns !! i) as [n|]; split.
  - eauto.
  - by intros (? & [= <-] & ?).
  - done.
  - by intros (? & [=] & _).
Qed.

Lemma parentOf_lt ns i p : parentOf ns i = Some p -> i < length ns.
Proof.
  intros (n & Hn & _)%parentOf_Some. by apply lookup_lt_Some in Hn.
Qed.

Lemma climb_add ns j k i :
  climb ns (j + k) i = match climb ns j i with Some a => climb ns k a | None => None end.
Proof.
  revert i. induction j as [|j IH]; intros i; cbn; [done|].
  destruct (parentOf ns i); [apply IH|done].
Qed.

Lemma climb_S_r ns k i :
  climb ns (S k) i = match climb ns k i with Some a => parentOf ns a | None => None end.
Proof.
  replace (S k) with (k + 1) by lia. rewrite climb_add.
  destruct (climb ns k i) as [a|]; [|done]. cbn. by destruct (parentOf ns a).
Qed.

Lemma sameShape_length ns ns' : sameShape ns ns' -> length ns = length ns'.
Proof.
  unfold sameShape. intros E.
  rewrite <- (length_fmap skeleton ns), E. apply length_fmap.
Qed.

Lemma sameShape_lookup ns ns' i n :
  sameShape ns ns' -> ns !! i = Some n ->
  exists n', ns' !! i = Some n' /\ skeleton n' = skeleton n.
Proof.
  unfold sameShape. intros E Hn.
  assert ((skeleton <$> ns') !! i = Some (skeleton n)) as Hl
    by (rewrite <- E, list_lookup_fmap, Hn; done).
  rewrite list_lookup_fmap in Hl.
  destruct (ns' !! i) as [n'|]; [|done].
  exists n'. split; [done|]. cbn in Hl. congruence.
Qed.

Lemma sameShape_sym ns ns' : sameShape ns ns' -> sameShape ns' ns.
Proof. unfold sameShape. done. Qed.

Lemma sameShape_trans ns1 ns2 ns3 :
  sameShape ns1 ns2 -> sameShape ns2 ns3 -> sameShape ns1 ns3.
Proof. unfold sameShape. congruence. Qed.

Lemma sameShape_parentOf ns ns' i : sameShape ns ns' -> parentOf ns' i = parentOf ns i.
Proof.
  intros E. unfold parentOf.
  destruct (ns !! i) as [n|] eqn:Hn.
  - destruct (sameShape_lookup _ _ _ _ E Hn) as (n' & -> & Hsk).
    unfold skeleton in Hsk. congruence.
  - apply lookup_ge_None in Hn. rewrite (sameShape_length _ _ E) in Hn.
    by apply lookup_ge_None in Hn as ->.
Qed.

Lemma sameShape_climb ns ns' k i : sameShape ns ns' -> climb ns' k i = climb ns k i.
Proof.
  intros E. revert i. induction k as [|k IH]; intros i; cbn; [done|].
  rewrite (sameShape_parentOf _ _ _ E). destruct (parentOf ns i); auto.
Qed.

Lemma sameShape_Shape ns ns' : sameShape ns ns' -> Shape ns -> Shape ns'.
Proof.
  intros E [Hids [Hroot0 Hroot] Hnodup Hchildren Hreach].
  assert (forall i n', ns' !! i = Some n' ->
            exists n, ns !! i = Some n /\ skeleton n = skeleton n') as Hback
    by (intros i n'; apply sameShape_lookup, sameShape_sym, E).
  split.
  - intros i n' (n & Hn & Hsk)%Hback. unfold skeleton in Hsk.
    rewrite <- (Hids i n Hn). congruence.
  - split; [|by rewrite (sameShape_parentOf _ _ _ E)].
    apply lookup_lt_is_Some. rewrite <- (sameShape_length _ _ E).
    by apply lookup_lt_is_Some.
  - intros i n' (n & Hn & Hsk)%Hback. unfold skeleton in Hsk.
    replace (Node.children n') with (Node.children n) by congruence. eauto.
  - intros p np' c (np & Hnp & Hsk)%Hback. unfold skeleton in Hsk.
    rewrite (sameShape_parentOf _ _ _ E).
    replace (Node.children np') with (Node.children np) by congruence. eauto.
  - intros i Hi. rewrite <- (sameShape_length _ _ E) in Hi.
    destruct (Hreach i Hi) as [k Hk]. exists k.
    by rewrite (sameShape_climb _ _ _ _ E).
Qed.

Lemma sameShape_alter_cost ns i (v : num) : sameShape ns (alter (Node.set_cost v) i ns).
Proof.
  unfold sameShape. symmetry.
  rewrite (list_fmap_alter skeleton (Node.set_cost v) (fun s => s)).
  - by apply list_alter_id.
  - by apply Forall_forall.
Qed.

Section ShapeFacts.
Variable ns : list (Node.t num).
Hypothesis HS : Shape ns.

Lemma climb_root_stuck k : climb ns (S k) 0 = None.
Proof. cbn. by rewrite (proj2 (shape_root _ HS)). Qed.

(** The depth of a node is unique. *)
Lemma depth_unique k1 k2 i :
  climb ns k1 i = Some 0 -> climb ns k2 i = Some 0 -> k1 = k2.
Proof.
  revert k2 i. induction k1 as [|k1 IH]; intros [|k2] i H1 H2; [done|..].
  - cbn in H1. injection H1 as ->. by rewrite climb_root_stuck in H2.
  - cbn in H2. injection H2 as ->. by rewrite climb_root_stuck in H1.
  - cbn in H1, H2. destruct (parentOf ns i); [|done]. f_equal. eauto.
Qed.

Lemma parent_valid i p : parentOf ns i = Some p -> p < length ns.
Proof.
  intros Hp. destruct (shape_reach _ HS i (parentOf_lt _ _ _ Hp)) as [[|k] Hk].
  - cbn in Hk. injection Hk as ->. rewrite (proj2 (shape_root _ HS)) in Hp. done.
  - cbn in Hk. rewrite Hp in Hk. destruct k as [|k].
    + cbn in Hk. injection Hk as ->. apply lookup_lt_is_Some, HS.
    + cbn in Hk. destruct (parentOf ns p) eqn:E; [|done]. by eapply parentOf_lt.
Qed.

Lemma climb_valid k i a : i < length ns -> climb ns k i = Some a -> a < length ns.
Proof.
  revert i. induction k as [|k IH]; intros i Hi Hk; cbn in Hk.
  - by injection Hk as <-.
  - destruct (parentOf ns i) as [p|] eqn:Hp; [|done]. eauto using parent_valid.
Qed.

(** No node is its own proper ancestor. *)
Lemma no_cycle k i : climb ns (S k) i = Some i -> False.
Proof.
  intros Hk.
  assert (i < length ns) as Hi.
  { cbn in Hk. destruct (parentOf ns i) eqn:E; [|done]. by eapply parentOf_lt. }
  destruct (shape_reach _ HS i Hi) as [d Hd].
  assert (climb ns (S k + d) i = Some 0) as Hd' by (rewrite climb_add, Hk; done).
  pose proof (depth_unique _ _ _ Hd' Hd). lia.
Qed.

Lemma no_cycle2 j k i a :
  climb ns j i = Some a -> climb ns (S k) a = Some i -> False.
Proof.
  intros Hj Hk. apply (no_cycle (k + j) a).
  replace (S (k + j)) with (S k + j) by lia. by rewrite climb_add, Hk.
Qed.

(** A node reaches the root in fewer steps than there are nodes. *)
Lemma depth_lt_length k i : i < length ns -> climb ns k i = Some 0 -> k < length ns.
Proof.
  intros Hi Hk.
  set (f := fun m => default 0 (climb ns m i)).
  assert (forall m, m <= k -> climb ns m i = Some (f m)) as Hf.
  { intros m Hm. unfold f. replace k with (m + (k - m)) in Hk by lia.
    rewrite climb_add in Hk. destruct (climb ns m i); done. }
  assert (NoDup (f <$> seq 0 (S k))) as Hnd.
  { apply NoDup_fmap_2_strong; [|apply NoDup_seq].
    intros a b [_ Ha]%elem_of_seq [_ Hb]%elem_of_seq Hab.
    assert (forall a b, a < b -> b <= k -> f a = f b -> False) as Hlt.
    { clear a b Ha Hb Hab. intros a b Hab Hb E.
      pose proof (Hf a ltac:(lia)) as Ha'. pose proof (Hf b ltac:(lia)) as Hb'.
      assert (climb ns (a + S (b - a - 1)) i = Some (f a)) as Hc
        by (rewrite E, <- Hb'; f_equal; lia).
      rewrite climb_add, Ha' in Hc. by apply no_cycle in Hc. }
    destruct (Nat.lt_trichotomy a b) as [?|[?|?]]; [|done|].
    - exfalso. apply (Hlt a b); [done|lia|done].
    - exfalso. apply (Hlt b a); [done|lia|done]. }
  assert (f <$> seq 0 (S k) ⊆+ seq 0 (length ns)) as Hsub.
  { apply NoDup_submseteq; [done|].
    intros x (m & -> & [_ Hm]%elem_of_seq)%list_elem_of_fmap.
    apply elem_of_seq. split; [lia|]. cbn.
    eapply climb_valid; [exact Hi|]. apply Hf. lia. }
  apply submseteq_length in Hsub.
  rewrite length_fmap, !length_seq in Hsub. lia.
Qed.

(** A climb that arrives somewhere is shorter than the store. *)
Lemma climb_bound j i a : i < length ns -> climb ns j i = Some a -> j < length ns.
Proof.
  intros Hi Hj.
  destruct (shape_reach _ HS a (climb_valid _ _ _ Hi Hj)) as [d Hd].
  assert (climb ns (j + d) i = Some 0) as Hjd by (rewrite climb_add, Hj; done).
  apply depth_lt_length in Hjd; [lia|done].
Qed.

End ShapeFacts.

(** [i] is a proper descendant of [a]. *)
Definition sdesc ns (a i : nat) : Prop := exists j, climb ns (S j) i = Some a.

(** [i] is one of [cs] or a descendant of one. *)
Definition under ns (cs : list nat) (i : nat) : Prop :=
  exists c j, c ∈ cs /\ climb ns j i = Some c.

Lemma under_dec ns (cs : list nat) (i : nat) : Shape ns -> under ns cs i \/ ~ under ns cs i.
Proof.
  intros HS.
  assert (forall n, (exists j c, j < n /\ c ∈ cs /\ climb ns j i = Some c)
                    \/ ~ (exists j c, j < n /\ c ∈ cs /\ climb ns j i = Some c)) as Hbounded.
  { induction n as [|n [(j & c & Hj & Hc)|Hno]].
    - right. intros (j & c & Hj & _). lia.
    - left. exists j, c. split; [lia|done].
    - destruct (climb ns n i) as [c|] eqn:E.
      + destruct (decide (c ∈ cs)) as [Hc|Hc].
        * left. exists n, c. split; [lia|done].
        * right. intros (j & c' & Hj & Hc' & E').
          destruct (decide (j = n)) as [->|Hne]; [congruence|].
          apply Hno. exists j, c'. split; [lia|done].
      + right. intros (j & c' & Hj & Hc' & E').
        destruct (decide (j = n)) as [->|Hne]; [congruence|].
        apply Hno. exists j, c'. split; [lia|done]. }
  destruct (Hbounded (S (length ns))) as [(j & c & _ & Hc & Hj)|Hno].
  - left. by exists c, j.
  - right. intros (c & j & Hc & Hj). apply Hno. exists j, c. split; [|done].
    destruct (decide (i < length ns)) as [Hi|Hi].
    + pose proof (climb_bound ns HS j i c Hi Hj). lia.
    + destruct j as [|j]; [lia|]. cbn in Hj.
      destruct (parentOf ns i) eqn:Hp; [|done].
      apply parentOf_lt in Hp. lia.
Qed.

Lemma sdesc_dec ns (a i : nat) : Shape ns -> sdesc ns a i \/ ~ sdesc ns a i.
Proof.
  intros HS. unfold sdesc. destruct (parentOf ns i) as [p|] eqn:Hp.
  - destruct (under_dec ns [a] p HS) as [(c & j & ->%list_elem_of_singleton & Hj)|Hno].
    + left. exists j. cbn. by rewrite Hp.
    + right. intros [j Hj]. cbn in Hj. rewrite Hp in Hj.
      apply Hno. exists a, j. split; [apply list_elem_of_singleton|]; done.
  - right. intros [j Hj]. cbn in Hj. by rewrite Hp in Hj.
Qed.

Lemma sdesc_parent ns (a i p : nat) : parentOf ns i = Some p -> sdesc ns a p -> sdesc ns a i.
Proof. intros Hp [j Hj]. exists (S j). cbn. rewrite Hp. exact Hj. Qed.

End Forest.

(** ** The invariant of the store and its preservation *)

Section TreeInvariant.
Context {num : Type} `{Numbers num} `{Geometry num}.
Local Open Scope num_scope.

Implicit Types (ns : list (Node.t num)) (t : RRTTree num) (g : Rng num).

(** The cost of node [i] is the cost of its parent plus the distance between
    the two. *)
Definition costOk ns (i : nat) : Prop :=
  forall n p np,
    ns !! i = Some n -> Node.parentId n = Some p -> ns !! p = Some np ->
    Node.cost n = Node.cost np + dist (Node.point np) (Node.point n).

Definition Costs ns : Prop :=
  (forall r, ns !! 0%nat = Some r -> Node.cost r = num_zero)
  /\ forall i, costOk ns i.

Definition TreeInv ns : Prop := Shape ns /\ Costs ns.

Lemma construct_TreeInv (width height : num) (start goal : Point.t num)
    (obstacles : list (Obstacle.t num)) (params : SolverParams num)
    (algorithm : AlgorithmType) :
  TreeInv (nodes (construct width height start goal obstacles params algorithm)).
Proof.
  cbn. split; [split|split].
  - intros [|i] n Hn; [by injection Hn as <-|done].
  - split; [by eexists|done].
  - intros [|i] n Hn; [injection Hn as <-; constructor|done].
  - intros [|p] np c Hnp; [injection Hnp as <-|done]. cbn.
    split; [by intros ?%elem_of_nil|]. by destruct c.
  - intros [|i] Hi; [by exists 0%nat|cbn in Hi; lia].
  - intros r Hr. by injection Hr as <-.
  - intros [|i] n p np Hn Hp Hnp; [by injection Hn as <-|done].
Qed.

(** *** ADD_NODE *)

Section AddNode.
Variables (ns : list (Node.t num)) (fp : nat) (parent : Node.t num) (newPoint : Point.t num).
Hypothesis HT : TreeInv ns.
Hypothesis Hparent : ns !! fp = Some parent.

Let newNode : Node.t num :=
  Node.mk (length ns) (Point.x newPoint) (Point.y newPoint) (Some fp)
    (Node.cost parent + dist (Node.point parent) newPoint) [].

Let ns' : list (Node.t num) :=
  alter (fun n => Node.set_children (Node.children n ++ [length ns]) n) fp (ns ++ [newNode]).

Local Lemma add_fp_lt : fp < length ns.
Proof using Hparent. by apply lookup_lt_Some in Hparent. Qed.

Local Lemma add_lookup i n' :
  ns' !! i = Some n' <->
  (i = length ns /\ n' = newNode)
  \/ (exists n, ns !! i = Some n /\
        n' = if decide (i = fp) then Node.set_children (Node.children n ++ [length ns]) n else n).
Proof using Hparent.
  pose proof add_fp_lt as Hfp. unfold ns'.
  rewrite list_lookup_alter. case_decide as E.
  - subst i. rewrite lookup_app_l, Hparent by done. cbn. split.
    + intros [= <-]. right. exists parent. by rewrite decide_True.
    + intros [[? _]|(n & [= <-] & ->)]; [lia|]. by rewrite decide_True.
  - rewrite lookup_snoc_Some. split.
    + intros [[_ Hn]|[-> <-]]; [right|by left].
      exists n'. by rewrite decide_False.
    + intros [[-> ->]|(n & Hn & ->)]; [by right|].
      left. rewrite decide_False by done. split; [by eapply lookup_lt_Some|done].
Qed.

Local Lemma add_length : length ns' = S (length ns).
Proof. unfold ns'. rewrite length_alter, length_app. cbn. lia. Qed.

Local Lemma add_parentOf i :
  parentOf ns' i = if decide (i = length ns) then Some fp else parentOf ns i.
Proof using Hparent.
  unfold parentOf at 1. destruct (ns' !! i) as [n'|] eqn:E.
  - apply add_lookup in E as [[-> ->]|(n & Hn & ->)].
    + by rewrite decide_True.
    + apply lookup_lt_Some in Hn as Hlt.
      destruct (decide (i = length ns)); [lia|].
      unfold parentOf. rewrite Hn. by case_decide.
  - apply lookup_ge_None in E. rewrite add_length in E.
    rewrite decide_False by lia. unfold parentOf.
    by rewrite (lookup_ge_None_2 ns i) by lia.
Qed.

Local Lemma add_climb k i : i < length ns -> climb ns' k i = climb ns k i.
Proof using HT Hparent.
  revert i. induction k as [|k IH]; intros i Hi; cbn; [done|].
  rewrite add_parentOf, decide_False by lia.
  destruct (parentOf ns i) as [p|] eqn:Hp; [|done].
  apply IH. eapply parent_valid; [apply HT|done].
Qed.

Lemma addNode_Shape : Shape ns'.
Proof using HT Hparent.
  destruct HT as [[Hids [Hroot0 Hroot] Hnodup Hchildren Hreach] _].
  pose proof add_fp_lt as Hfp.
  split.
  - intros i n' [[-> ->]|(n & Hn & ->)]%add_lookup; [done|].
    case_decide; cbn; eauto.
  - split.
    + apply lookup_lt_is_Some. rewrite add_length.
      apply lookup_lt_is_Some in Hroot0. lia.
    + rewrite add_parentOf, decide_False; [done|].
      apply lookup_lt_is_Some in Hroot0. lia.
  - intros i n' [[-> ->]|(n & Hn & ->)]%add_lookup; [constructor|].
    case_decide as E; [|eauto]. subst i. cbn.
    apply NoDup_app. split; [eauto|]. split; [|apply NoDup_singleton].
    intros c Hc ->%list_elem_of_singleton.
    apply (Hchildren fp n) in Hc; [|done].
    apply parentOf_lt in Hc. lia.
  - intros p np' c [[-> ->]|(np & Hnp & ->)]%add_lookup.
    + cbn. rewrite add_parentOf. split; [by intros ?%elem_of_nil|].
      case_decide; [intros [= ->]; lia|].
      intros Hc. eapply parent_valid in Hc; [lia|apply HT].
    + rewrite add_parentOf.
      assert (p < length ns) as Hp by by eapply lookup_lt_Some.
      case_decide as Ep; case_decide as Ec; subst; cbn.
      * rewrite elem_of_app, list_elem_of_singleton. naive_solver.
      * rewrite elem_of_app, list_elem_of_singleton, (Hchildren fp np c Hnp). naive_solver.
      * rewrite (Hchildren p np _ Hnp). split; [|naive_solver].
        intros Hc%parentOf_lt. lia.
      * apply Hchildren, Hnp.
  - intros i Hi. rewrite add_length in Hi.
    destruct (decide (i = length ns)) as [->|Hne].
    + destruct (Hreach fp Hfp) as [k Hk]. exists (S k). cbn.
      rewrite add_parentOf, decide_True by done. by rewrite add_climb.
    + destruct (Hreach i ltac:(lia)) as [k Hk]. exists k.
      rewrite add_climb by lia. done.
Qed.

Lemma addNode_Costs : Costs ns'.
Proof using HT Hparent.
  destruct HT as [HS [Hroot Hcost]]. pose proof add_fp_lt as Hfp.
  split.
  - intros r [[E _]|(n & Hn & ->)]%add_lookup.
    + destruct (proj1 (shape_root _ HS)) as [? ?%lookup_lt_Some]. lia.
    + case_decide; cbn; eauto.
  - intros i n' p np' [[-> ->]|(n & Hn & ->)]%add_lookup Hp.
    + cbn in Hp. injection Hp as <-.
      intros [[? _]|(np & Hnp & ->)]%add_lookup; [lia|].
      rewrite decide_True by done. cbn.
      replace np with parent by congruence.
      by destruct newPoint.
    + assert (Node.parentId n = Some p) as Hp' by (by case_decide).
      assert (p < length ns) as Hplt.
      { eapply parent_valid; [exact HS|]. apply parentOf_Some. eauto. }
      intros [[? _]|(np & Hnp & ->)]%add_lookup; [lia|].
      transitivity (Node.cost n); [by case_decide|].
      rewrite (Hcost i n p np Hn Hp' Hnp).
      by repeat case_decide.
Qed.

Lemma addNode_TreeInv : TreeInv ns'.
Proof using HT Hparent. split; [apply addNode_Shape|apply addNode_Costs]. Qed.

End AddNode.

(** *** The cost cascade [updateCost] *)

(** What a cascade from [a] does to a well-shaped store: only [cost] fields
    change, only below [a], and every node below [a] ends with the cost of
    its parent plus the distance. *)
Definition cascadeSpec (a : nat) ns ns' : Prop :=
  sameShape ns ns'
  /\ (forall i, ~ sdesc ns a i -> ns' !! i = ns !! i)
  /\ (forall i, sdesc ns a i -> costOk ns' i).

Lemma get_Ok {A : Type} (xs : list A) (i : nat) (a : A) : get xs i = Ok a <-> xs !! i = Some a.
Proof. unfold get. destruct (xs !! i); naive_solver. Qed.

Lemma costOk_transfer ns ns' i :
  ns' !! i = ns !! i ->
  (forall p, parentOf ns i = Some p -> ns' !! p = ns !! p) ->
  costOk ns i -> costOk ns' i.
Proof.
  intros Hi Hp Hok n p np Hn Hpar Hnp. rewrite Hi in Hn.
  rewrite Hp in Hnp by (apply parentOf_Some; eauto). eauto.
Qed.

Lemma forChildren_spec
    (rec : list (Node.t num) -> nat -> result (list (Node.t num))) (a : nat) :
  (forall ns c ns', Shape ns -> rec ns c = Ok ns' -> cascadeSpec c ns ns') ->
  forall cs ns ns',
    Shape ns -> (forall c, c ∈ cs -> parentOf ns c = Some a) ->
    forChildren rec a cs ns = Ok ns' ->
    sameShape ns ns'
    /\ (forall i, ~ under ns cs i -> ns' !! i = ns !! i)
    /\ (forall i, under ns cs i -> costOk ns' i).
Proof.
  intros Hrec cs. induction cs as [|c rest IH]; intros ns ns' HS Hcs Hloop.
  { cbn in Hloop. injection Hloop as <-. split; [done|]. split; [done|].
    intros i (c & j & []%elem_of_nil & _). }
  cbn [forChildren] in Hloop.
  apply bind_Ok in Hloop as (node & Hnode%get_Ok & Hloop).
  apply bind_Ok in Hloop as (child & Hchild%get_Ok & Hloop).
  apply bind_Ok in Hloop as (ns2 & Hrec2 & Hloop).
  set (ns1 := alter (Node.set_cost (Node.cost node + dist (Node.point node) (Node.point child)))
                c ns) in *.
  assert (sameShape ns ns1) as E1 by apply sameShape_alter_cost.
  assert (Shape ns1) as HS1 by eauto using sameShape_Shape.
  destruct (Hrec ns1 c ns2 HS1 Hrec2) as (E2 & Hout2 & Hin2).
  assert (Shape ns2) as HS2 by eauto using sameShape_Shape.
  assert (sameShape ns ns2) as E02 by eauto using sameShape_trans.
  assert (forall c', c' ∈ rest -> parentOf ns2 c' = Some a) as Hrest.
  { intros c' Hc'. rewrite (sameShape_parentOf _ _ _ E02). apply Hcs. by right. }
  destruct (IH ns2 ns' HS2 Hrest Hloop) as (E3 & Hout3 & Hin3).
  assert (parentOf ns c = Some a) as Hca by (apply Hcs; left).
  assert (forall i, under ns2 rest i <-> under ns rest i) as Hunder.
  { intros i. unfold under. by setoid_rewrite (sameShape_climb _ _ _ _ E02). }
  assert (forall i, sdesc ns1 c i <-> sdesc ns c i) as Hsdesc.
  { intros i. unfold sdesc. by setoid_rewrite (sameShape_climb _ _ _ _ E1). }
  split; [eauto using sameShape_trans|]. split.
  - intros i Hi.
    assert (i <> c) as Hic.
    { intros ->. apply Hi. exists c, 0%nat. split; [left|done]. }
    rewrite Hout3, Hout2.
    + unfold ns1. by apply list_lookup_alter_ne.
    + rewrite Hsdesc. intros [j Hj]. apply Hi. exists c, (S j). split; [left|done].
    + rewrite Hunder. intros (c' & j & Hc' & Hj). apply Hi. exists c', j. split; [by right|done].
  - intros i Hi.
    destruct (under_dec ns2 rest i HS2) as [Hr|Hr]; [by apply Hin3|].
    assert (exists j, climb ns j i = Some c) as [j Hj].
    { destruct Hi as (c' & j & [->|Hc']%elem_of_cons & Hj); [eauto|].
      exfalso. apply Hr, Hunder. by exists c', j. }
    apply (costOk_transfer ns2).
    + by apply Hout3.
    + intros p Hp. apply Hout3. intros (c' & j' & Hc' & Hj'). apply Hr.
      exists c', (S j'). split; [done|]. cbn. by rewrite Hp.
    + destruct j as [|j].
      * cbn in Hj. injection Hj as ->.
        assert (ns2 !! c = ns1 !! c) as Hc2.
        { apply Hout2. rewrite Hsdesc. intros [j Hj]. by eapply (no_cycle ns). }
        assert (a <> c) as Hac.
        { intros ->. apply (no_cycle ns HS 0 c). cbn. by rewrite Hca. }
        assert (ns2 !! a = ns !! a) as Ha2.
        { rewrite Hout2; [unfold ns1; by apply list_lookup_alter_ne|].
          rewrite Hsdesc. intros [j Hj].
          apply (no_cycle2 ns HS 1 j c a); [|done]. cbn. by rewrite Hca. }
        intros n p np Hn Hp Hnp. rewrite Hc2 in Hn.
        unfold ns1 in Hn. rewrite list_lookup_alter_eq, Hchild in Hn.
        cbn in Hn. injection Hn as <-. cbn in Hp.
        assert (p = a) as ->.
        { unfold parentOf in Hca. rewrite Hchild in Hca. congruence. }
        rewrite Ha2, Hnode in Hnp. by injection Hnp as <-.
      * apply Hin2, Hsdesc. by exists j.
Qed.

Lemma updateCost_spec (fuel : nat) ns (a : nat) ns' :
  Shape ns -> updateCost fuel ns a = Ok ns' -> cascadeSpec a ns ns'.
Proof.
  revert ns a ns'. induction fuel as [|fuel IH]; intros ns a ns' HS Hup; [done|].
  cbn [updateCost] in Hup.
  apply bind_Ok in Hup as (node & Hnode%get_Ok & Hup).
  apply forChildren_spec in Hup as (E & Hout & Hin); [|exact IH|exact HS|].
  - assert (forall i, under ns (Node.children node) i <-> sdesc ns a i) as Hiff.
    { intros i. split.
      - intros (c & j & Hc & Hj). exists j. rewrite climb_S_r, Hj.
        by apply (shape_children _ HS a node c Hnode).
      - intros [j Hj]. rewrite climb_S_r in Hj.
        destruct (climb ns j i) as [c|] eqn:Hc; [|done].
        exists c, j. split; [|done]. by apply (shape_children _ HS a node c Hnode). }
    split; [done|]. split; intros i Hi; [apply Hout|apply Hin]; by rewrite Hiff.
  - intros c Hc. by apply (shape_children _ HS a node c Hnode).
Qed.

(** A cascade repairs a well-shaped store whose costs are right everywhere
    except below [a]. *)
Lemma cascade_TreeInv (a : nat) ns ns' :
  Shape ns -> cascadeSpec a ns ns' ->
  (forall r, ns !! 0%nat = Some r -> Node.cost r = num_zero) ->
  (forall i, ~ sdesc ns a i -> costOk ns i) ->
  TreeInv ns'.
Proof.
  intros HS (E & Hout & Hin) Hroot Hok.
  split; [eauto using sameShape_Shape|]. split.
  - intros r Hr. apply Hroot. rewrite <- Hout; [done|].
    intros [j Hj]. by rewrite (climb_root_stuck ns HS) in Hj.
  - intros i. destruct (sdesc_dec ns a i HS) as [Hi|Hi]; [by apply Hin|].
    apply (costOk_transfer ns); [by apply Hout| |by apply Hok].
    intros p Hp. apply Hout. intros Hd. apply Hi. by eapply sdesc_parent.
Qed.

(** *** REWIRE *)

(** The two facts about numbers behind the invariant: no number is below
    itself, and adding a distance to a number that is not below [c] gives a
    number that is not below [c].  Both hold for binary64 (rounding is
    monotone, and every comparison with NaN is false) and for exact
    arithmetic. *)
Record CostLaws : Prop := {
  lt_irrefl : forall a : num, (a <? a) = false;
  add_dist_not_below : forall (a c : num) (p q : Point.t num),
    (a <? c) = false -> (a + dist p q <? c) = false
}.

(** The cost of a node is never below the cost of one of its ancestors. *)
Lemma cost_not_below_ancestor ns (k i a : nat) (n na : Node.t num) :
  CostLaws -> TreeInv ns ->
  climb ns k i = Some a -> ns !! i = Some n -> ns !! a = Some na ->
  (Node.cost n <? Node.cost na) = false.
Proof.
  intros HL [HS [_ Hcost]]. revert i n.
  induction k as [|k IH]; intros i n Hk Hn Hna; cbn in Hk.
  - injection Hk as ->. replace na with n by congruence. apply HL.
  - destruct (parentOf ns i) as [p|] eqn:Hp; [|done].
    apply parentOf_Some in Hp as (n' & Hn' & Hp).
    replace n' with n in * by congruence.
    assert (is_Some (ns !! p)) as [np Hnp].
    { apply lookup_lt_is_Some. eapply (parent_valid ns HS i). apply parentOf_Some. eauto. }
    rewrite (Hcost i n p np Hn Hp Hnp).
    apply HL. eauto.
Qed.

Section Rewire.
Variables (ns : list (Node.t num)) (X N : nat) (newNode neighbor : Node.t num).
Hypothesis HL : CostLaws.
Hypothesis HT : TreeInv ns.
Hypothesis HX : ns !! X = Some newNode.
Hypothesis HN : ns !! N = Some neighbor.
Hypothesis Hcheaper :
  (Node.cost newNode + dist (Node.point newNode) (Node.point neighbor) <? Node.cost neighbor)
  = true.

(** A neighbour that gets cheaper through the new node is not an ancestor of
    the new node, nor the new node itself. *)
Lemma rewire_not_ancestor (k : nat) : climb ns k X <> Some N.
Proof using HL HT HX HN Hcheaper.
  intros Hk.
  pose proof (cost_not_below_ancestor ns k X N newNode neighbor HL HT Hk HX HN) as Hge.
  apply (add_dist_not_below HL _ _ (Node.point newNode) (Node.point neighbor)) in Hge.
  congruence.
Qed.

Lemma rewire_N_not_X : N <> X.
Proof using HL HT HX HN Hcheaper.
  intros E. apply (rewire_not_ancestor 0). cbn. by rewrite E.
Qed.

Lemma rewire_N_not_root : N <> 0%nat.
Proof using HL HT HX HN Hcheaper.
  intros E. destruct HT as [HS _].
  destruct (shape_reach _ HS X ltac:(by eapply lookup_lt_Some)) as [k Hk].
  apply (rewire_not_ancestor k). by rewrite E.
Qed.

Lemma rewire_old_parent :
  exists op oldParent,
    Node.parentId neighbor = Some op /\ ns !! op = Some oldParent
    /\ op <> X /\ op <> N.
Proof using HL HT HX HN Hcheaper.
  destruct HT as [HS [_ Hcost]].
  destruct (shape_reach _ HS N ltac:(by eapply lookup_lt_Some)) as [[|k] Hk].
  { cbn in Hk. injection Hk as Hk. by destruct (rewire_N_not_root Hk). }
  cbn in Hk. destruct (parentOf ns N) as [op|] eqn:Hop; [|done].
  assert (Node.parentId neighbor = Some op) as Hpar
    by (unfold parentOf in Hop; by rewrite HN in Hop).
  assert (is_Some (ns !! op)) as [oldParent Hold]
    by (apply lookup_lt_is_Some; by eapply (parent_valid ns HS N)).
  exists op, oldParent. split; [done|]. split; [done|]. split.
  - intros ->. replace oldParent with newNode in * by congruence.
    rewrite (Hcost N neighbor X newNode HN Hpar HX), (lt_irrefl HL) in Hcheaper. done.
  - intros ->. apply (no_cycle ns HS 0 N). cbn. by rewrite Hop.
Qed.

Section Surgery.
Variables (op : nat) (oldParent : Node.t num).
Hypothesis Hpar : Node.parentId neighbor = Some op.
Hypothesis Hold : ns !! op = Some oldParent.
Hypothesis HopX : op <> X.
Hypothesis HopN : op <> N.

Let newCost : num :=
  Node.cost newNode + dist (Node.point newNode) (Node.point neighbor).

(** The store after the four assignments of the re-parenting, before the
    cascade. *)
Definition reparented : list (Node.t num) :=
  alter (fun n => Node.set_children (Node.children n ++ [Node.id neighbor]) n) X
    (alter (Node.set_cost newCost) N
      (alter (Node.set_parentId (Some X)) N
        (alter (Node.set_children
                  (filter (fun i => i <> Node.id neighbor) (Node.children oldParent)))
               op ns))).

Let tr (i : nat) (n : Node.t num) : Node.t num :=
  if decide (i = N) then
    Node.mk (Node.id n) (Node.x n) (Node.y n) (Some X) newCost (Node.children n)
  else if decide (i = op) then
    Node.set_children (filter (fun c => c <> N) (Node.children n)) n
  else if decide (i = X) then Node.set_children (Node.children n ++ [N]) n
  else n.

Local Lemma surgery_lookup (i : nat) : reparented !! i = tr i <$> ns !! i.
Proof using All.
  assert (Node.id neighbor = N) as Hid by (destruct HT as [HS _]; by apply (shape_ids _ HS)).
  pose proof rewire_N_not_X as HNX.
  unfold reparented, tr. rewrite Hid, !list_lookup_alter.
  repeat case_decide; subst; try done; rewrite ?Hold, ?HN, ?HX; try done.
  all: by destruct (ns !! i).
Qed.

Local Lemma surgery_length : length reparented = length ns.
Proof. unfold reparented. by rewrite !length_alter. Qed.

Local Lemma surgery_parentOf (i : nat) :
  parentOf reparented i = if decide (i = N) then Some X else parentOf ns i.
Proof using All.
  unfold parentOf. rewrite surgery_lookup. unfold tr.
  case_decide as E; [subst; by rewrite HN|].
  destruct (ns !! i); [|done]. cbn. by repeat case_decide.
Qed.

Local Lemma surgery_climb_avoid (k i : nat) :
  (forall j, j <= k -> climb ns j i <> Some N) ->
  climb reparented k i = climb ns k i.
Proof using All.
  revert i. induction k as [|k IH]; intros i Havoid; cbn; [done|].
  rewrite surgery_parentOf.
  case_decide as E; [destruct (Havoid 0%nat ltac:(lia)); cbn; by f_equal|].
  destruct (parentOf ns i) as [p|] eqn:Hp; [|done].
  apply IH. intros j Hj Hc. apply (Havoid (S j) ltac:(lia)). cbn. by rewrite Hp.
Qed.

Local Lemma surgery_reach (d i : nat) :
  climb ns d i = Some 0%nat -> exists k, climb reparented k i = Some 0%nat.
Proof using All.
  destruct HT as [HS _].
  revert i. induction d as [|d IH]; intros i Hd; cbn in Hd.
  { injection Hd as ->. by exists 0%nat. }
  destruct (parentOf ns i) as [p|] eqn:Hp; [|done].
  destruct (decide (i = N)) as [->|Hne].
  - destruct (shape_reach _ HS X ltac:(by eapply lookup_lt_Some)) as [dX HdX].
    exists (S dX). cbn. rewrite surgery_parentOf, decide_True by done.
    rewrite surgery_climb_avoid; [done|]. intros j _. apply rewire_not_ancestor.
  - destruct (IH p Hd) as [k Hk]. exists (S k). cbn.
    by rewrite surgery_parentOf, decide_False, Hp.
Qed.

Lemma reparented_Shape : Shape reparented.
Proof using All.
  pose proof HT as [[Hids [Hroot0 Hroot] Hnodup Hchildren Hreach] _].
  pose proof rewire_N_not_X as HNX. pose proof rewire_N_not_root as HN0.
  assert (parentOf ns N = Some op) as HparN by (unfold parentOf; by rewrite HN).
  split.
  - intros i n'. rewrite surgery_lookup. destruct (ns !! i) as [n|] eqn:Hn; [|done].
    intros [= <-]. unfold tr. repeat case_decide; cbn; eauto.
  - split.
    + apply lookup_lt_is_Some. rewrite surgery_length. by apply lookup_lt_is_Some.
    + by rewrite surgery_parentOf, decide_False.
  - intros i n'. rewrite surgery_lookup. destruct (ns !! i) as [n|] eqn:Hn; [|done].
    intros [= <-]. unfold tr. repeat case_decide; cbn; eauto.
    + apply NoDup_filter. eauto.
    + subst i. apply NoDup_app. split; [eauto|]. split; [|apply NoDup_singleton].
      intros c Hc ->%list_elem_of_singleton.
      apply (Hchildren X n N Hn) in Hc. congruence.
  - intros p np' c. rewrite surgery_lookup.
    destruct (ns !! p) as [np|] eqn:Hnp; [|done]. intros [= <-].
    rewrite surgery_parentOf. pose proof (Hchildren p np c Hnp) as Hiff.
    unfold tr. repeat case_decide; subst; cbn; rewrite ?list_elem_of_filter, ?elem_of_app,
      ?list_elem_of_singleton, ?Hiff; try (rewrite HparN); naive_solver.
  - intros i Hi. rewrite surgery_length in Hi. destruct (Hreach i Hi) as [d Hd].
    by eapply surgery_reach.
Qed.

Lemma reparented_root (r : Node.t num) :
  reparented !! 0%nat = Some r -> Node.cost r = num_zero.
Proof using All.
  destruct HT as [_ [Hroot _]]. pose proof rewire_N_not_root as HN0.
  rewrite surgery_lookup. destruct (ns !! 0%nat) as [n|] eqn:Hn; [|done].
  intros [= <-]. unfold tr. rewrite decide_False by done.
  repeat case_decide; cbn; eauto.
Qed.

Lemma reparented_costOk (i : nat) : ~ sdesc reparented N i -> costOk reparented i.
Proof using All.
  destruct HT as [HS [_ Hcost]]. pose proof rewire_N_not_X as HNX.
  intros Hi n' p np'. rewrite !surgery_lookup.
  destruct (ns !! i) as [n|] eqn:Hn; [|done]. intros [= <-].
  destruct (decide (i = N)) as [->|Hne].
  - unfold tr at 1. rewrite decide_True by done. cbn. intros [= <-].
    rewrite HX. intros [= <-]. unfold tr.
    destruct (decide (X = N)) as [E|_]; [by destruct HNX|].
    replace n with neighbor by congruence.
    by repeat case_decide.
  - intros Hp.
    assert (Node.parentId n = Some p) as Hp'.
    { revert Hp. unfold tr. rewrite decide_False by done. by repeat case_decide. }
    assert (p <> N) as HpN.
    { intros ->. apply Hi. exists 0%nat. cbn.
      rewrite surgery_parentOf, decide_False by done. unfold parentOf. by rewrite Hn, Hp'. }
    destruct (ns !! p) as [np|] eqn:Hnp; [|done]. intros [= <-].
    transitivity (Node.cost n).
    { unfold tr. rewrite decide_False by done. by repeat case_decide. }
    rewrite (Hcost i n p np Hn Hp' Hnp).
    unfold tr. rewrite !(decide_False (P := _ = N)) by done.
    by repeat case_decide.
Qed.

(** The re-parented node, and every other node, after the assignments. *)
Lemma reparented_at_N :
  exists n', reparented !! N = Some n'
    /\ Node.cost n' = newCost /\ Node.parentId n' = Some X
    /\ Node.point n' = Node.point neighbor.
Proof using All.
  rewrite surgery_lookup, HN. unfold tr. cbn [fmap option_fmap option_map].
  rewrite decide_True by done. eexists. split; [done|]. done.
Qed.

Lemma reparented_elsewhere (i : nat) (n : Node.t num) :
  ns !! i = Some n -> i <> N ->
  exists n', reparented !! i = Some n'
    /\ Node.cost n' = Node.cost n /\ Node.parentId n' = Node.parentId n
    /\ Node.point n' = Node.point n.
Proof using All.
  intros Hn Hne. rewrite surgery_lookup, Hn. unfold tr. cbn [fmap option_fmap option_map].
  rewrite decide_False by done. eexists. split; [done|]. by repeat case_decide.
Qed.

End Surgery.

End Rewire.

Lemma rewireOne_TreeInv (fuel : nat) (obs : list (Obstacle.t num)) (X : nat) ns (N : nat) ns' :
  CostLaws -> TreeInv ns ->
  rewireOne fuel obs X ns N = Ok ns' ->
  TreeInv ns' /\ length ns' = length ns.
Proof.
  intros HL HT Hone. unfold rewireOne in Hone.
  apply bind_Ok in Hone as (newNode & HX%get_Ok & Hone).
  case_decide as Hskip; [by injection Hone as <-|].
  apply bind_Ok in Hone as (neighbor & HN%get_Ok & Hone).
  destruct (_ <? _) eqn:Hcheaper; [|by injection Hone as <-].
  destruct (checkCollision _ _ _) as [[|]|]; [by injection Hone as <-| |done].
  destruct (rewire_old_parent ns X N newNode neighbor HL HT HX HN Hcheaper)
    as (op & oldParent & Hpar & Hold & HopX & HopN).
  rewrite Hpar in Hone. unfold get at 1 in Hone. rewrite Hold in Hone. cbn [bind] in Hone.
  assert (Node.id neighbor = N) as Hid by (destruct HT as [HS _]; by apply (shape_ids _ HS)).
  change (updateCost fuel (reparented ns X N newNode neighbor op oldParent) (Node.id neighbor)
          = Ok ns') in Hone.
  rewrite Hid in Hone.
  pose proof (reparented_Shape ns X N newNode neighbor HL HT HX HN Hcheaper
                op oldParent Hpar Hold HopX HopN) as HS4.
  pose proof (updateCost_spec _ _ _ _ HS4 Hone) as Hspec.
  split.
  - eapply cascade_TreeInv; [exact HS4|exact Hspec|..].
    + by apply reparented_root.
    + by apply reparented_costOk.
  - destruct Hspec as (E & _). rewrite <- (sameShape_length _ _ E).
    unfold reparented. by rewrite !length_alter.
Qed.

Lemma rewireLoop_TreeInv (fuel : nat) (obs : list (Obstacle.t num)) (X : nat)
    (neighbors : list nat) ns ns' :
  CostLaws -> TreeInv ns ->
  rewireLoop fuel obs X ns neighbors = Ok ns' ->
  TreeInv ns' /\ length ns' = length ns.
Proof.
  intros HL. revert ns. induction neighbors as [|N rest IH]; intros ns HT Hloop; cbn in Hloop.
  { by injection Hloop as <-. }
  apply bind_Ok in Hloop as (ns1 & Hone & Hloop).
  destruct (rewireOne_TreeInv _ _ _ _ _ _ HL HT Hone) as [HT1 Hlen1].
  destruct (IH ns1 HT1 Hloop) as [HT' Hlen']. split; [done|congruence].
Qed.

(** *** Costs across a REWIRE *)

(** The order the cost comparisons need: [<] is transitive, so is "not below",
    [<=] is the complement of the converse of [<], and adding the same
    distance to two numbers does not reverse their order.  These hold for the
    integers and for binary64 without NaN. *)
Record OrderLaws : Prop := {
  lt_trans : forall a b c : num, (a <? b) = true -> (b <? c) = true -> (a <? c) = true;
  not_lt_trans : forall a b c : num, (a <? b) = false -> (b <? c) = false -> (a <? c) = false;
  leb_not_lt : forall a b : num, (a <=? b) = negb (b <? a);
  add_mono : forall (a b : num) (p q : Point.t num),
    (a <? b) = false -> (a + dist p q <? b + dist p q) = false
}.

(** What one node sees of a rewiring: its cost is not above what it was, and
    its parent is the same unless the node was re-parented below [X], in which
    case the cost went strictly down. *)
Definition rewired (X : nat) (n n' : Node.t num) : Prop :=
  (Node.cost n <? Node.cost n') = false
  /\ Node.point n' = Node.point n
  /\ (Node.parentId n' = Node.parentId n
      \/ (Node.parentId n' = Some X /\ (Node.cost n' <? Node.cost n) = true)).

Lemma rewired_refl (X : nat) (n : Node.t num) : CostLaws -> rewired X n n.
Proof. intros HL. split; [apply HL|]. split; [done|by left]. Qed.

Lemma lt_asym (a b : num) : CostLaws -> OrderLaws -> (a <? b) = true -> (b <? a) = false.
Proof.
  intros HL HO Hab. destruct (b <? a) eqn:Hba; [|done].
  pose proof (lt_trans HO _ _ _ Hab Hba) as Haa. by rewrite (lt_irrefl HL) in Haa.
Qed.

Lemma lt_not_lt_trans (a b c : num) :
  OrderLaws -> (a <? b) = true -> (c <? b) = false -> (a <? c) = true.
Proof.
  intros HO Hab Hcb. destruct (a <? c) eqn:Hac; [done|].
  pose proof (not_lt_trans HO _ _ _ Hac Hcb). congruence.
Qed.

Lemma not_lt_lt_trans (a b c : num) :
  OrderLaws -> (b <? a) = false -> (b <? c) = true -> (a <? c) = true.
Proof.
  intros HO Hba Hbc. destruct (a <? c) eqn:Hac; [done|].
  pose proof (not_lt_trans HO _ _ _ Hba Hac). congruence.
Qed.

Lemma rewired_trans (X : nat) (n0 n1 n2 : Node.t num) :
  CostLaws -> OrderLaws -> rewired X n0 n1 -> rewired X n1 n2 -> rewired X n0 n2.
Proof.
  intros HL HO (Hc1 & Hp1 & Hpar1) (Hc2 & Hp2 & Hpar2).
  split; [by eapply (not_lt_trans HO)|]. split; [congruence|].
  destruct Hpar2 as [E2|[E2 Hlt2]].
  - destruct Hpar1 as [E1|[E1 Hlt1]]; [left; congruence|].
    right. split; [congruence|]. by eapply not_lt_lt_trans.
  - right. split; [done|]. by eapply lt_not_lt_trans.
Qed.

Lemma rewireOne_rewired (fuel : nat) (obs : list (Obstacle.t num)) (X : nat) ns (N : nat) ns' :
  CostLaws -> OrderLaws -> TreeInv ns ->
  rewireOne fuel obs X ns N = Ok ns' ->
  forall i n n', ns !! i = Some n -> ns' !! i = Some n' -> rewired X n n'.
Proof.
  intros HL HO HT Hone.
  assert (forall i n n', ns !! i = Some n -> ns !! i = Some n' -> rewired X n n') as Hsame.
  { intros i n n' Hn Hn'. replace n' with n by congruence. by apply rewired_refl. }
  unfold rewireOne in Hone.
  apply bind_Ok in Hone as (newNode & HX%get_Ok & Hone).
  case_decide as Hskip; [by injection Hone as <-|].
  apply bind_Ok in Hone as (neighbor & HN%get_Ok & Hone).
  destruct (_ <? _) eqn:Hcheaper; [|by injection Hone as <-].
  destruct (checkCollision _ _ _) as [[|]|]; [by injection Hone as <-| |done].
  destruct (rewire_old_parent ns X N newNode neighbor HL HT HX HN Hcheaper)
    as (op & oldParent & Hpar & Hold & HopX & HopN).
  rewrite Hpar in Hone. unfold get at 1 in Hone. rewrite Hold in Hone. cbn [bind] in Hone.
  assert (Node.id neighbor = N) as Hid by (destruct HT as [HS _]; by apply (shape_ids _ HS)).
  change (updateCost fuel (reparented ns X N newNode neighbor op oldParent) (Node.id neighbor)
          = Ok ns') in Hone.
  rewrite Hid in Hone.
  set (ns4 := reparented ns X N newNode neighbor op oldParent) in *.
  pose proof (reparented_Shape ns X N newNode neighbor HL HT HX HN Hcheaper
                op oldParent Hpar Hold HopX HopN) as HS4.
  fold ns4 in HS4.
  destruct (updateCost_spec _ _ _ _ HS4 Hone) as (E & Hout & Hin).
  destruct (reparented_at_N ns X N newNode neighbor HL HT HX HN Hcheaper
              op oldParent Hpar Hold HopX HopN) as (nN & HnN & HcN & HpN & HptN).
  fold ns4 in HnN.
  pose proof (fun i n Hn Hne =>
                reparented_elsewhere ns X N newNode neighbor HL HT HX HN Hcheaper
                  op oldParent Hpar Hold HopX HopN i n Hn Hne) as Helse.
  fold ns4 in Helse.
  (* the re-parented node itself *)
  assert (ns' !! N = Some nN) as HN'.
  { rewrite Hout; [done|]. intros [j Hj]. by eapply (no_cycle ns4). }
  assert (rewired X neighbor nN) as HrN.
  { split; [|split; [done|right; split; [done|]]]; rewrite HcN; [|done].
    by apply lt_asym. }
  (* every node at or below it, by distance *)
  assert (forall j i n n', climb ns4 j i = Some N ->
            ns !! i = Some n -> ns' !! i = Some n' -> rewired X n n') as Hbelow.
  { induction j as [|j IH]; intros i n n' Hj Hn Hn'.
    { cbn in Hj. injection Hj as ->. congruence. }
    assert (i <> N) as Hne by (intros ->; by eapply (no_cycle ns4)).
    destruct (Helse i n Hn Hne) as (n4 & Hn4 & Hc4 & Hp4 & Hpt4).
    destruct (sameShape_lookup _ _ _ _ E Hn4) as (n'' & Hn'' & Hsk).
    replace n'' with n' in * by congruence.
    assert (Node.parentId n' = Node.parentId n /\ Node.point n' = Node.point n) as [Epar Ept]
      by (unfold skeleton in Hsk; split; congruence).
    cbn in Hj. destruct (parentOf ns4 i) as [p|] eqn:Hp; [|done].
    assert (Node.parentId n = Some p) as Hparn.
    { unfold parentOf in Hp. rewrite Hn4 in Hp. congruence. }
    assert (is_Some (ns !! p)) as [np Hnp].
    { apply lookup_lt_is_Some. destruct HT as [HS _].
      apply (parent_valid ns HS i). apply parentOf_Some. eauto. }
    assert (is_Some (ns' !! p)) as [np' Hnp'].
    { apply lookup_lt_is_Some. rewrite <- (sameShape_length _ _ E).
      unfold ns4, reparented. rewrite !length_alter. by eapply lookup_lt_Some. }
    destruct (IH p np np' Hj Hnp Hnp') as (Hcp & Hptp & _).
    assert (costOk ns' i) as Hok by (apply Hin; by exists j; cbn; rewrite Hp).
    split; [|split; [done|by left]].
    rewrite (Hok n' p np' Hn' (eq_trans Epar Hparn) Hnp').
    destruct HT as [_ [_ Hcost]]. rewrite (Hcost i n p np Hn Hparn Hnp).
    rewrite Hptp, Ept. by apply (add_mono HO). }
  intros i n n' Hn Hn'.
  destruct (under_dec ns4 [N] i HS4) as [(c & j & ->%list_elem_of_singleton & Hj)|Hno].
  { by eapply Hbelow. }
  assert (i <> N) as Hne.
  { intros ->. apply Hno. exists N, 0%nat. split; [apply list_elem_of_singleton|]; done. }
  destruct (Helse i n Hn Hne) as (n4 & Hn4 & Hc4 & Hp4 & Hpt4).
  assert (ns' !! i = ns4 !! i) as Hi'.
  { apply Hout. intros [j Hj]. apply Hno. exists N, (S j).
    split; [apply list_elem_of_singleton|]; done. }
  replace n' with n4 by congruence.
  split; [rewrite Hc4; apply HL|]. split; [done|by left].
Qed.

Lemma rewireLoop_rewired (fuel : nat) (obs : list (Obstacle.t num)) (X : nat)
    (neighbors : list nat) ns ns' :
  CostLaws -> OrderLaws -> TreeInv ns ->
  rewireLoop fuel obs X ns neighbors = Ok ns' ->
  forall i n n', ns !! i = Some n -> ns' !! i = Some n' -> rewired X n n'.
Proof.
  intros HL HO. revert ns.
  induction neighbors as [|N rest IH]; intros ns HT Hloop i n n' Hn Hn'; cbn in Hloop.
  { injection Hloop as <-. replace n' with n by congruence. by apply rewired_refl. }
  apply bind_Ok in Hloop as (ns1 & Hone & Hloop).
  destruct (rewireOne_TreeInv _ _ _ _ _ _ HL HT Hone) as [HT1 Hlen1].
  assert (is_Some (ns1 !! i)) as [n1 Hn1].
  { apply lookup_lt_is_Some. rewrite Hlen1. by eapply lookup_lt_Some. }
  apply (rewired_trans X n n1 n' HL HO).
  - exact (rewireOne_rewired _ _ _ _ _ _ HL HO HT Hone i n n1 Hn Hn1).
  - exact (IH ns1 HT1 Hloop i n1 n' Hn1 Hn').
Qed.

(** Every micro-step that returns keeps the invariant of the store. *)
Lemma stepMicro_TreeInv (fuel : nat) t g (b : bool) t' g' :
  CostLaws -> TreeInv (nodes t) ->
  stepMicro fuel t g = Ok (b, t', g') ->
  TreeInv (nodes t').
Proof.
  intros HL HT. unfold stepMicro.
  case_bool_decide; [by intros [= _ <- _]|].
  destruct (microState t) eqn:Hstate; intros Hstep.
  8:{ (* REWIRE *)
    apply bind_Ok in Hstep as (ns' & Hloop & [= _ <- _]). cbn.
    destruct (algorithm t), (tempNewPoint t); try (by injection Hloop as <-).
    by apply rewireLoop_TreeInv in Hloop as [? _]. }
  7:{ (* ADD_NODE *)
    destruct (tempNewPoint t) as [newPoint|]; [|by injection Hstep as _ <- _].
    apply bind_Ok in Hstep as (parent & Hparent%get_Ok & Hstep).
    pose proof (addNode_TreeInv (nodes t) _ parent newPoint HT Hparent) as HT'.
    by destruct (algorithm_eqb _ _); injection Hstep as _ <- _. }
  all: repeat match type of Hstep with
      | Ok _ = Ok _ => injection Hstep as _ <- _
      | TypeError = Ok _ => discriminate Hstep
      | OutOfFuel = Ok _ => discriminate Hstep
      | bind _ _ = Ok _ => apply bind_Ok in Hstep as (? & ? & Hstep)
      | context [let (_, _) := ?p in _] => destruct p
      | context [match ?x with _ => _ end] => destruct x eqn:?
      end; try done.
Qed.

(** The planners a driver can observe: the constructed one, and every planner
    a [stepMicro] call returns from. *)
Inductive reachable (t0 : RRTTree num) : RRTTree num -> Prop :=
  | reachable_construct : reachable t0 t0
  | reachable_stepMicro (fuel : nat) t g (b : bool) t' g' :
      reachable t0 t -> stepMicro fuel t g = Ok (b, t', g') -> reachable t0 t'.

Lemma reachable_TreeInv (width height : num) (start goal : Point.t num)
    (obstacles : list (Obstacle.t num)) (params : SolverParams num)
    (algorithm : AlgorithmType) t :
  CostLaws ->
  reachable (construct width height start goal obstacles params algorithm) t ->
  TreeInv (nodes t).
Proof.
  intros HL Hreach. induction Hreach as [|fuel t g b t' g' _ IH Hstep].
  - apply construct_TreeInv.
  - by eapply stepMicro_TreeInv.
Qed.

End TreeInvariant.

(** ** The planner on an integer lattice

    Exact arithmetic on the integers extended by +infinity; distances are
    Euclidean distances rounded down.  The laws the invariant proofs ask of the
    numbers hold here. *)

Module Lattice.

Inductive num : Type :=
  | Fin (z : Z)
  | PInf.

Definition add (a b : num) : num :=
  match a, b with
  | Fin u, Fin v => Fin (u + v)
  | _, _ => PInf
  end.

Definition ltb (a b : num) : bool :=
  match a, b with
  | Fin u, Fin v => (u <? v)%Z
  | Fin _, PInf => true
  | PInf, _ => false
  end.

Definition leb (a b : num) : bool :=
  match a, b with
  | Fin u, Fin v => (u <=? v)%Z
  | _, PInf => true
  | PInf, Fin _ => false
  end.

#[export] Instance numbers : Numbers num := {|
  num_add := add;
  num_ltb := ltb;
  num_leb := leb;
  num_zero := Fin 0;
  num_infinity := PInf
|}.

Definition dist (p q : Point.t num) : num :=
  match Point.x p, Point.y p, Point.x q, Point.y q with
  | Fin px, Fin py, Fin qx, Fin qy =>
      Fin (Z.sqrt ((px - qx) * (px - qx) + (py - qy) * (py - qy)))
  | _, _, _, _ => PInf
  end.

(** The lattice has no point at exactly [stepSize] along a direction: a sample
    out of reach leaves the candidate at [from]. *)
Definition steer (from to : Point.t num) (stepSize : num) : Point.t num :=
  if leb (dist from to) stepSize then to else from.

Definition inside (p : Point.t num) (obs : Obstacle.t num) : bool :=
  leb (Obstacle.x obs) (Point.x p) && leb (Point.x p) (add (Obstacle.x obs) (Obstacle.w obs))
  && leb (Obstacle.y obs) (Point.y p) && leb (Point.y p) (add (Obstacle.y obs) (Obstacle.h obs)).

(** A segment is blocked when one of its ends lies in an obstacle. *)
Definition checkCollision (p q : Point.t num) (obstacles : list (Obstacle.t num))
  : option bool :=
  Some (existsb (fun obs => inside p obs || inside q obs) obstacles).

(** Two draws give the coordinates of the sample. *)
Definition samplePoint (width height : num) (g : Rng num) : Point.t num * Rng num :=
  let (r1, g1) := Math_random g in
  let (r2, g2) := Math_random g1 in
  (Point.mk r1 r2, g2).

#[export] Instance geo : Geometry num :=
  Build_Geometry num dist steer checkCollision samplePoint.

Lemma dist_nonneg (p q : Point.t num) : ltb (dist p q) (Fin 0) = false.
Proof.
  unfold dist. destruct (Point.x p), (Point.y p), (Point.x q), (Point.y q); try done.
  cbn. apply Z.ltb_ge, Z.sqrt_nonneg.
Qed.

Lemma costLaws : CostLaws (num := num).
Proof.
  split.
  - intros [u|]; cbn; [apply Z.ltb_irrefl|done].
  - intros a c p q. pose proof (dist_nonneg p q) as Hd. cbn in *.
    destruct (dist p q) as [d|], a as [u|], c as [v|]; cbn in *; try done.
    rewrite !Z.ltb_ge in *. lia.
Qed.

Lemma orderLaws : OrderLaws (num := num).
Proof.
  split.
  - intros [u|] [v|] [w|]; cbn; try done. rewrite !Z.ltb_lt. lia.
  - intros [u|] [v|] [w|]; cbn; try done. rewrite !Z.ltb_ge. lia.
  - intros [u|] [v|]; cbn; try done. rewrite Z.leb_antisym. done.
  - intros a b p q. cbn.
    destruct (dist p q) as [d|], a as [u|], b as [v|]; cbn; try done.
    rewrite !Z.ltb_ge. lia.
Qed.

(** Start (0,0); the draws place the samples (8,6), (3,6), (3,9) and (3,4);
    search radius 5; every sample is within the step. *)
Definition field : RRTTree num :=
  construct (Fin 16) (Fin 16) (Point.mk (Fin 0) (Fin 0)) (Point.mk (Fin 15) (Fin 15)) []
    {| stepSize := Fin 100; maxIterations := 2000; goalBias := Fin 0; searchRadius := Fin 5 |}
    RRTstar.

Definition draws (l : list Z) : Rng num := fun n => Fin (nth n l 0%Z).

Definition field_draws : Rng num :=
  draws [0; 8; 6;  0; 3; 6;  0; 3; 9;  0; 3; 4]%Z.

End Lattice.

(** ** The store invariants, for every observable planner *)

Section StoreInvariants.
Context {num : Type} `{Numbers num} `{Geometry num}.
Local Open Scope num_scope.

Implicit Types (t : RRTTree num) (g : Rng num).

Lemma runMicro_reachable (t0 : RRTTree num) (n fuel : nat) t g (bs : list bool) t' g' :
  reachable t0 t -> runMicro n fuel t g = Ok (bs, t', g') -> reachable t0 t'.
Proof.
  revert t g bs. induction n as [|n IH]; intros t g bs Hreach Hrun; cbn in Hrun.
  { by injection Hrun as _ <- _. }
  apply bind_Ok in Hrun as ([[b t1] g1] & Hstep & Hrun).
  apply bind_Ok in Hrun as ([[bs' t2] g2] & Hrest & [= _ <- <-]).
  eapply IH; [|exact Hrest]. by eapply reachable_stepMicro.
Qed.

Lemma filter_eq_absent (c : nat) (l : list nat) :
  c ∉ l -> filter (fun i => i = c) l = [].
Proof.
  induction l as [|a l IH]; [done|]. intros [Hne Hl]%not_elem_of_cons.
  rewrite filter_cons_False by congruence. auto.
Qed.

Lemma filter_eq_once (c : nat) (l : list nat) :
  NoDup l -> c ∈ l -> length (filter (fun i => i = c) l) = 1%nat.
Proof.
  induction 1 as [|a l Ha Hnd IH]; intros Hc; [by apply elem_of_nil in Hc|].
  rewrite filter_cons. case_decide as E.
  - subst a. by rewrite filter_eq_absent.
  - apply elem_of_cons in Hc as [->|Hc]; [done|auto].
Qed.




End StoreInvariants.

Module LatticeRuns.
Import Lattice.

(** Four RRT* iterations on the lattice; the last one re-parents nodes 2 and
    3 below the new node 4. *)
Lemma field_run :
  exists bs g',
    runMicro 32 50 field field_draws
    = Ok (bs,
          set_nodes
            [Node.mk 0 (Fin 0) (Fin 0) None (Fin 0) [1; 4]%nat;
             Node.mk 1 (Fin 8) (Fin 6) (Some 0%nat) (Fin 10) [];
             Node.mk 2 (Fin 3) (Fin 6) (Some 4%nat) (Fin 7) [];
             Node.mk 3 (Fin 3) (Fin 9) (Some 4%nat) (Fin 10) [];
             Node.mk 4 (Fin 3) (Fin 4) (Some 0%nat) (Fin 5) [2; 3]%nat] field,
          g').
Proof. eexists _, _. vm_compute. reflexivity. Qed.



End LatticeRuns.

Module RewireRuns.
Import F64.
Local Open Scope float_scope.

(** RRT*, no obstacles, start (0,0), search radius 5, every sample within the
    step.  The draws place the samples (8,6), (3,6), (3,9) and (3,4): each
    SAMPLE reads three numbers, the bias draw and the two coordinates as
    fractions of the 16 x 16 field. *)
Definition field : RRTTree float :=
  construct 16 16 (Point.mk 0 0) (Point.mk 15 15) []
    {| stepSize := 100; maxIterations := 2000; goalBias := 0; searchRadius := 5 |}
    RRTstar.

Definition field_draws : Rng float :=
  draws [0.5; 0.5; 0.375;  0.5; 0.1875; 0.375;  0.5; 0.1875; 0.5625;  0.5; 0.1875; 0.25].


End RewireRuns.

Module LatticeRewire.
Import Lattice.


End LatticeRewire.

(** ** CHOOSE_PARENT *)

Section ChooseParent.
Context {num : Type} `{Numbers num} `{Geometry num}.
Local Open Scope num_scope.

Implicit Types (t : RRTTree num) (g : Rng num) (ns : list (Node.t num)).

(** The cost of reaching the candidate through a node. *)
Definition potentialCost (newPoint : Point.t num) (n : Node.t num) : num :=
  Node.cost n + dist (Node.point n) newPoint.

Definition collisionFree (newPoint : Point.t num) (obs : list (Obstacle.t num))
    (n : Node.t num) : bool :=
  match checkCollision (Node.point n) newPoint obs with
  | Some false => true
  | _ => false
  end.

(** The rule in the words of the specification: scanning the neighbours in
    order, the chosen parent is replaced by a neighbour exactly when its
    potential cost is strictly below the best cost so far and its segment to
    the candidate is collision-free. *)
Definition chooseParentSpec ns (newPoint : Point.t num) (obs : list (Obstacle.t num))
    (neighbors : list nat) (best0 : nat) (bestCost0 : num) : nat * num :=
  fold_left
    (fun acc neighborIdx =>
       match ns !! neighborIdx with
       | Some neighbor =>
           if (potentialCost newPoint neighbor <? snd acc) && collisionFree newPoint obs neighbor
           then (neighborIdx, potentialCost newPoint neighbor)
           else acc
       | None => acc
       end)
    neighbors (best0, bestCost0).

Lemma chooseParentLoop_spec ns (newPoint : Point.t num) (obs : list (Obstacle.t num))
    (neighbors : list nat) (best0 : nat) (bestCost0 : num) (r : nat * num) :
  chooseParentLoop ns newPoint obs neighbors best0 bestCost0 = Ok r ->
  r = chooseParentSpec ns newPoint obs neighbors best0 bestCost0.
Proof.
  unfold chooseParentSpec. revert best0 bestCost0.
  induction neighbors as [|idx rest IH]; intros best0 bestCost0 Hloop; cbn in Hloop.
  { by injection Hloop as <-. }
  apply bind_Ok in Hloop as (neighbor & Hn%get_Ok & Hloop).
  cbn [fold_left]. rewrite Hn. unfold potentialCost, collisionFree. cbn [snd].
  destruct (_ <? _); cbn [andb]; [|by apply IH].
  destruct (checkCollision _ _ _) as [[|]|]; [by apply IH|by apply IH|done].
Qed.

(** The loop returns when every neighbour index is in the store and every
    collision test comes back. *)
Lemma chooseParentLoop_returns ns (newPoint : Point.t num) (obs : list (Obstacle.t num))
    (neighbors : list nat) (best0 : nat) (bestCost0 : num) :
  (forall i, i ∈ neighbors -> is_Some (ns !! i)) ->
  (forall n, is_Some (checkCollision (Node.point n) newPoint obs)) ->
  exists r, chooseParentLoop ns newPoint obs neighbors best0 bestCost0 = Ok r.
Proof.
  intros Hvalid Hcheck. revert best0 bestCost0.
  induction neighbors as [|idx rest IH]; intros best0 bestCost0; cbn; [eauto|].
  destruct (Hvalid idx ltac:(left)) as [neighbor Hn]. unfold get. rewrite Hn. cbn.
  assert (forall i, i ∈ rest -> is_Some (ns !! i)) as Hrest by (intros i Hi; apply Hvalid; by right).
  destruct (_ <? _); [|by apply IH].
  destruct (Hcheck neighbor) as [[|] ->]; by apply IH.
Qed.

(** What the scan leaves in [(best, bestCost)], started from [(best0, bestCost0)]. *)
Definition scanMinimal ns (newPoint : Point.t num) (obs : list (Obstacle.t num))
    (neighbors : list nat) (best0 : nat) (bestCost0 : num) (best : nat) (bestCost : num)
  : Prop :=
  (* no candidate is strictly cheaper *)
  (bestCost0 <? bestCost) = false
  /\ (forall i n, i ∈ neighbors -> ns !! i = Some n -> collisionFree newPoint obs n = true ->
        (potentialCost newPoint n <? bestCost) = false)
  (* the result is the start, or the first neighbour in scan order that attains it *)
  /\ ((best, bestCost) = (best0, bestCost0)
      \/ exists k n,
           neighbors !! k = Some best /\ ns !! best = Some n
           /\ collisionFree newPoint obs n = true
           /\ potentialCost newPoint n = bestCost
           /\ (bestCost <? bestCost0) = true
           /\ forall j i m, (j < k)%nat -> neighbors !! j = Some i -> ns !! i = Some m ->
                collisionFree newPoint obs m = true ->
                (bestCost <? potentialCost newPoint m) = true).

Lemma chooseParentLoop_minimal ns (newPoint : Point.t num) (obs : list (Obstacle.t num))
    (neighbors : list nat) (best0 : nat) (bestCost0 : num) (best : nat) (bestCost : num) :
  CostLaws -> OrderLaws ->
  chooseParentLoop ns newPoint obs neighbors best0 bestCost0 = Ok (best, bestCost) ->
  scanMinimal ns newPoint obs neighbors best0 bestCost0 best bestCost.
Proof.
  intros HL HO. revert best0 bestCost0.
  induction neighbors as [|idx rest IH]; intros best0 bestCost0 Hloop; cbn in Hloop.
  { injection Hloop as <- <-. split; [apply HL|]. split; [|by left].
    by intros i n ?%elem_of_nil. }
  apply bind_Ok in Hloop as (neighbor & Hn%get_Ok & Hloop).
  fold (potentialCost newPoint neighbor) in Hloop.
  destruct (potentialCost newPoint neighbor <? bestCost0) eqn:Hlt.
  - destruct (checkCollision _ _ _) as [[|]|] eqn:Hcol; [| |done].
    + (* blocked: the scan goes on with the same best *)
      destruct (IH _ _ Hloop) as (Hle & Hall & Hfirst).
      split; [done|]. split.
      * intros i n [->|Hi]%elem_of_cons Hi' Hfree; [|eauto].
        replace n with neighbor in * by congruence.
        unfold collisionFree in Hfree. by rewrite Hcol in Hfree.
      * destruct Hfirst as [?|(k & n & Hk & Hbest & Hfree & Hpc & Hlt0 & Hbefore)]; [by left|].
        right. exists (S k), n. repeat (split; [done|]).
        intros [|j] i m Hj Hi Hm Hfree'; [|apply (Hbefore j i m); [lia|done..]].
        cbn in Hi. injection Hi as <-. replace m with neighbor in * by congruence.
        unfold collisionFree in Hfree'. by rewrite Hcol in Hfree'.
    + (* strictly cheaper and free: the neighbour becomes the best *)
      destruct (IH _ _ Hloop) as (Hle & Hall & Hfirst).
      assert (collisionFree newPoint obs neighbor = true) as Hfree
        by (unfold collisionFree; by rewrite Hcol).
      assert ((bestCost <? bestCost0) = true) as Hlt0
        by (by eapply not_lt_lt_trans).
      split; [by apply lt_asym|]. split.
      * intros i n [->|Hi]%elem_of_cons Hi' Hfree'; [|eauto].
        by replace n with neighbor in * by congruence.
      * right.
        destruct Hfirst as [[= -> ->]|(k & n & Hk & Hbest & Hfree' & Hpc & Hlt' & Hbefore)].
        -- exists 0%nat, neighbor. repeat (split; [done|]). intros j i m Hj. lia.
        -- exists (S k), n. repeat (split; [done|]).
           intros [|j] i m Hj Hi Hm Hfm; [|apply (Hbefore j i m); [lia|done..]].
           cbn in Hi. injection Hi as <-. by replace m with neighbor in * by congruence.
  - (* not strictly cheaper *)
    destruct (IH _ _ Hloop) as (Hle & Hall & Hfirst).
    split; [done|]. split.
    + intros i n [->|Hi]%elem_of_cons Hi' Hfree; [|eauto].
      replace n with neighbor in * by congruence.
      by eapply (not_lt_trans HO).
    + destruct Hfirst as [?|(k & n & Hk & Hbest & Hfree & Hpc & Hlt0 & Hbefore)]; [by left|].
      right. exists (S k), n. repeat (split; [done|]).
      intros [|j] i m Hj Hi Hm Hfree'; [|apply (Hbefore j i m); [lia|done..]].
      cbn in Hi. injection Hi as <-. replace m with neighbor in * by congruence.
      by eapply lt_not_lt_trans.
Qed.


End ChooseParent.

Module LatticeChoose.
Import Lattice.


End LatticeChoose.

(** ** Enough fuel: the cascade and the rewiring return *)

Section Returns.
Context {num : Type} `{Numbers num} `{Geometry num}.
Local Open Scope num_scope.

Implicit Types (ns : list (Node.t num)) (t : RRTTree num) (g : Rng num).

Lemma forChildren_returns
    (rec : list (Node.t num) -> nat -> result (list (Node.t num))) (a d L : nat) :
  (forall ns c, Shape ns -> length ns = L -> climb ns (S d) c = Some 0%nat ->
     exists ns', rec ns c = Ok ns' /\ sameShape ns ns') ->
  forall cs ns,
    Shape ns -> length ns = L -> climb ns d a = Some 0%nat -> is_Some (ns !! a) ->
    (forall c, c ∈ cs -> parentOf ns c = Some a) ->
    exists ns', forChildren rec a cs ns = Ok ns'.
Proof.
  intros Hrec cs. induction cs as [|c rest IH]; intros ns HS HL Hd [node Hnode] Hcs; cbn.
  { eauto. }
  assert (parentOf ns c = Some a) as Hca by (apply Hcs; left).
  destruct (proj1 (parentOf_Some _ _ _) Hca) as (child & Hchild & _).
  unfold get. rewrite Hnode, Hchild. cbn.
  set (ns1 := alter _ c ns).
  assert (sameShape ns ns1) as E1 by apply sameShape_alter_cost.
  assert (Shape ns1) as HS1 by eauto using sameShape_Shape.
  destruct (Hrec ns1 c HS1) as (ns2 & -> & E2).
  { by rewrite <- (sameShape_length _ _ E1). }
  { rewrite (sameShape_climb _ _ _ _ E1). cbn. by rewrite Hca. }
  cbn. assert (sameShape ns ns2) as E02 by eauto using sameShape_trans.
  apply IH.
  - eauto using sameShape_Shape.
  - by rewrite <- (sameShape_length _ _ E02).
  - by rewrite (sameShape_climb _ _ _ _ E02).
  - apply lookup_lt_is_Some. rewrite <- (sameShape_length _ _ E02).
    by eapply lookup_lt_Some.
  - intros c' Hc'. rewrite (sameShape_parentOf _ _ _ E02). apply Hcs. by right.
Qed.

(** A cascade from a node at depth [d] returns when the fuel covers the
    levels that can lie below it. *)
Lemma updateCost_returns (fuel : nat) ns (a d : nat) :
  Shape ns -> is_Some (ns !! a) -> climb ns d a = Some 0%nat ->
  (length ns <= fuel + d)%nat ->
  exists ns', updateCost fuel ns a = Ok ns' /\ sameShape ns ns'.
Proof.
  revert ns a d. induction fuel as [|fuel IH]; intros ns a d HS [node Hnode] Hd Hfuel.
  { pose proof (depth_lt_length ns HS d a ltac:(by eapply lookup_lt_Some) Hd). lia. }
  cbn [updateCost]. unfold get. rewrite Hnode. cbn [bind].
  destruct (forChildren_returns (updateCost fuel) a d (length ns)) with
    (cs := Node.children node) (ns := ns) as [ns' Hns']; try done.
  - intros ns1 c HS1 HL1 Hc. apply (IH ns1 c (S d)); [done| |done|lia].
    apply lookup_lt_is_Some. cbn in Hc.
    destruct (parentOf ns1 c) eqn:E; [|done]. by eapply parentOf_lt.
  - intros c Hc. by apply (shape_children _ HS a node c Hnode).
  - exists ns'. split; [done|].
    assert (updateCost (S fuel) ns a = Ok ns') as Hup
      by (cbn [updateCost]; unfold get; by rewrite Hnode).
    by destruct (updateCost_spec _ _ _ _ HS Hup).
Qed.

Lemma rewireOne_returns (fuel : nat) (obs : list (Obstacle.t num)) (X : nat) ns (N : nat) :
  CostLaws -> TreeInv ns ->
  is_Some (ns !! X) -> is_Some (ns !! N) ->
  (forall p q, is_Some (checkCollision p q obs)) ->
  (length ns <= fuel)%nat ->
  exists ns', rewireOne fuel obs X ns N = Ok ns'.
Proof.
  intros HL HT [newNode HX] [neighbor HN] Hcheck Hfuel.
  unfold rewireOne, get. rewrite HX. cbn [bind].
  case_decide; [eauto|]. rewrite HN. cbn [bind].
  destruct (_ <? _) eqn:Hcheaper; [|eauto].
  destruct (Hcheck (Node.point newNode) (Node.point neighbor)) as [[|] ->]; [eauto|].
  destruct (rewire_old_parent ns X N newNode neighbor HL HT HX HN Hcheaper)
    as (op & oldParent & Hpar & Hold & HopX & HopN).
  rewrite Hpar, Hold. cbn [bind].
  assert (Node.id neighbor = N) as Hid by (destruct HT as [HS _]; by apply (shape_ids _ HS)).
  change (exists ns', updateCost fuel (reparented ns X N newNode neighbor op oldParent)
                        (Node.id neighbor) = Ok ns').
  rewrite Hid.
  pose proof (reparented_Shape ns X N newNode neighbor HL HT HX HN Hcheaper
                op oldParent Hpar Hold HopX HopN) as HS4.
  assert (length (reparented ns X N newNode neighbor op oldParent) = length ns) as Hlen
    by (unfold reparented; by rewrite !length_alter).
  assert (N < length (reparented ns X N newNode neighbor op oldParent))%nat as HNlt
    by (rewrite Hlen; by eapply lookup_lt_Some).
  destruct (shape_reach _ HS4 N HNlt) as [d Hd].
  destruct (updateCost_returns fuel _ N d HS4) as (ns' & Hns' & _);
    [by apply lookup_lt_is_Some|done|lia|eauto].
Qed.

Lemma rewireLoop_returns (fuel : nat) (obs : list (Obstacle.t num)) (X : nat)
    (neighbors : list nat) ns :
  CostLaws -> TreeInv ns ->
  is_Some (ns !! X) -> (forall i, i ∈ neighbors -> is_Some (ns !! i)) ->
  (forall p q, is_Some (checkCollision p q obs)) ->
  (length ns <= fuel)%nat ->
  exists ns', rewireLoop fuel obs X ns neighbors = Ok ns' /\ length ns' = length ns.
Proof.
  intros HL. revert ns.
  induction neighbors as [|N rest IH]; intros ns HT HX Hvalid Hcheck Hfuel; cbn.
  { eauto. }
  destruct (rewireOne_returns fuel obs X ns N HL HT HX) as [ns1 Hone];
    [apply Hvalid; left|done|done|].
  rewrite Hone. cbn [bind].
  destruct (rewireOne_TreeInv _ _ _ _ _ _ HL HT Hone) as [HT1 Hlen1].
  destruct (IH ns1 HT1) as (ns' & Hloop & Hlen').
  - apply lookup_lt_is_Some. rewrite Hlen1. by apply lookup_lt_is_Some.
  - intros i Hi. apply lookup_lt_is_Some. rewrite Hlen1.
    apply lookup_lt_is_Some, Hvalid. by right.
  - done.
  - lia.
  - exists ns'. split; [done|lia].
Qed.

End Returns.

(** ** One RRT* iteration without obstacles *)

Section Iteration.
Context {num : Type} `{Numbers num} `{Geometry num}.
Local Open Scope num_scope.

Implicit Types (ns : list (Node.t num)) (t : RRTTree num) (g : Rng num).

(** The sample SAMPLE stores, and what is left of [Math.random]. *)
Definition drawSample t g : Point.t num * Rng num :=
  let (r, g1) := Math_random g in
  if r <? goalBias (params t) then (goal t, g1)
  else samplePoint (width t) (height t) g1.

Lemma nearestLoop_valid (sample : Point.t num) ns (i0 : nat) (minDist : num)
    (acc : option nat) (k : nat) :
  nearestLoop sample ns i0 minDist acc = Some k ->
  acc = Some k \/ (i0 <= k < i0 + length ns)%nat.
Proof.
  revert i0 minDist acc. induction ns as [|n rest IH]; intros i0 minDist acc Hk; cbn in Hk.
  { by left. }
  destruct (_ <? _); apply IH in Hk as [Hk|Hk]; cbn; try (right; lia); [|by left].
  injection Hk as <-. right. lia.
Qed.

Lemma neighborsLoop_valid (newPoint : Point.t num) (radius : num) ns (i0 k : nat) :
  k ∈ neighborsLoop newPoint radius ns i0 -> (i0 <= k < i0 + length ns)%nat.
Proof.
  revert i0. induction ns as [|n rest IH]; intros i0 Hk; cbn in Hk.
  { by apply elem_of_nil in Hk. }
  destruct (_ <=? _); [apply elem_of_cons in Hk as [->|Hk]|]; cbn; try lia;
    apply IH in Hk; lia.
Qed.

Lemma chooseParentLoop_in ns (newPoint : Point.t num) (obs : list (Obstacle.t num))
    (neighbors : list nat) (best0 : nat) (bestCost0 : num) (best : nat) (bestCost : num) :
  chooseParentLoop ns newPoint obs neighbors best0 bestCost0 = Ok (best, bestCost) ->
  best = best0 \/ best ∈ neighbors.
Proof.
  revert best0 bestCost0.
  induction neighbors as [|idx rest IH]; intros best0 bestCost0 Hloop; cbn in Hloop.
  { injection Hloop as <- _. by left. }
  apply bind_Ok in Hloop as (neighbor & _ & Hloop).
  destruct (_ <? _); [destruct (checkCollision _ _ _) as [[|]|]|]; try done;
    apply IH in Hloop as [->|Hin]; rewrite ?elem_of_cons; auto.
Qed.

Lemma stepMicro_SAMPLE (fuel : nat) t g :
  (length (nodes t) < maxIterations (params t))%nat ->
  microState t = SAMPLE ->
  stepMicro fuel t g
  = Ok (true, set_microState NEAREST (set_tempSample (Some (fst (drawSample t g))) t),
        snd (drawSample t g)).
Proof.
  intros Hlt Hstate. unfold stepMicro, drawSample.
  rewrite bool_decide_eq_false_2 by lia. rewrite Hstate.
  destruct (Math_random g) as [r g1]. destruct (_ <? _); [done|].
  by destruct (samplePoint _ _ _).
Qed.


End Iteration.

Module IterationRuns.
Import F64 Lattice.



End IterationRuns.

(** ** The path extractor *)

Section PathExtractor.
Context {num : Type} `{Numbers num} `{PathNumbers num} `{Geometry num}.
Local Open Scope num_scope.

Implicit Types (ns : list (Node.t num)) (t : RRTTree num).

(** The tolerance band around the goal. *)
Definition inBand t (n : Node.t num) : bool :=
  dist (Node.point n) (goal t) <=? stepSize (params t) * num_1_5.

(** On the costs that occur in the store, [<] is a strict weak order and the
    sign of the comparator [a - b] agrees with it.  This holds whenever no
    cost is NaN. *)
Definition costsComparable ns : Prop :=
  forall a b c : num,
    a ∈ Node.cost <$> ns -> b ∈ Node.cost <$> ns -> c ∈ Node.cost <$> ns ->
    (a - b <? num_zero) = (a <? b)
    /\ (a <? a) = false
    /\ ((a <? b) = true -> (b <? c) = true -> (a <? c) = true)
    /\ ((a <? b) = false -> (b <? c) = false -> (a <? c) = false).

Lemma candidatesLoop_spec (goal : Point.t num) (band : num) ns (i0 k : nat) :
  k ∈ candidatesLoop goal band ns i0
  <-> exists n, (i0 <= k)%nat /\ ns !! (k - i0)%nat = Some n
               /\ (dist (Node.point n) goal <=? band) = true.
Proof.
  revert i0. induction ns as [|n rest IH]; intros i0; cbn.
  { split; [by intros ?%elem_of_nil|by intros (? & _ & ? & _)]. }
  assert (k ∈ candidatesLoop goal band rest (S i0)
          <-> exists m, (i0 < k)%nat /\ rest !! (k - S i0)%nat = Some m
                       /\ (dist (Node.point m) goal <=? band) = true) as IH'.
  { rewrite IH. split; intros (m & ? & ? & ?); exists m; (split; [lia|done]). }
  destruct (dist (Node.point n) goal <=? band) eqn:Hin; rewrite ?elem_of_cons, IH'.
  - split.
    + intros [->|(m & Hk & Hm & Hb)].
      * exists n. rewrite Nat.sub_diag. done.
      * exists m. split; [lia|]. replace (k - i0)%nat with (S (k - S i0)) by lia. done.
    + intros (m & Hk & Hm & Hb). destruct (decide (k = i0)) as [->|Hne]; [by left|right].
      exists m. split; [lia|]. replace (k - i0)%nat with (S (k - S i0)) in Hm by lia. done.
  - split.
    + intros (m & Hk & Hm & Hb). exists m. split; [lia|].
      replace (k - i0)%nat with (S (k - S i0)) by lia. done.
    + intros (m & Hk & Hm & Hb). destruct (decide (k = i0)) as [->|Hne].
      * rewrite Nat.sub_diag in Hm. cbn in Hm. congruence.
      * exists m. split; [lia|]. replace (k - i0)%nat with (S (k - S i0)) in Hm by lia. done.
Qed.

(** The scan lists the candidates by increasing index. *)
Lemma candidatesLoop_increasing (goal : Point.t num) (band : num) ns (i0 : nat)
    (l1 l2 : list nat) (h x : nat) :
  candidatesLoop goal band ns i0 = l1 ++ h :: l2 -> x ∈ l1 -> (x < h)%nat.
Proof.
  revert i0 l1. induction ns as [|n rest IH]; intros i0 l1 E Hx; cbn in E.
  { by destruct l1. }
  destruct (_ <=? _).
  - destruct l1 as [|y l1]; [by apply elem_of_nil in Hx|].
    injection E as <- E. apply elem_of_cons in Hx as [->|Hx]; [|eauto].
    assert (h ∈ candidatesLoop goal band rest (S i0)) as Hh
      by (rewrite E, elem_of_app, elem_of_cons; auto).
    apply candidatesLoop_spec in Hh as (? & ? & _). lia.
  - eauto.
Qed.

Lemma sort_head {A : Type} (cmp : A -> A -> num) (l : list A) :
  (forall a b, a ∈ l -> b ∈ l ->
     (cmp a b <? num_zero) = true -> (cmp b a <? num_zero) = false) ->
  (forall a b c, a ∈ l -> b ∈ l -> c ∈ l ->
     (cmp a b <? num_zero) = false -> (cmp b c <? num_zero) = false ->
     (cmp a c <? num_zero) = false) ->
  match sort cmp l with
  | [] => l = []
  | h :: _ =>
      exists l1 l2, l = l1 ++ h :: l2
        /\ (forall x, x ∈ l1 -> (cmp h x <? num_zero) = true)
        /\ (forall x, x ∈ l -> (cmp x h <? num_zero) = false)
  end.
Proof.
  induction l as [|x rest IH]; intros Hasym Hneg; [done|].
  assert ((cmp x x <? num_zero) = false) as Hirr.
  { destruct (cmp x x <? num_zero) eqn:E; [|done].
    rewrite <- E. apply Hasym; [left..|done]. }
  assert (match sort cmp rest with
          | [] => rest = []
          | h :: _ =>
              exists l1 l2, rest = l1 ++ h :: l2
                /\ (forall y, y ∈ l1 -> (cmp h y <? num_zero) = true)
                /\ (forall y, y ∈ rest -> (cmp y h <? num_zero) = false)
          end) as IH'.
  { apply IH.
    - intros a b Ha Hb. apply Hasym; by right.
    - intros a b c Ha Hb Hc. apply Hneg; by right. }
  clear IH. cbn [sort foldr]. fold (sort cmp rest).
  destruct (sort cmp rest) as [|m tl] eqn:Hsort.
  - subst rest. cbn. exists [], []. split; [done|]. split; [by intros ? ?%elem_of_nil|].
    by intros y ->%list_elem_of_singleton.
  - destruct IH' as (r1 & r2 & -> & Hbefore & Hmin).
    assert (m ∈ x :: r1 ++ m :: r2) as Hm
      by (rewrite elem_of_cons, elem_of_app, elem_of_cons; auto).
    cbn [sortInsert]. destruct (cmp m x <? num_zero) eqn:Hmx.
    + exists (x :: r1), r2. split; [done|]. split.
      * intros y [->|Hy]%elem_of_cons; auto.
      * intros y [->|Hy]%elem_of_cons; [|auto]. apply Hasym; [done|left|done].
    + exists [], (r1 ++ m :: r2). split; [done|]. split; [by intros ? ?%elem_of_nil|].
      intros y [->|Hy]%elem_of_cons; [done|].
      apply (Hneg y m x); [by right|done|left|auto|done].
Qed.

(** The backtrace from a node at depth [d] returns the chain of its
    ancestors up to the root. *)
Lemma backtrace_chain ns (d : nat) :
  is_Some (ns !! 0%nat) -> parentOf ns 0 = None ->
  forall (fuel c : nat) (acc : list nat),
    climb ns d c = Some 0%nat -> is_Some (ns !! c) -> (d < fuel)%nat ->
    exists chain,
      backtrace fuel ns (Some c) acc = Ok (acc ++ chain)
      /\ head chain = Some c /\ last chain = Some 0%nat
      /\ forall k a b, chain !! k = Some a -> chain !! S k = Some b -> parentOf ns a = Some b.
Proof.
  intros Hroot0 Hroot. induction d as [|d IH]; intros fuel c acc Hd [n Hn] Hfuel.
  - cbn in Hd. injection Hd as ->. destruct fuel as [|fuel]; [lia|].
    cbn. unfold get. rewrite Hn. cbn.
    unfold parentOf in Hroot. rewrite Hn in Hroot. rewrite Hroot.
    destruct fuel; exists [0%nat]; (split; [done|]); (split; [done|]);
      (split; [done|]); by intros [|k] a b.
  - cbn in Hd. destruct (parentOf ns c) as [p|] eqn:Hp; [|done].
    destruct fuel as [|fuel]; [lia|].
    cbn. unfold get. rewrite Hn. cbn.
    assert (Node.parentId n = Some p) as -> by (unfold parentOf in Hp; by rewrite Hn in Hp).
    assert (is_Some (ns !! p)) as Hpn.
    { destruct d as [|d].
      - cbn in Hd. by injection Hd as ->.
      - cbn in Hd. destruct (parentOf ns p) eqn:E; [|done].
        apply lookup_lt_is_Some. by eapply parentOf_lt. }
    destruct (IH fuel p (acc ++ [c]) Hd Hpn ltac:(lia)) as (chain & Hback & Hhd & Hlast & Hlinks).
    exists (c :: chain). rewrite Hback, <- app_assoc. split; [done|]. split; [done|].
    split.
    + destruct chain; [done|]. by rewrite last_cons_cons.
    + intros [|k] a b Ha Hb; cbn in Ha, Hb.
      * injection Ha as <-. destruct chain as [|q chain]; [done|].
        cbn in Hb, Hhd. congruence.
      * eauto.
Qed.

Lemma costAt_elem ns (a : nat) (n : Node.t num) :
  ns !! a = Some n -> costAt ns a = Node.cost n /\ Node.cost n ∈ Node.cost <$> ns.
Proof.
  intros Hn. unfold costAt. rewrite Hn. split; [done|].
  apply list_elem_of_fmap. exists n. split; [done|]. by eapply list_elem_of_lookup_2.
Qed.

(** C8.  On a store that satisfies the tree invariant, with comparable costs
    and fuel for the backtrace, [getPath] returns, and it returns the empty
    sequence exactly when no node lies within [1.5 * stepSize] of the goal.
    Otherwise the sequence starts at the root (id 0), ends at a node of the
    band whose cost no node of the band undercuts (the one of least index
    among those), and every element is the [parentId] of its successor.  The
    call computes a sequence from the planner and assigns nothing. *)
Theorem getPath_returns_cheapest_path (fuel : nat) t :
  Shape (nodes t) -> costsComparable (nodes t) ->
  (length (nodes t) <= fuel)%nat ->
  exists path,
    getPath fuel t = Ok path
    /\ (path = [] <-> forall i n, nodes t !! i = Some n -> inBand t n = false)
    /\ (path <> [] ->
        exists closestNode n,
          head path = Some 0%nat /\ last path = Some closestNode
          /\ nodes t !! closestNode = Some n /\ inBand t n = true
          /\ (forall i m, nodes t !! i = Some m -> inBand t m = true ->
                (Node.cost m <? Node.cost n) = false)
          /\ (forall i m, (i < closestNode)%nat -> nodes t !! i = Some m ->
                inBand t m = true -> (Node.cost n <? Node.cost m) = true)
          /\ (forall k a b, path !! k = Some a -> path !! S k = Some b ->
                parentOf (nodes t) b = Some a)).
Proof.
  intros HS Hcmp Hfuel. unfold getPath.
  set (band := stepSize (params t) * num_1_5).
  set (cands := candidatesLoop (goal t) band (nodes t) 0).
  set (cmp := fun a b => costAt (nodes t) a - costAt (nodes t) b).
  assert (forall k, k ∈ cands <-> exists n, nodes t !! k = Some n /\ inBand t n = true) as Hcands.
  { intros k. unfold cands. rewrite candidatesLoop_spec. rewrite Nat.sub_0_r.
    split; [intros (n & _ & ? & ?)|intros (n & ? & ?)]; exists n; auto with lia. }
  assert (forall a b, a ∈ cands -> b ∈ cands ->
            (cmp a b <? num_zero) = (costAt (nodes t) a <? costAt (nodes t) b)) as Hsign.
  { intros a b (na & Ha & _)%Hcands (nb & Hb & _)%Hcands.
    destruct (costAt_elem _ _ _ Ha) as [Ea Hina], (costAt_elem _ _ _ Hb) as [Eb Hinb].
    unfold cmp. rewrite Ea, Eb. exact (proj1 (Hcmp _ _ _ Hina Hinb Hina)). }
  pose proof (sort_head cmp cands) as Hhead.
  destruct (sort cmp cands) as [|h tl].
  { (* no candidate *)
    exists []. split; [done|]. split; [|done]. split; [|done]. intros _ i n Hn.
    destruct (inBand t n) eqn:Hin; [|done].
    assert (i ∈ cands) as Hi by (apply Hcands; eauto).
    rewrite Hhead in Hi; [by apply elem_of_nil in Hi|..].
    - intros a b Ha Hb. rewrite !Hsign by done.
      destruct (Hcands a) as [(na & Hna & _) _]; [done|].
      destruct (Hcands b) as [(nb & Hnb & _) _]; [done|].
      destruct (costAt_elem _ _ _ Hna) as [-> Hina], (costAt_elem _ _ _ Hnb) as [-> Hinb].
      destruct (Hcmp _ _ _ Hina Hinb Hina) as (_ & Hirr & Htr & _).
      intros Hab. apply not_true_is_false. intros Hba.
      rewrite (Htr Hab Hba) in Hirr. done.
    - intros a b c Ha Hb Hc. rewrite !Hsign by done.
      destruct (Hcands a) as [(na & Hna & _) _]; [done|].
      destruct (Hcands b) as [(nb & Hnb & _) _]; [done|].
      destruct (Hcands c) as [(nc & Hnc & _) _]; [done|].
      destruct (costAt_elem _ _ _ Hna) as [-> Hina], (costAt_elem _ _ _ Hnb) as [-> Hinb],
        (costAt_elem _ _ _ Hnc) as [-> Hinc].
      by destruct (Hcmp _ _ _ Hina Hinb Hinc) as (_ & _ & _ & Hneg). }
  destruct Hhead as (l1 & l2 & Hsplit & Hbefore & Hmin).
  { intros a b Ha Hb. rewrite !Hsign by done.
    destruct (Hcands a) as [(na & Hna & _) _]; [done|].
    destruct (Hcands b) as [(nb & Hnb & _) _]; [done|].
    destruct (costAt_elem _ _ _ Hna) as [-> Hina], (costAt_elem _ _ _ Hnb) as [-> Hinb].
    destruct (Hcmp _ _ _ Hina Hinb Hina) as (_ & Hirr & Htr & _).
    intros Hab. apply not_true_is_false. intros Hba.
    rewrite (Htr Hab Hba) in Hirr. done. }
  { intros a b c Ha Hb Hc. rewrite !Hsign by done.
    destruct (Hcands a) as [(na & Hna & _) _]; [done|].
    destruct (Hcands b) as [(nb & Hnb & _) _]; [done|].
    destruct (Hcands c) as [(nc & Hnc & _) _]; [done|].
    destruct (costAt_elem _ _ _ Hna) as [-> Hina], (costAt_elem _ _ _ Hnb) as [-> Hinb],
      (costAt_elem _ _ _ Hnc) as [-> Hinc].
    by destruct (Hcmp _ _ _ Hina Hinb Hinc) as (_ & _ & _ & Hneg). }
  assert (h ∈ cands) as Hh by (rewrite Hsplit, elem_of_app, elem_of_cons; auto).
  destruct (proj1 (Hcands h) Hh) as (n & Hn & Hin).
  assert (h < length (nodes t))%nat as Hhlt by by eapply lookup_lt_Some.
  destruct (shape_reach _ HS h Hhlt) as [d Hd].
  pose proof (depth_lt_length _ HS d h Hhlt Hd) as Hdlt.
  destruct (backtrace_chain (nodes t) d (proj1 (shape_root _ HS)) (proj2 (shape_root _ HS))
              fuel h [] Hd ltac:(by eexists) ltac:(lia))
    as (chain & Hback & Hhd & Hlast & Hlinks).
  rewrite Hback. cbn [bind app]. exists (reverse chain).
  assert (chain <> []) as Hne by (by destruct chain).
  assert (reverse chain <> []) as Hne'.
  { intros E. apply Hne. by rewrite <- (reverse_involutive chain), E. }
  split; [done|]. split.
  { split; [done|]. intros Hnone. by rewrite (Hnone h n Hn) in Hin. }
  intros _. exists h, n.
  split; [by rewrite head_reverse|]. split; [by rewrite last_reverse|].
  split; [done|]. split; [done|]. split; [|split].
  - intros i m Hm Him.
    assert (i ∈ cands) as Hi by (apply Hcands; eauto).
    pose proof (Hmin i Hi) as Hle. rewrite Hsign in Hle by done.
    destruct (costAt_elem _ _ _ Hm) as [Em _], (costAt_elem _ _ _ Hn) as [En _].
    by rewrite Em, En in Hle.
  - intros i m Hlt Hm Him.
    assert (i ∈ cands) as Hi by (apply Hcands; eauto).
    assert (i ∈ l1) as Hi1.
    { rewrite Hsplit, elem_of_app, elem_of_cons in Hi.
      destruct Hi as [?|[->|Hi2]]; [done|lia|].
      apply list_elem_of_split in Hi2 as (l2a & l2b & ->).
      assert (h < i)%nat; [|lia].
      apply (candidatesLoop_increasing (goal t) band (nodes t) 0 (l1 ++ h :: l2a) l2b i h).
      - fold cands. rewrite Hsplit, <- app_assoc. done.
      - rewrite elem_of_app, elem_of_cons. auto. }
    pose proof (Hbefore i Hi1) as Hlt'. rewrite Hsign in Hlt' by done.
    destruct (costAt_elem _ _ _ Hm) as [Em _], (costAt_elem _ _ _ Hn) as [En _].
    by rewrite Em, En in Hlt'.
  - intros k a b Ha Hb.
    apply reverse_lookup_Some in Ha as [Ha Hka], Hb as [Hb Hkb].
    apply (Hlinks (length chain - S (S k))%nat b a); [done|].
    by replace (S (length chain - S (S k))) with (length chain - S k)%nat by lia.
Qed.

End PathExtractor.

Module PathRuns.
Import F64.
Local Open Scope float_scope.

(** The planner of the rewiring run, with the goal at (3,156): after four
    iterations the band of width [1.5 * 100] around the goal holds the nodes
    2 and 3, of costs 7 and 10. *)
Definition field : RRTTree float :=
  construct 16 16 (Point.mk 0 0) (Point.mk 3 156) []
    {| stepSize := 100; maxIterations := 2000; goalBias := 0; searchRadius := 5 |}
    RRTstar.

Definition planned : RRTTree float :=
  match runMicro 32 50 field RewireRuns.field_draws with
  | Ok (_, t, _) => t
  | _ => field
  end.

Lemma planned_nodes :
  nodes planned =
    [Node.mk 0 0 0 None 0 [1; 4]%nat;
     Node.mk 1 8 6 (Some 0%nat) 10 [];
     Node.mk 2 3 6 (Some 4%nat) 7 [3%nat];
     Node.mk 3 3 9 (Some 2%nat) 10 [];
     Node.mk 4 3 4 (Some 0%nat) 5 [2%nat]].
Proof. vm_compute. reflexivity. Qed.

Lemma planned_Shape : Shape (nodes planned).
Proof.
  rewrite planned_nodes. split.
  - by do 5 (intros [|i]; [by intros ? [= <-]|]; revert i).
  - split; [by eexists|done].
  - do 5 (intros [|i]; [intros ? [= <-]; apply (bool_decide_unpack _); by vm_compute|];
          revert i).
    done.
  - intros p np c Hp.
    destruct p as [|[|[|[|[|p]]]]]; [injection Hp as <-; cbn [Node.children]..|done].
    all: rewrite ?elem_of_cons, elem_of_nil.
    all: destruct c as [|[|[|[|[|c]]]]]; cbn; naive_solver lia.
  - intros i Hi. cbn in Hi.
    destruct i as [|[|[|[|[|i]]]]]; [by exists 0%nat|by exists 1%nat|by exists 2%nat|
                                      by exists 3%nat|by exists 1%nat|lia].
Qed.

Lemma planned_costsComparable : costsComparable (nodes planned).
Proof.
  rewrite planned_nodes. intros a b c Ha Hb Hc. cbn in Ha, Hb, Hc.
  rewrite !elem_of_cons, elem_of_nil in Ha, Hb, Hc.
  destruct Ha as [->|[->|[->|[->|[->|[]]]]]], Hb as [->|[->|[->|[->|[->|[]]]]]],
    Hc as [->|[->|[->|[->|[->|[]]]]]]; by vm_compute.
Qed.

(** On the planned tree the extractor returns the chain 0 - 4 - 2: node 2 is
    the cheaper of the two nodes of the band. *)
Lemma getPath_returns_cheapest_path_witness :
  Shape (nodes planned)
  /\ costsComparable (nodes planned)
  /\ (length (nodes planned) <= 50)%nat
  /\ getPath 50 planned = Ok [0; 4; 2]%nat
  /\ exists path,
       getPath 50 planned = Ok path
       /\ (path = [] <-> forall i n, nodes planned !! i = Some n -> inBand planned n = false)
       /\ (path <> [] ->
           exists closestNode n,
             head path = Some 0%nat /\ last path = Some closestNode
             /\ nodes planned !! closestNode = Some n /\ inBand planned n = true
             /\ (forall i m, nodes planned !! i = Some m -> inBand planned m = true ->
                   (Node.cost m <? Node.cost n)%num = false)
             /\ (forall i m, (i < closestNode)%nat -> nodes planned !! i = Some m ->
                   inBand planned m = true -> (Node.cost n <? Node.cost m)%num = true)
             /\ (forall k a b, path !! k = Some a -> path !! S k = Some b ->
                   parentOf (nodes planned) b = Some a)).
Proof.
  assert (forall A B : Prop, A -> (A -> B) -> A /\ B) as both by tauto.
  apply both; [exact planned_Shape|]. intros HS.
  apply both; [exact planned_costsComparable|]. intros Hcmp.
  apply both; [rewrite planned_nodes; cbn; lia|]. intros Hfuel.
  split; [vm_compute; reflexivity|].
  exact (getPath_returns_cheapest_path 50 planned HS Hcmp Hfuel).
Defined.

End PathRuns.

(** ** What a micro-step leaves alone *)

Section Frame.
Context {num : Type} `{Numbers num} `{Geometry num}.
Local Open Scope num_scope.

Implicit Types (ns : list (Node.t num)) (t : RRTTree num) (g : Rng num).

(** Where a node is: its id and its coordinates. *)
Definition placement (n : Node.t num) : nat * Point.t num := (Node.id n, Node.point n).

Lemma alter_placement (f : Node.t num -> Node.t num) (i : nat) ns :
  (forall n, placement (f n) = placement n) ->
  placement <$> alter f i ns = placement <$> ns.
Proof.
  intros Hf. revert i. induction ns as [|n rest IH]; intros [|i]; cbn; [done..| |].
  - by rewrite Hf.
  - f_equal. apply IH.
Qed.

Lemma forChildren_placement
    (rec : list (Node.t num) -> nat -> result (list (Node.t num))) (a : nat) :
  (forall ns c ns', rec ns c = Ok ns' -> placement <$> ns' = placement <$> ns) ->
  forall cs ns ns',
    forChildren rec a cs ns = Ok ns' -> placement <$> ns' = placement <$> ns.
Proof.
  intros Hrec cs. induction cs as [|c rest IH]; intros ns ns' Hloop; cbn in Hloop.
  { by injection Hloop as <-. }
  apply bind_Ok in Hloop as (node & _ & Hloop).
  apply bind_Ok in Hloop as (child & _ & Hloop).
  apply bind_Ok in Hloop as (ns2 & Hrec2 & Hloop).
  rewrite (IH _ _ Hloop), (Hrec _ _ _ Hrec2). by apply alter_placement.
Qed.

Lemma updateCost_placement (fuel : nat) ns (a : nat) ns' :
  updateCost fuel ns a = Ok ns' -> placement <$> ns' = placement <$> ns.
Proof.
  revert ns a ns'. induction fuel as [|fuel IH]; intros ns a ns' Hup; [done|].
  cbn [updateCost] in Hup. apply bind_Ok in Hup as (node & _ & Hup).
  by eapply forChildren_placement.
Qed.

Lemma rewireOne_placement (fuel : nat) (obs : list (Obstacle.t num)) (X : nat) ns (N : nat) ns' :
  rewireOne fuel obs X ns N = Ok ns' -> placement <$> ns' = placement <$> ns.
Proof.
  unfold rewireOne. intros Hone.
  apply bind_Ok in Hone as (newNode & _ & Hone).
  case_decide; [by injection Hone as <-|].
  apply bind_Ok in Hone as (neighbor & _ & Hone).
  destruct (_ <? _); [|by injection Hone as <-].
  destruct (checkCollision _ _ _) as [[|]|]; [by injection Hone as <-| |done].
  apply bind_Ok in Hone as (ns1 & Hns1 & Hone).
  apply updateCost_placement in Hone. rewrite Hone, !alter_placement by done.
  destruct (Node.parentId neighbor); [|by injection Hns1 as <-].
  apply bind_Ok in Hns1 as (oldParent & _ & [= <-]). by apply alter_placement.
Qed.

Lemma rewireLoop_placement (fuel : nat) (obs : list (Obstacle.t num)) (X : nat)
    (neighbors : list nat) ns ns' :
  rewireLoop fuel obs X ns neighbors = Ok ns' -> placement <$> ns' = placement <$> ns.
Proof.
  revert ns. induction neighbors as [|N rest IH]; intros ns Hloop; cbn in Hloop.
  { by injection Hloop as <-. }
  apply bind_Ok in Hloop as (ns1 & Hone & Hloop).
  rewrite (IH _ Hloop). by eapply rewireOne_placement.
Qed.

(** The fields only the constructor assigns. *)
Definition configuration t :=
  (width t, height t, start t, goal t, obstacles t, params t, algorithm t, goalNodeId t).

Ltac step_cases Hstep :=
  repeat match type of Hstep with
    | Ok _ = Ok _ => simplify_eq
    | TypeError = Ok _ => discriminate Hstep
    | OutOfFuel = Ok _ => discriminate Hstep
    | bind _ _ = Ok _ => apply bind_Ok in Hstep as (? & ? & Hstep)
    | context [let (_, _) := ?p in _] => destruct p
    | context [match ?x with _ => _ end] => destruct x eqn:?
    end.

Lemma stepMicro_configuration (fuel : nat) t g (b : bool) t' g' :
  stepMicro fuel t g = Ok (b, t', g') -> configuration t' = configuration t.
Proof.
  unfold stepMicro. case_bool_decide; [by intros [= _ <- _]|].
  destruct (microState t); intros Hstep; step_cases Hstep; try discriminate; done.
Qed.

(** One call appends at most one node, at the candidate point and only in
    ADD_NODE below saturation, and moves no node. *)
Lemma stepMicro_placement (fuel : nat) t g (b : bool) t' g' :
  stepMicro fuel t g = Ok (b, t', g') ->
  placement <$> nodes t' = placement <$> nodes t
  \/ (exists newPoint,
        microState t = ADD_NODE /\ tempNewPoint t = Some newPoint
        /\ (length (nodes t) < maxIterations (params t))%nat
        /\ placement <$> nodes t' = (placement <$> nodes t) ++ [(length (nodes t), newPoint)]).
Proof.
  unfold stepMicro. case_bool_decide as Hsat; [intros [= _ <- _]; by left|].
  destruct (microState t) eqn:Hstate; intros Hstep.
  8:{ left. apply bind_Ok in Hstep as (ns' & Hloop & [= _ <- _]). cbn.
      destruct (algorithm t), (tempNewPoint t); try (by injection Hloop as <-).
      by eapply rewireLoop_placement. }
  7:{ destruct (tempNewPoint t) as [newPoint|] eqn:Hpoint; [|injection Hstep as _ <- _; by left].
      right. exists newPoint. split; [done|]. split; [done|]. split; [lia|].
      apply bind_Ok in Hstep as (parent & _ & Hstep).
      destruct (algorithm_eqb _ _); injection Hstep as _ <- _;
        [change (nodes (set_microState REWIRE (set_nodes ?ns t))) with ns
        |change (nodes (set_microState SAMPLE (resetTemp (set_nodes ?ns t)))) with ns];
        rewrite alter_placement by done;
        rewrite fmap_app; cbn; by destruct newPoint. }
  all: left; step_cases Hstep; try discriminate; done.
Qed.

(** Across any number of calls. *)
Lemma reachable_configuration (t0 t : RRTTree num) :
  reachable t0 t -> configuration t = configuration t0.
Proof.
  induction 1 as [|fuel t g b t' g' _ IH Hstep]; [done|].
  rewrite <- IH. by eapply stepMicro_configuration.
Qed.

Lemma reachable_placement (t0 t : RRTTree num) :
  reachable t0 t -> (placement <$> nodes t0) `prefix_of` (placement <$> nodes t).
Proof.
  induction 1 as [|fuel t g b t' g' _ IH Hstep]; [done|].
  destruct (stepMicro_placement _ _ _ _ _ _ Hstep) as [->|(p & _ & _ & _ & ->)]; [done|].
  by apply prefix_app_r.
Qed.

(** X1.  No [stepMicro] call assigns one of the fields the constructor sets:
    after any number of calls the field size, start, goal, obstacles,
    parameters and algorithm are those the planner started with, and
    [goalNodeId] is what it was (null after the constructor: the field is
    never written). *)
Theorem configuration_is_constant (t0 t : RRTTree num) :
  reachable t0 t ->
  width t = width t0 /\ height t = height t0 /\ start t = start t0 /\ goal t = goal t0
  /\ obstacles t = obstacles t0 /\ params t = params t0 /\ algorithm t = algorithm t0
  /\ goalNodeId t = goalNodeId t0.
Proof.
  intros Hreach%reachable_configuration. unfold configuration in Hreach.
  by simplify_eq.
Qed.

(** X2.  The store is append-only and nodes never move: after any number of
    [stepMicro] calls every node that was in the store is still at its index,
    with the id and the coordinates it had. *)
Theorem nodes_never_move (t0 t : RRTTree num) :
  reachable t0 t ->
  (length (nodes t0) <= length (nodes t))%nat
  /\ forall i n0,
       nodes t0 !! i = Some n0 ->
       exists n,
         nodes t !! i = Some n
         /\ Node.id n = Node.id n0 /\ Node.x n = Node.x n0 /\ Node.y n = Node.y n0.
Proof.
  intros Hpre%reachable_placement. split.
  - apply prefix_length in Hpre. by rewrite !length_fmap in Hpre.
  - intros i n0 Hn0.
    assert ((placement <$> nodes t) !! i = Some (placement n0)) as Hi.
    { eapply prefix_lookup_Some; [|done]. by rewrite list_lookup_fmap, Hn0. }
    rewrite list_lookup_fmap in Hi.
    destruct (nodes t !! i) as [n|]; [|done]. exists n. split; [done|].
    injection Hi as Hid Hx Hy. done.
Qed.

(** X3.  The node count of a planner built by the constructor is at least 1
    and never exceeds [maxIterations] (or 1, when [maxIterations] is 0). *)
Theorem node_count_bounded (width height : num) (start goal : Point.t num)
    (obs : list (Obstacle.t num)) (prm : SolverParams num) (alg : AlgorithmType) t :
  reachable (construct width height start goal obs prm alg) t ->
  (1 <= length (nodes t) <= Nat.max 1 (maxIterations prm))%nat.
Proof.
  intros Hreach.
  pose proof (reachable_configuration _ _ Hreach) as Hconf.
  assert (params t = prm) as Hprm by (unfold configuration in Hconf; by simplify_eq).
  clear Hconf. revert Hprm.
  induction Hreach as [|fuel t g b t' g' Hreach IH Hstep]; intros Hprm; [cbn; lia|].
  pose proof (stepMicro_configuration _ _ _ _ _ _ Hstep) as Hconf.
  assert (params t = prm) as Hprm' by (unfold configuration in Hconf; by simplify_eq).
  specialize (IH Hprm'). rewrite <- Hprm' in *.
  destruct (stepMicro_placement _ _ _ _ _ _ Hstep) as [E|(p & _ & _ & Hlt & E)];
    apply (f_equal length) in E; rewrite ?length_app, !length_fmap in E; cbn in E; lia.
Qed.

(** X4.  A saturated planner (node count at or above [maxIterations]) is
    frozen: any number of [stepMicro] calls return [false] and change nothing,
    no random number is drawn, and [step] makes a single call and still
    returns [true]. *)
Theorem saturated_planner_is_frozen (n fuel : nat) t g :
  (maxIterations (params t) <= length (nodes t))%nat ->
  runMicro n fuel t g = Ok (replicate n false, t, g)
  /\ stepWhile 20 fuel t g = Ok (1%nat, t, g)
  /\ step fuel t g = Ok (true, t, g).
Proof.
  intros Hsat.
  assert (stepMicro fuel t g = Ok (false, t, g)) as Hstep by by apply stepMicro_saturated.
  split; [|split].
  - induction n as [|n IH]; [done|]. cbn. rewrite Hstep. cbn. by rewrite IH.
  - cbn. by rewrite Hstep.
  - unfold step. cbn. by rewrite Hstep.
Qed.

(** What plain RRT keeps of a node. *)
Definition settled (n0 n : Node.t num) : Prop :=
  Node.id n = Node.id n0 /\ Node.point n = Node.point n0
  /\ Node.parentId n = Node.parentId n0 /\ Node.cost n = Node.cost n0
  /\ Node.children n0 `prefix_of` Node.children n.

Lemma stepMicro_settled (fuel : nat) t g (b : bool) t' g' :
  algorithm t = RRT -> stepMicro fuel t g = Ok (b, t', g') ->
  forall i n0, nodes t !! i = Some n0 -> exists n, nodes t' !! i = Some n /\ settled n0 n.
Proof.
  intros Halg. unfold stepMicro. case_bool_decide as Hsat.
  { intros [= _ <- _] i n0 Hn0. by exists n0. }
  assert (forall i n0, nodes t !! i = Some n0 -> exists n, nodes t !! i = Some n /\ settled n0 n)
    as Hsame by (intros i n0 Hn0; by exists n0).
  rewrite Halg.
  destruct (microState t) eqn:Hstate; intros Hstep.
  7:{ destruct (tempNewPoint t) as [newPoint|]; [|by injection Hstep as _ <- _].
      apply bind_Ok in Hstep as (parent & Hparent%get_Ok & Hstep).
      cbn [algorithm_eqb] in Hstep. injection Hstep as _ <- _.
      change (nodes (set_microState SAMPLE (resetTemp (set_nodes ?ns t)))) with ns.
      intros i n0 Hn0.
      set (fp := match nearestNode t with Some nearest => Node.id nearest | None => 0%nat end) in *.
      destruct (decide (i = fp)) as [->|Hne].
      - rewrite list_lookup_alter_eq, lookup_app_l, Hn0 by (by eapply lookup_lt_Some).
        eexists. split; [done|]. repeat (split; [done|]). by apply prefix_app_r.
      - rewrite list_lookup_alter_ne, lookup_app_l, Hn0 by (done || by eapply lookup_lt_Some).
        by exists n0. }
  all: step_cases Hstep; try discriminate; done.
Qed.

(** X5.  Plain RRT never rewires: after any number of [stepMicro] calls of an
    RRT planner, a node has the parent and the cost it was inserted with (and
    its id and coordinates), and its [children] list has only been appended
    to. *)
Theorem rrt_nodes_are_settled (t0 t : RRTTree num) :
  algorithm t0 = RRT -> reachable t0 t ->
  forall i n0,
    nodes t0 !! i = Some n0 ->
    exists n,
      nodes t !! i = Some n
      /\ Node.id n = Node.id n0 /\ Node.point n = Node.point n0
      /\ Node.parentId n = Node.parentId n0 /\ Node.cost n = Node.cost n0
      /\ Node.children n0 `prefix_of` Node.children n.
Proof.
  intros Halg Hreach. induction Hreach as [|fuel t g b t' g' Hreach IH Hstep].
  { intros i n0 Hn0. by exists n0. }
  intros i n0 Hn0. destruct (IH i n0 Hn0) as (n1 & Hn1 & Hid & Hpt & Hpar & Hcost & Hch).
  assert (algorithm t = RRT) as Halg'.
  { apply reachable_configuration in Hreach. unfold configuration in Hreach.
    simplify_eq. congruence. }
  destruct (stepMicro_settled _ _ _ _ _ _ Halg' Hstep i n1 Hn1)
    as (n & Hn & Hid' & Hpt' & Hpar' & Hcost' & Hch').
  exists n. split; [done|]. repeat (split; [congruence|]). by etrans.
Qed.

(** X6.  The micro-state [IDLE] is never entered, and a plain RRT planner
    never enters the RRT* states and never fills their scratch fields. *)
Theorem unused_states (width height : num) (start goal : Point.t num)
    (obs : list (Obstacle.t num)) (prm : SolverParams num) (alg : AlgorithmType) t :
  reachable (construct width height start goal obs prm alg) t ->
  microState t <> IDLE
  /\ (alg = RRT ->
      microState t <> NEIGHBORS /\ microState t <> CHOOSE_PARENT /\ microState t <> REWIRE
      /\ tempNeighbors t = [] /\ tempBestParent t = None).
Proof.
  intros Hreach.
  pose proof (reachable_configuration _ _ Hreach) as Hconf.
  assert (algorithm t = alg) as Halg by (unfold configuration in Hconf; by simplify_eq).
  clear Hconf. revert Halg.
  induction Hreach as [|fuel t g b t' g' Hreach IH Hstep]; intros Halg; [done|].
  pose proof (stepMicro_configuration _ _ _ _ _ _ Hstep) as Hconf.
  assert (algorithm t = alg) as Halg' by (unfold configuration in Hconf; by simplify_eq).
  destruct (IH Halg') as [Hidle Hrrt]. clear IH Hconf Halg.
  unfold stepMicro in Hstep. case_bool_decide; [by simplify_eq|].
  split.
  - destruct (microState t); step_cases Hstep; try discriminate; done.
  - intros ->. destruct (Hrrt eq_refl) as (Hs1 & Hs2 & Hs3 & Hs4 & Hs5).
    rewrite Halg' in Hstep.
    destruct (microState t); step_cases Hstep; try discriminate; done.
Qed.

End Frame.

(** ** Whole iterations, with obstacles *)

Section Iterations.
Context {num : Type} `{Numbers num} `{Geometry num}.
Local Open Scope num_scope.

Implicit Types (ns : list (Node.t num)) (t : RRTTree num) (g : Rng num).

(** ADD_NODE: the store with a node at [newPoint] appended below [parentIdx]. *)
Definition added ns (parentIdx : nat) (parent : Node.t num) (newPoint : Point.t num)
  : list (Node.t num) :=
  alter (fun n => Node.set_children (Node.children n ++ [length ns]) n) parentIdx
    (ns ++ [Node.mk (length ns) (Point.x newPoint) (Point.y newPoint) (Some parentIdx)
              (Node.cost parent + dist (Node.point parent) newPoint) []]).

(** The candidate point of an iteration: STEER applied to the nearest node and
    the sample SAMPLE draws. *)
Definition candidate t g (nearest : Node.t num) : Point.t num :=
  steer (Node.point nearest) (fst (drawSample t g)) (stepSize (params t)).

(** The ids of a planner built by the constructor are the indices: no number
    law is involved. *)
Lemma reachable_ids (width height : num) (start goal : Point.t num)
    (obs : list (Obstacle.t num)) (prm : SolverParams num) (alg : AlgorithmType) t :
  reachable (construct width height start goal obs prm alg) t ->
  forall i n, nodes t !! i = Some n -> Node.id n = i.
Proof.
  intros Hreach.
  assert (forall i p, (placement <$> nodes t) !! i = Some p -> p.1 = i) as Hids.
  { induction Hreach as [|fuel t g b t' g' _ IH Hstep].
    - intros [|i] p Hp; [by injection Hp as <-|done].
    - destruct (stepMicro_placement _ _ _ _ _ _ Hstep) as [->|(q & _ & _ & _ & ->)]; [done|].
      intros i p [Hp|[Hi Hp]]%lookup_app_Some; [eauto|].
      rewrite length_fmap in Hi, Hp.
      apply list_lookup_singleton_Some in Hp as [Hi' <-]. cbn. lia. }
  intros i n Hn. apply (Hids i (placement n)). by rewrite list_lookup_fmap, Hn.
Qed.

(** From [k] calls that end with the first [false] to the drain loop. *)
Lemma runMicro_stepWhile (k remaining fuel : nat) t g t' g' :
  (k <= remaining)%nat ->
  runMicro (S k) fuel t g = Ok (replicate k true ++ [false], t', g') ->
  stepWhile remaining fuel t g = Ok (S k, t', g').
Proof.
  revert remaining t g. induction k as [|k IH]; intros remaining t g Hk Hrun.
  - cbn in Hrun. apply bind_Ok in Hrun as ([[b t1] g1] & Hstep & [= -> <- <-]).
    destruct remaining; cbn; by rewrite Hstep.
  - destruct remaining as [|remaining]; [lia|].
    cbn [runMicro] in Hrun. apply bind_Ok in Hrun as ([[b t1] g1] & Hstep & Hrun).
    apply bind_Ok in Hrun as ([[bs t2] g2] & Hrest & [= -> -> <- <-]).
    cbn [stepWhile]. rewrite Hstep. cbn [bind].
    rewrite (IH remaining t1 g1); [done|lia|].
    cbn [runMicro]. by rewrite Hrest.
Qed.

Section OneIteration.
Variables (fuel : nat) (t : RRTTree num) (g : Rng num) (i : nat) (nearest : Node.t num).
Hypothesis Hlt : (length (nodes t) < maxIterations (params t))%nat.
Hypothesis Hstate : microState t = SAMPLE.
Hypothesis Hnear :
  nearestLoop (fst (drawSample t g)) (nodes t) 0 num_infinity None = Some i.
Hypothesis Hnearest : nodes t !! i = Some nearest.


(** SAMPLE, NEAREST and STEER. *)
Lemma iteration_prefix (n : nat) :
  runMicro (S (S (S n))) fuel t g
  = let* (bs, t', g') :=
      runMicro n fuel
        (set_microState COLLISION_CHECK
           (set_tempNewPoint (Some (candidate t g nearest))
              (set_tempNearestNode (Some i)
                 (set_tempSample (Some (fst (drawSample t g))) t))))
        (snd (drawSample t g)) in
    Ok (true :: true :: true :: bs, t', g').
Proof.
  unfold candidate.
  cbn [runMicro]. rewrite stepMicro_SAMPLE by done. cbn [bind].
  remember (fst (drawSample t g)) as sample eqn:Hsample.
  remember (snd (drawSample t g)) as g1 eqn:Hg1. clear Hsample Hg1.
  unfold stepMicro at 1. cbn -[nearestLoop runMicro stepMicro].
  rewrite bool_decide_eq_false_2 by lia. rewrite Hnear. cbn [bind].
  unfold stepMicro at 1, nearestNode. cbn -[runMicro stepMicro].
  rewrite bool_decide_eq_false_2 by lia. rewrite Hnearest. cbn [bind].
  destruct (runMicro n fuel _ g1) as [[[bs t'] g']| |]; done.
Qed.

Lemma iteration_collision :
  checkCollision (Node.point nearest) (candidate t g nearest) (obstacles t) = Some true ->
  runMicro 4 fuel t g
  = Ok ([true; true; true; false], set_microState SAMPLE (resetTemp t), snd (drawSample t g)).
Proof.
  intros Hhit. rewrite iteration_prefix. cbn [runMicro].
  unfold stepMicro, nearestNode. cbn -[candidate].
  rewrite bool_decide_eq_false_2 by lia. rewrite Hnearest, Hhit. done.
Qed.

Lemma iteration_rrt :
  Node.id nearest = i ->
  checkCollision (Node.point nearest) (candidate t g nearest) (obstacles t) = Some false ->
  algorithm t = RRT ->
  runMicro 5 fuel t g
  = Ok ([true; true; true; true; false],
        set_microState SAMPLE (resetTemp (set_nodes (added (nodes t) i nearest (candidate t g nearest)) t)),
        snd (drawSample t g)).
Proof.
  intros Hid Hfree Halg. rewrite iteration_prefix. cbn [runMicro].
  unfold stepMicro at 1, nearestNode. cbn -[candidate runMicro stepMicro].
  rewrite bool_decide_eq_false_2 by lia. rewrite Hnearest, Hfree, Halg.
  cbn [algorithm_eqb bind].
  unfold stepMicro at 1, nearestNode. cbn -[candidate runMicro stepMicro].
  rewrite bool_decide_eq_false_2 by lia. rewrite Hnearest, Halg, Hid.
  unfold get. rewrite Hnearest. cbn [bind algorithm_eqb]. done.
Qed.

Lemma iteration_rrt_star :
  CostLaws -> TreeInv (nodes t) ->
  (forall p q, is_Some (checkCollision p q (obstacles t))) ->
  (length (nodes t) < fuel)%nat ->
  checkCollision (Node.point nearest) (candidate t g nearest) (obstacles t) = Some false ->
  algorithm t = RRTstar ->
  exists t' best parent,
    runMicro 8 fuel t g
    = Ok ([true; true; true; true; true; true; true; false], t', snd (drawSample t g))
    /\ nodes t !! best = Some parent
    /\ placement <$> nodes t' = placement <$> added (nodes t) best parent (candidate t g nearest)
    /\ TreeInv (nodes t').
Proof.
  intros HL HT Hcheck Hfuel Hfree Halg. pose proof HT as [HS _].
  assert (Node.id nearest = i) as Hid by by apply (shape_ids _ HS).
  set (neighbors := neighborsLoop (candidate t g nearest) (searchRadius (params t)) (nodes t) 0).
  assert (forall k, k ∈ neighbors -> is_Some (nodes t !! k)) as Hvalid.
  { intros k Hk%neighborsLoop_valid. apply lookup_lt_is_Some. lia. }
  destruct (chooseParentLoop_returns (nodes t) (candidate t g nearest) (obstacles t) neighbors (Node.id nearest)
              (Node.cost nearest + dist (Node.point nearest) (candidate t g nearest)) Hvalid)
    as [[best bestCost] Hchoose].
  { intros n. apply Hcheck. }
  assert (is_Some (nodes t !! best)) as [parent Hparent].
  { apply chooseParentLoop_in in Hchoose as [->|Hin]; [|by apply Hvalid].
    rewrite Hid. by eexists. }
  rewrite iteration_prefix. cbn [runMicro].
  (* 4: COLLISION_CHECK *)
  unfold stepMicro at 1, nearestNode. cbn -[candidate runMicro stepMicro].
  rewrite bool_decide_eq_false_2 by lia. rewrite Hnearest, Hfree, Halg.
  cbn [algorithm_eqb bind].
  (* 5: NEIGHBORS *)
  unfold stepMicro at 1. cbn -[candidate neighborsLoop runMicro stepMicro].
  rewrite bool_decide_eq_false_2 by lia. fold neighbors. cbn [bind].
  (* 6: CHOOSE_PARENT *)
  unfold stepMicro at 1, nearestNode. cbn -[candidate chooseParentLoop runMicro stepMicro].
  rewrite bool_decide_eq_false_2 by lia. rewrite Hnearest, Hchoose. cbn [bind].
  (* 7: ADD_NODE *)
  unfold stepMicro at 1, nearestNode. cbn -[candidate runMicro stepMicro].
  rewrite bool_decide_eq_false_2 by lia. rewrite Halg. unfold get. rewrite Hparent.
  cbn [bind algorithm_eqb].
  change (alter _ best (nodes t ++ [_])) with (added (nodes t) best parent (candidate t g nearest)).
  set (ns2 := added (nodes t) best parent (candidate t g nearest)).
  assert (TreeInv ns2) as HT2 by (by apply (addNode_TreeInv (nodes t) best parent (candidate t g nearest))).
  assert (length ns2 = S (length (nodes t))) as Hlen2
    by (unfold ns2, added; rewrite length_alter, length_app; cbn; lia).
  (* 8: REWIRE, or the saturation guard *)
  unfold stepMicro at 1. cbn -[candidate rewireLoop runMicro stepMicro].
  case_bool_decide as Hsat.
  { cbn. eexists _, best, parent. split; [done|]. split; [done|]. by split. }
  rewrite Halg.
  destruct (rewireLoop_returns fuel (obstacles t) (length ns2 - 1) neighbors ns2 HL HT2)
    as (ns' & Hloop & Hlen').
  { apply lookup_lt_is_Some. lia. }
  { intros k Hk%neighborsLoop_valid. apply lookup_lt_is_Some. lia. }
  { done. }
  { lia. }
  rewrite Hloop. cbn. eexists _, best, parent. split; [done|]. split; [done|]. split.
  - cbn. by eapply rewireLoop_placement.
  - cbn. by eapply rewireLoop_TreeInv.
Qed.

End OneIteration.

Lemma added_placement ns (parentIdx : nat) (parent : Node.t num) (newPoint : Point.t num) :
  placement <$> added ns parentIdx parent newPoint
  = (placement <$> ns) ++ [(length ns, newPoint)].
Proof.
  unfold added. rewrite alter_placement by done. rewrite fmap_app. cbn. by destruct newPoint.
Qed.

(** X7.  A candidate whose segment from the nearest node hits an obstacle is
    discarded at the fourth call: SAMPLE, NEAREST and STEER return [true],
    COLLISION_CHECK returns [false], and the planner is back where it was,
    in SAMPLE with the scratch fields cleared and the store untouched; only
    the random numbers of the sample are consumed. *)
Theorem colliding_candidate_is_discarded (fuel : nat) t g (i : nat) (nearest : Node.t num) :
  (length (nodes t) < maxIterations (params t))%nat ->
  microState t = SAMPLE ->
  nearestLoop (fst (drawSample t g)) (nodes t) 0 num_infinity None = Some i ->
  nodes t !! i = Some nearest ->
  checkCollision (Node.point nearest) (candidate t g nearest) (obstacles t) = Some true ->
  exists t',
    runMicro 4 fuel t g = Ok ([true; true; true; false], t', snd (drawSample t g))
    /\ nodes t' = nodes t /\ microState t' = SAMPLE /\ scratchCleared t'
    /\ t' = resetTemp t.
Proof.
  intros Hlt Hstate Hnear Hnearest Hhit.
  exists (set_microState SAMPLE (resetTemp t)).
  split; [by eapply iteration_collision|].
  split; [done|]. split; [done|]. split; [done|].
  destruct t. cbn in *. by subst.
Qed.

(** X8.  A plain RRT iteration whose candidate is free takes five calls:
    the fifth (ADD_NODE) returns [false] after appending one node at the
    candidate point, with the store length as id, the nearest node as parent
    and the cost of the nearest node plus the distance to the candidate; the
    new id is appended to the children of the nearest node, and the scratch
    fields are cleared. *)
Theorem rrt_iteration_in_five_calls (width height : num) (start goal : Point.t num)
    (obs : list (Obstacle.t num)) (prm : SolverParams num)
    (fuel : nat) t g (i : nat) (nearest : Node.t num) :
  reachable (construct width height start goal obs prm RRT) t ->
  (length (nodes t) < maxIterations (params t))%nat ->
  microState t = SAMPLE ->
  nearestLoop (fst (drawSample t g)) (nodes t) 0 num_infinity None = Some i ->
  nodes t !! i = Some nearest ->
  checkCollision (Node.point nearest) (candidate t g nearest) (obstacles t) = Some false ->
  runMicro 5 fuel t g
  = Ok ([true; true; true; true; false],
        set_microState SAMPLE
          (resetTemp (set_nodes (added (nodes t) i nearest (candidate t g nearest)) t)),
        snd (drawSample t g)).
Proof.
  intros Hreach Hlt Hstate Hnear Hnearest Hfree.
  eapply iteration_rrt; try done.
  - by eapply reachable_ids.
  - apply reachable_configuration in Hreach. unfold configuration in Hreach. by simplify_eq.
Qed.


End Iterations.

(** ** The two scans of an iteration *)

Section Scans.
Context {num : Type} `{Numbers num} `{Geometry num}.
Local Open Scope num_scope.

Implicit Types (ns : list (Node.t num)) (t : RRTTree num) (g : Rng num).

(** What the NEAREST scan leaves in [nearestNodeIndex], started from
    [(minDist, acc)] at index [i0]. *)
Definition nearestSpec (sample : Point.t num) ns (i0 : nat) (minDist : num)
    (acc res : option nat) : Prop :=
  (res = acc
   /\ forall j m, ns !! j = Some m -> (dist (Node.point m) sample <? minDist) = false)
  \/ exists k n,
       res = Some (i0 + k)%nat /\ ns !! k = Some n
       /\ (dist (Node.point n) sample <? minDist) = true
       /\ (forall j m, ns !! j = Some m ->
             (dist (Node.point m) sample <? dist (Node.point n) sample) = false)
       /\ (forall j m, (j < k)%nat -> ns !! j = Some m ->
             (dist (Node.point n) sample <? dist (Node.point m) sample) = true).

Lemma nearestLoop_spec (sample : Point.t num) ns (i0 : nat) (minDist : num) (acc : option nat) :
  CostLaws -> OrderLaws ->
  nearestSpec sample ns i0 minDist acc (nearestLoop sample ns i0 minDist acc).
Proof.
  intros HL HO. revert i0 minDist acc.
  induction ns as [|n rest IH]; intros i0 minDist acc; cbn [nearestLoop].
  { left. split; [done|]. by intros j m. }
  destruct (dist (Node.point n) sample <? minDist) eqn:Hd.
  - destruct (IH (S i0) (dist (Node.point n) sample) (Some i0))
      as [[-> Hnone]|(k & n1 & -> & Hn1 & Hlt1 & Hmin & Hfirst)]; right.
    + exists 0%nat, n. split; [f_equal; lia|]. split; [done|]. split; [done|]. split.
      * intros [|j] m Hm; [injection Hm as <-; apply HL|by eapply Hnone].
      * intros j m Hj. lia.
    + exists (S k), n1. split; [f_equal; lia|]. split; [done|].
      split; [by eapply (lt_trans HO)|]. split.
      * intros [|j] m Hm; [injection Hm as <-; by apply lt_asym|by eapply Hmin].
      * intros [|j] m Hj Hm; [by injection Hm as <-|]. apply (Hfirst j m); [lia|done].
  - destruct (IH (S i0) minDist acc)
      as [[-> Hnone]|(k & n1 & -> & Hn1 & Hlt1 & Hmin & Hfirst)]; [left|right].
    + split; [done|]. intros [|j] m Hm; [by injection Hm as <-|by eapply Hnone].
    + exists (S k), n1. split; [f_equal; lia|]. split; [done|]. split; [done|]. split.
      * intros [|j] m Hm; [injection Hm as <-|by eapply Hmin].
        destruct (dist (Node.point n) sample <? dist (Node.point n1) sample) eqn:E; [|done].
        by rewrite (lt_trans HO _ _ _ E Hlt1) in Hd.
      * intros [|j] m Hj Hm; [injection Hm as <-|apply (Hfirst j m); [lia|done]].
        by eapply lt_not_lt_trans.
Qed.


Lemma neighborsLoop_spec (newPoint : Point.t num) (radius : num) ns (i0 k : nat) :
  k ∈ neighborsLoop newPoint radius ns i0
  <-> exists n, (i0 <= k)%nat /\ ns !! (k - i0)%nat = Some n
               /\ (dist (Node.point n) newPoint <=? radius) = true.
Proof.
  revert i0. induction ns as [|n rest IH]; intros i0; cbn.
  { split; [by intros ?%elem_of_nil|by intros (? & _ & ? & _)]. }
  assert (k ∈ neighborsLoop newPoint radius rest (S i0)
          <-> exists m, (i0 < k)%nat /\ rest !! (k - S i0)%nat = Some m
                       /\ (dist (Node.point m) newPoint <=? radius) = true) as IH'.
  { rewrite IH. split; intros (m & ? & ? & ?); exists m; (split; [lia|done]). }
  destruct (dist (Node.point n) newPoint <=? radius) eqn:Hin; rewrite ?elem_of_cons, IH'.
  - split.
    + intros [->|(m & Hk & Hm & Hb)].
      * exists n. rewrite Nat.sub_diag. done.
      * exists m. split; [lia|]. replace (k - i0)%nat with (S (k - S i0)) by lia. done.
    + intros (m & Hk & Hm & Hb). destruct (decide (k = i0)) as [->|Hne]; [by left|right].
      exists m. split; [lia|]. replace (k - i0)%nat with (S (k - S i0)) in Hm by lia. done.
  - split.
    + intros (m & Hk & Hm & Hb). exists m. split; [lia|].
      replace (k - i0)%nat with (S (k - S i0)) by lia. done.
    + intros (m & Hk & Hm & Hb). destruct (decide (k = i0)) as [->|Hne].
      * rewrite Nat.sub_diag in Hm. cbn in Hm. congruence.
      * exists m. split; [lia|]. replace (k - i0)%nat with (S (k - S i0)) in Hm by lia. done.
Qed.

Lemma neighborsLoop_increasing (newPoint : Point.t num) (radius : num) ns (i0 i j a b : nat) :
  (i < j)%nat ->
  neighborsLoop newPoint radius ns i0 !! i = Some a ->
  neighborsLoop newPoint radius ns i0 !! j = Some b ->
  (a < b)%nat.
Proof.
  revert i0 i j. induction ns as [|n rest IH]; intros i0 i j Hij Ha Hb; cbn in Ha, Hb; [done|].
  destruct (_ <=? _); [|eauto].
  destruct j as [|j]; [lia|]. cbn in Hb. destruct i as [|i].
  - injection Ha as <-.
    apply list_elem_of_lookup_2, neighborsLoop_spec in Hb as (m & Hb & _). lia.
  - cbn in Ha. apply (IH (S i0) i j); [lia|done..].
Qed.

(** X11.  NEIGHBORS collects exactly the nodes within the search radius.
    Below saturation, with a candidate stored, the call returns [true], moves
    on to CHOOSE_PARENT and sets [tempNeighbors] to the indices of the nodes
    at a distance [<= searchRadius] from the candidate, in strictly increasing
    order; nothing else changes. *)
Theorem neighbors_are_the_nodes_in_radius (fuel : nat) t g (newPoint : Point.t num) :
  (length (nodes t) < maxIterations (params t))%nat ->
  microState t = NEIGHBORS ->
  tempNewPoint t = Some newPoint ->
  exists l,
    stepMicro fuel t g = Ok (true, set_microState CHOOSE_PARENT (set_tempNeighbors l t), g)
    /\ (forall k, k ∈ l <-> exists n, nodes t !! k = Some n
                     /\ (dist (Node.point n) newPoint <=? searchRadius (params t)) = true)
    /\ (forall i j a b, (i < j)%nat -> l !! i = Some a -> l !! j = Some b -> (a < b)%nat).
Proof.
  intros Hlt Hstate Hpoint.
  exists (neighborsLoop newPoint (searchRadius (params t)) (nodes t) 0).
  split; [|split].
  - unfold stepMicro. rewrite bool_decide_eq_false_2 by lia. by rewrite Hstate, Hpoint.
  - intros k. rewrite neighborsLoop_spec, Nat.sub_0_r.
    split; [intros (n & _ & ? & ?)|intros (n & ? & ?)]; exists n; auto with lia.
  - intros i j a b. apply neighborsLoop_increasing.
Qed.

End Scans.

(** ** The cost cascade on its own *)

Section Cascade.
Context {num : Type} `{Numbers num} `{Geometry num}.
Local Open Scope num_scope.

Implicit Types (ns : list (Node.t num)).

Lemma alter_fixed {A : Type} (f : A -> A) (i : nat) (l : list A) (x : A) :
  l !! i = Some x -> f x = x -> alter f i l = l.
Proof.
  intros Hx Hf. apply list_eq. intros j. destruct (decide (j = i)) as [->|Hne].
  - by rewrite list_lookup_alter_eq, Hx; cbn; rewrite Hf.
  - by rewrite list_lookup_alter_ne.
Qed.

Lemma forChildren_consistent
    (rec : list (Node.t num) -> nat -> result (list (Node.t num))) (a : nat) ns :
  forall cs ns',
    (forall c, c ∈ cs -> parentOf ns c = Some a /\ costOk ns c) ->
    (forall c ns'', c ∈ cs -> rec ns c = Ok ns'' -> ns'' = ns) ->
    forChildren rec a cs ns = Ok ns' -> ns' = ns.
Proof.
  induction cs as [|c rest IH]; intros ns' Hcs Hrec Hloop; cbn in Hloop.
  { by injection Hloop as <-. }
  apply bind_Ok in Hloop as (node & Hnode%get_Ok & Hloop).
  apply bind_Ok in Hloop as (child & Hchild%get_Ok & Hloop).
  apply bind_Ok in Hloop as (ns2 & Hrec2 & Hloop).
  destruct (Hcs c ltac:(left)) as [Hpar Hok].
  assert (Node.parentId child = Some a) as Hpc
    by (unfold parentOf in Hpar; by rewrite Hchild in Hpar).
  rewrite <- (Hok child a node Hchild Hpc Hnode) in Hrec2.
  rewrite (alter_fixed _ c ns child Hchild) in Hrec2 by (by destruct child).
  apply (Hrec c) in Hrec2 as ->; [|left].
  apply IH; [|intros c' ns'' Hc' Hr; apply (Hrec c'); [by right|done]|done].
  intros c' Hc'. apply Hcs. by right.
Qed.

(** A cascade over a part of the tree whose costs are right changes nothing. *)
Lemma updateCost_consistent (fuel : nat) ns (a : nat) ns' :
  Shape ns -> (forall i, sdesc ns a i -> costOk ns i) ->
  updateCost fuel ns a = Ok ns' -> ns' = ns.
Proof.
  intros HS. revert a ns'. induction fuel as [|fuel IH]; intros a ns' Hok Hup; [done|].
  cbn [updateCost] in Hup. apply bind_Ok in Hup as (node & Hnode%get_Ok & Hup).
  eapply forChildren_consistent; [| |exact Hup].
  - intros c Hc. apply (shape_children _ HS a node c Hnode) in Hc.
    split; [done|]. apply Hok. exists 0%nat. cbn. by rewrite Hc.
  - intros c ns'' Hc Hrec. apply (IH c ns''); [|done].
    apply (shape_children _ HS a node c Hnode) in Hc.
    intros i [j Hj]. apply Hok. exists (S j). rewrite climb_S_r, Hj. done.
Qed.

(** X12.  [updateCost] on a well-shaped store returns when the fuel covers
    the node count; it changes [cost] fields only; calling it again on its
    own result changes nothing more; and on a store whose costs below the
    starting node are already the parent's cost plus the distance, the first
    call changes nothing either. *)
Theorem updateCost_is_idempotent (fuel : nat) ns (a : nat) :
  Shape ns -> (a < length ns)%nat -> (length ns <= fuel)%nat ->
  exists ns',
    updateCost fuel ns a = Ok ns'
    /\ sameShape ns ns'
    /\ updateCost fuel ns' a = Ok ns'
    /\ ((forall i, sdesc ns a i -> costOk ns i) -> ns' = ns).
Proof.
  intros HS Ha Hfuel.
  destruct (shape_reach _ HS a Ha) as [d Hd].
  destruct (updateCost_returns fuel ns a d HS) as (ns' & Hup & E);
    [by apply lookup_lt_is_Some|done|lia|].
  exists ns'. split; [done|]. split; [done|].
  destruct (updateCost_spec _ _ _ _ HS Hup) as (_ & _ & Hin).
  assert (Shape ns') as HS' by eauto using sameShape_Shape.
  pose proof (sameShape_length _ _ E) as Hlen.
  split.
  - destruct (updateCost_returns fuel ns' a d HS') as (ns'' & Hup' & _).
    + apply lookup_lt_is_Some. lia.
    + by rewrite (sameShape_climb _ _ _ _ E).
    + lia.
    + rewrite Hup'. f_equal. apply (updateCost_consistent fuel ns' a ns'' HS'); [|done].
      intros i [j Hj]. apply Hin. exists j. by rewrite <- (sameShape_climb _ _ _ _ E).
  - intros Hok. by apply (updateCost_consistent fuel ns a ns' HS).
Qed.

End Cascade.

(** ** The extracted path, whatever the costs *)

Section Paths.
Context {num : Type} `{Numbers num} `{PathNumbers num} `{Geometry num}.
Local Open Scope num_scope.

Implicit Types (ns : list (Node.t num)) (t : RRTTree num).

Lemma sortInsert_perm {A : Type} (cmp : A -> A -> num) (a : A) (l : list A) :
  sortInsert cmp a l ≡ₚ a :: l.
Proof.
  induction l as [|b rest IH]; cbn; [done|].
  destruct (_ <? _); [|done]. rewrite IH. apply Permutation_swap.
Qed.

(** The sort rearranges, whatever the comparator answers. *)
Lemma sort_perm {A : Type} (cmp : A -> A -> num) (l : list A) : sort cmp l ≡ₚ l.
Proof.
  induction l as [|a rest IH]; [done|].
  cbn [sort foldr]. fold (sort cmp rest). by rewrite sortInsert_perm, IH.
Qed.

(** The backtrace from a node at depth [d] is the list of its ancestors,
    nearest first. *)
Lemma backtrace_climb ns (d : nat) :
  is_Some (ns !! 0%nat) -> parentOf ns 0 = None ->
  forall (fuel c : nat) (acc : list nat),
    climb ns d c = Some 0%nat -> is_Some (ns !! c) -> (d < fuel)%nat ->
    exists chain,
      backtrace fuel ns (Some c) acc = Ok (acc ++ chain)
      /\ length chain = S d
      /\ forall k, (k <= d)%nat -> chain !! k = climb ns k c.
Proof.
  intros Hroot0 Hroot. induction d as [|d IH]; intros fuel c acc Hd [n Hn] Hfuel.
  - cbn in Hd. injection Hd as ->. destruct fuel as [|fuel]; [lia|].
    cbn. unfold get. rewrite Hn. cbn.
    unfold parentOf in Hroot. rewrite Hn in Hroot. rewrite Hroot.
    exists [0%nat]. split; [by destruct fuel|]. split; [done|].
    intros k Hk. by replace k with 0%nat by lia.
  - cbn in Hd. destruct (parentOf ns c) as [p|] eqn:Hp; [|done].
    destruct fuel as [|fuel]; [lia|].
    cbn [backtrace]. unfold get. rewrite Hn. cbn [bind].
    assert (Node.parentId n = Some p) as -> by (unfold parentOf in Hp; by rewrite Hn in Hp).
    assert (is_Some (ns !! p)) as Hpn.
    { destruct d as [|d].
      - cbn in Hd. by injection Hd as ->.
      - cbn in Hd. destruct (parentOf ns p) eqn:E; [|done].
        apply lookup_lt_is_Some. by eapply parentOf_lt. }
    destruct (IH fuel p (acc ++ [c]) Hd Hpn ltac:(lia)) as (chain & Hback & Hlen & Hclimb).
    exists (c :: chain). rewrite Hback, <- app_assoc. split; [done|].
    split; [cbn; lia|].
    intros [|k] Hk; [done|]. cbn. rewrite Hp. apply Hclimb. lia.
Qed.

(** The sequence [getPath] returns, read along the tree. *)
Lemma getPath_chain (fuel : nat) t :
  Shape (nodes t) -> (length (nodes t) <= fuel)%nat ->
  exists path,
    getPath fuel t = Ok path
    /\ (path = [] <-> forall i n, nodes t !! i = Some n -> inBand t n = false)
    /\ NoDup path
    /\ (forall a, a ∈ path -> (a < length (nodes t))%nat)
    /\ (length path <= length (nodes t))%nat
    /\ (path <> [] ->
        head path = Some 0%nat
        /\ (exists c n, last path = Some c /\ nodes t !! c = Some n /\ inBand t n = true)
        /\ (forall k a b, path !! k = Some a -> path !! S k = Some b ->
              parentOf (nodes t) b = Some a)).
Proof.
  intros HS Hfuel. unfold getPath.
  set (cands := candidatesLoop (goal t) (stepSize (params t) * num_1_5) (nodes t) 0).
  set (cmp := fun a b => costAt (nodes t) a - costAt (nodes t) b).
  pose proof (sort_perm cmp cands) as Hperm.
  destruct (sort cmp cands) as [|h tl].
  { exists []. split; [done|]. split.
    { split; [|done]. intros _ i n Hn. destruct (inBand t n) eqn:Hin; [|done].
      assert (i ∈ cands) as Hi.
      { apply candidatesLoop_spec. exists n. rewrite Nat.sub_0_r. split; [lia|done]. }
      rewrite <- Hperm in Hi. by apply elem_of_nil in Hi. }
    split; [constructor|]. split; [by intros a ?%elem_of_nil|].
    split; [cbn; lia|done]. }
  assert (h ∈ cands) as Hh by (rewrite <- Hperm; left).
  unfold cands in Hh. apply candidatesLoop_spec in Hh as (n & _ & Hn & Hin).
  rewrite Nat.sub_0_r in Hn.
  assert (h < length (nodes t))%nat as Hhlt by by eapply lookup_lt_Some.
  destruct (shape_reach _ HS h Hhlt) as [d Hd].
  pose proof (depth_lt_length _ HS d h Hhlt Hd) as Hdlt.
  destruct (backtrace_climb (nodes t) d (proj1 (shape_root _ HS)) (proj2 (shape_root _ HS))
              fuel h [] Hd ltac:(by eexists) ltac:(lia))
    as (chain & Hback & Hlen & Hclimb).
  rewrite Hback. cbn [bind app]. exists (reverse chain).
  assert (forall k a, chain !! k = Some a -> climb (nodes t) k h = Some a) as Hk.
  { intros k a Ha. rewrite <- Hclimb; [done|]. apply lookup_lt_Some in Ha. lia. }
  assert (reverse chain <> []) as Hne.
  { intros E%(f_equal length). rewrite length_reverse, Hlen in E. done. }
  split; [done|]. split.
  { split; [done|]. intros Hnone. specialize (Hnone h n Hn). unfold inBand in Hnone. congruence. }
  split; [|split; [|split]].
  - rewrite reverse_Permutation. apply NoDup_alt. intros i j a Hi Hj.
    assert (forall i j, (i < j)%nat -> chain !! i = Some a -> chain !! j = Some a -> False)
      as Hlt.
    { clear i j Hi Hj. intros i j Hij Hi%Hk Hj%Hk.
      replace j with (i + S (j - i - 1))%nat in Hj by lia.
      rewrite climb_add, Hi in Hj. by apply (no_cycle _ HS) in Hj. }
    destruct (Nat.lt_trichotomy i j) as [?|[?|?]]; [|done|]; exfalso; eauto.
  - intros a Ha. rewrite elem_of_reverse in Ha. apply list_elem_of_lookup in Ha as [k Ha%Hk].
    exact (climb_valid _ HS k h a Hhlt Ha).
  - rewrite length_reverse. lia.
  - intros _. split; [|split].
    + rewrite head_reverse, last_lookup, Hlen. cbn. rewrite Hclimb by lia. done.
    + exists h, n. split; [|done].
      rewrite last_reverse, head_lookup, Hclimb by lia. done.
    + intros k a b Ha Hb.
      apply reverse_lookup_Some in Ha as [Ha Hka], Hb as [Hb Hkb].
      apply Hk in Ha, Hb.
      replace (length chain - S k)%nat with (S (length chain - S (S k))) in Ha by lia.
      rewrite climb_S_r, Hb in Ha. done.
Qed.



(** [App]: [const pathCost = path.length > 0 && treeRef.current ?
    treeRef.current.nodes[path[0]].cost : null]. *)
Definition pathCost (path : list nat) (treeRef : option (RRTTree num)) : result (option num) :=
  match path, treeRef with
  | p0 :: _, Some tree =>
      let* n := get (nodes tree) p0 in
      Ok (Some (Node.cost n))
  | _, _ => Ok None
  end.


End Paths.

(** ** Over the life of a planner *)

Section Progress.
Context {num : Type} `{Numbers num} `{PathNumbers num} `{Geometry num}.
Local Open Scope num_scope.

Implicit Types (ns : list (Node.t num)) (t : RRTTree num) (g : Rng num).

Lemma reachable_trans (t0 t1 t2 : RRTTree num) :
  reachable t0 t1 -> reachable t1 t2 -> reachable t0 t2.
Proof.
  intros H01. induction 1 as [|fuel t g b t' g' _ IH Hstep]; [done|].
  by eapply reachable_stepMicro.
Qed.

(** One call raises no cost. *)
Lemma stepMicro_costs (fuel : nat) t g (b : bool) t' g' :
  CostLaws -> OrderLaws -> TreeInv (nodes t) ->
  stepMicro fuel t g = Ok (b, t', g') ->
  forall i n, nodes t !! i = Some n ->
    exists n', nodes t' !! i = Some n' /\ (Node.cost n <? Node.cost n') = false.
Proof.
  intros HL HO HT. unfold stepMicro.
  assert (forall i n, nodes t !! i = Some n ->
            exists n', nodes t !! i = Some n' /\ (Node.cost n <? Node.cost n') = false) as Hsame.
  { intros i n Hn. exists n. split; [done|apply HL]. }
  case_bool_decide; [by intros [= _ <- _]|].
  destruct (microState t) eqn:Hstate; intros Hstep.
  8:{ apply bind_Ok in Hstep as (ns' & Hloop & [= _ <- _]).
      change (nodes (set_microState SAMPLE (resetTemp (set_nodes ns' t)))) with ns'.
      destruct (algorithm t), (tempNewPoint t); try (by injection Hloop as <-).
      intros i n Hn.
      destruct (rewireLoop_TreeInv _ _ _ _ _ _ HL HT Hloop) as [_ Hlen].
      assert (is_Some (ns' !! i)) as [n' Hn'].
      { apply lookup_lt_is_Some. rewrite Hlen. by eapply lookup_lt_Some. }
      exists n'. split; [done|].
      by destruct (rewireLoop_rewired _ _ _ _ _ _ HL HO HT Hloop i n n' Hn Hn'). }
  7:{ destruct (tempNewPoint t) as [newPoint|]; [|by injection Hstep as _ <- _].
      apply bind_Ok in Hstep as (parent & Hparent%get_Ok & Hstep).
      intros i n Hn.
      assert (exists n', alter (fun n => Node.set_children (Node.children n ++ [length (nodes t)]) n)
                           (match algorithm t, tempBestParent t with
                            | RRTstar, Some best => best
                            | _, _ => match nearestNode t with
                                      | Some nearest => Node.id nearest
                                      | None => 0%nat
                                      end
                            end)
                           (nodes t ++
                            [Node.mk (length (nodes t)) (Point.x newPoint) (Point.y newPoint)
                               (Some (match algorithm t, tempBestParent t with
                                      | RRTstar, Some best => best
                                      | _, _ => match nearestNode t with
                                                | Some nearest => Node.id nearest
                                                | None => 0%nat
                                                end
                                      end))
                               (Node.cost parent + dist (Node.point parent) newPoint) []]) !! i
                         = Some n' /\ (Node.cost n <? Node.cost n') = false) as Hadd.
      { set (fp := match algorithm t, tempBestParent t with
                   | RRTstar, Some best => best
                   | _, _ => _
                   end).
        destruct (decide (i = fp)) as [->|Hne].
        - rewrite list_lookup_alter_eq, lookup_app_l, Hn by (by eapply lookup_lt_Some).
          eexists. split; [done|]. apply HL.
        - rewrite list_lookup_alter_ne, lookup_app_l, Hn by (done || by eapply lookup_lt_Some).
          exists n. split; [done|apply HL]. }
      by destruct (algorithm_eqb _ _); injection Hstep as _ <- _. }
  all: repeat match type of Hstep with
      | Ok _ = Ok _ => injection Hstep as _ <- _
      | TypeError = Ok _ => discriminate Hstep
      | OutOfFuel = Ok _ => discriminate Hstep
      | bind _ _ = Ok _ => apply bind_Ok in Hstep as (? & ? & Hstep)
      | context [let (_, _) := ?p in _] => destruct p
      | context [match ?x with _ => _ end] => destruct x eqn:?
      end; try done.
Qed.

Lemma reachable_costs (width height : num) (start goal : Point.t num)
    (obs : list (Obstacle.t num)) (prm : SolverParams num) (alg : AlgorithmType) t t' :
  CostLaws -> OrderLaws ->
  reachable (construct width height start goal obs prm alg) t ->
  reachable t t' ->
  forall i n, nodes t !! i = Some n ->
    exists n', nodes t' !! i = Some n' /\ (Node.cost n <? Node.cost n') = false.
Proof.
  intros HL HO Hreach Hlater.
  induction Hlater as [|fuel t1 g b t' g' Hlater IH Hstep].
  { intros i n Hn. exists n. split; [done|apply HL]. }
  intros i n Hn. destruct (IH i n Hn) as (n1 & Hn1 & Hc1).
  assert (TreeInv (nodes t1)) as HT1.
  { eapply reachable_TreeInv; [done|]. by eapply reachable_trans. }
  destruct (stepMicro_costs _ _ _ _ _ _ HL HO HT1 Hstep i n1 Hn1) as (n' & Hn' & Hc').
  exists n'. split; [done|]. by eapply (not_lt_trans HO).
Qed.


(** A node of the band stays in the band. *)
Lemma reachable_inBand t t' (i : nat) (n : Node.t num) :
  reachable t t' -> nodes t !! i = Some n -> inBand t n = true ->
  exists n', nodes t' !! i = Some n' /\ inBand t' n' = true.
Proof.
  intros Hlater Hn Hin.
  pose proof (reachable_configuration _ _ Hlater) as Hconf.
  pose proof (reachable_placement _ _ Hlater) as Hpre.
  assert ((placement <$> nodes t') !! i = Some (placement n)) as Hi.
  { eapply prefix_lookup_Some; [|done]. by rewrite list_lookup_fmap, Hn. }
  rewrite list_lookup_fmap in Hi.
  destruct (nodes t' !! i) as [n'|]; [|done]. exists n'. split; [done|].
  assert (Node.point n' = Node.point n) as Hpt.
  { cbn in Hi. assert (placement n' = placement n) as Hpl by congruence.
    exact (f_equal snd Hpl). }
  assert (goal t' = goal t /\ params t' = params t) as [Hgoal Hprm]
    by (unfold configuration in Hconf; split; congruence).
  unfold inBand in *. by rewrite Hpt, Hgoal, Hprm.
Qed.


(** The end of the extracted path is a cheapest node of the band. *)
Lemma getPath_minimal (fuel : nat) t (path : list nat) (c : nat) (n : Node.t num) :
  costsComparable (nodes t) ->
  getPath fuel t = Ok path -> last path = Some c -> nodes t !! c = Some n ->
  forall i m, nodes t !! i = Some m -> inBand t m = true ->
    (Node.cost m <? Node.cost n) = false.
Proof.
  intros Hcmp Hpath Hlast Hn. unfold getPath in Hpath.
  set (band := stepSize (params t) * num_1_5) in *.
  set (cands := candidatesLoop (goal t) band (nodes t) 0) in *.
  set (cmp := fun a b => costAt (nodes t) a - costAt (nodes t) b) in *.
  assert (forall k, k ∈ cands <-> exists n, nodes t !! k = Some n /\ inBand t n = true) as Hcands.
  { intros k. unfold cands. rewrite candidatesLoop_spec. rewrite Nat.sub_0_r.
    split; [intros (n0 & _ & ? & ?)|intros (n0 & ? & ?)]; exists n0; auto with lia. }
  assert (forall a b, a ∈ cands -> b ∈ cands ->
            (cmp a b <? num_zero) = (costAt (nodes t) a <? costAt (nodes t) b)) as Hsign.
  { intros a b (na & Ha & _)%Hcands (nb & Hb & _)%Hcands.
    destruct (costAt_elem _ _ _ Ha) as [Ea Hina], (costAt_elem _ _ _ Hb) as [Eb Hinb].
    unfold cmp. rewrite Ea, Eb. exact (proj1 (Hcmp _ _ _ Hina Hinb Hina)). }
  pose proof (sort_head cmp cands) as Hhead.
  destruct (sort cmp cands) as [|h tl]; [by injection Hpath as <-|].
  destruct Hhead as (l1 & l2 & Hsplit & Hbefore & Hmin).
  { intros a b Ha Hb. rewrite !Hsign by done.
    destruct (Hcands a) as [(na & Hna & _) _]; [done|].
    destruct (Hcands b) as [(nb & Hnb & _) _]; [done|].
    destruct (costAt_elem _ _ _ Hna) as [-> Hina], (costAt_elem _ _ _ Hnb) as [-> Hinb].
    destruct (Hcmp _ _ _ Hina Hinb Hina) as (_ & Hirr & Htr & _).
    intros Hab. apply not_true_is_false. intros Hba.
    rewrite (Htr Hab Hba) in Hirr. done. }
  { intros a b c0 Ha Hb Hc. rewrite !Hsign by done.
    destruct (Hcands a) as [(na & Hna & _) _]; [done|].
    destruct (Hcands b) as [(nb & Hnb & _) _]; [done|].
    destruct (Hcands c0) as [(nc & Hnc & _) _]; [done|].
    destruct (costAt_elem _ _ _ Hna) as [-> Hina], (costAt_elem _ _ _ Hnb) as [-> Hinb],
      (costAt_elem _ _ _ Hnc) as [-> Hinc].
    by destruct (Hcmp _ _ _ Hina Hinb Hinc) as (_ & _ & _ & Hneg). }
  assert (h ∈ cands) as Hh by (rewrite Hsplit, elem_of_app, elem_of_cons; auto).
  apply bind_Ok in Hpath as (chain & Hback & [= <-]).
  assert (c = h) as ->.
  { rewrite last_reverse in Hlast.
    destruct (nodes t !! h) as [nh|] eqn:Hnh; [|by apply Hcands in Hh as (? & ? & _); congruence].
    destruct fuel as [|fuel]; [done|]. cbn in Hback. unfold get in Hback.
    rewrite Hnh in Hback. cbn in Hback.
    assert (forall f cur acc res, backtrace f (nodes t) cur acc = Ok res ->
              head res = head (acc ++ match cur with Some x => [x] | None => [] end)) as Hhd.
    { induction f as [|f IH]; intros cur acc res Hres.
      - destruct cur; [done|]. cbn in Hres. injection Hres as <-. by rewrite app_nil_r.
      - destruct cur as [x|]; [|cbn in Hres; injection Hres as <-; by rewrite app_nil_r].
        cbn in Hres. apply bind_Ok in Hres as (nx & _ & Hres).
        apply IH in Hres. rewrite Hres. destruct acc; by destruct (Node.parentId nx). }
    apply Hhd in Hback. rewrite Hback in Hlast. cbn in Hlast.
    destruct (Node.parentId nh); cbn in Hlast; by injection Hlast as <-. }
  intros i m Hm Him.
  assert (i ∈ cands) as Hi by (apply Hcands; eauto).
  pose proof (Hmin i Hi) as Hle. rewrite Hsign in Hle by done.
  destruct (costAt_elem _ _ _ Hm) as [Em _], (costAt_elem _ _ _ Hn) as [En _].
  by rewrite Em, En in Hle.
Qed.


End Progress.

(** ** Facts about the geometry helpers on binary64 *)

Module GeoFacts.
Import Geo.
Local Open Scope float_scope.

(** *** The sign of a rounded result *)

Lemma binary_round_aux_sign (s : bool) (m e : Z) (l : location) :
  binary_round_aux prec emax s m e l = S754_nan
  \/ binary_round_aux prec emax s m e l = S754_zero s
  \/ binary_round_aux prec emax s m e l = S754_infinity s
  \/ exists m' e', binary_round_aux prec emax s m e l = S754_finite s m' e'.
Proof.
  unfold binary_round_aux.
  destruct (shr_fexp prec emax m e l) as [mrs' e'].
  destruct (shr_fexp prec emax _ e' loc_Exact) as [mrs'' e''].
  destruct (shr_m mrs''); [auto|destruct (_ <=? _)%Z; eauto 6|auto].
Qed.

Lemma binary_round_aux_opp (s : bool) (m e : Z) (l : location) :
  binary_round_aux prec emax (negb s) m e l = SFopp (binary_round_aux prec emax s m e l).
Proof.
  unfold binary_round_aux.
  destruct (shr_fexp prec emax m e l) as [mrs' e'].
  destruct (shr_fexp prec emax _ e' loc_Exact) as [mrs'' e''].
  destruct (shr_m mrs''); [done|by destruct (_ <=? _)%Z|done].
Qed.

Lemma sqrt_not_negative (v : float) : (sqrt v <? 0) = false.
Proof.
  rewrite ltb_spec, sqrt_spec. change (Prim2SF 0) with (S754_zero false).
  destruct (Prim2SF v) as [s|[|]| |[|] m e]; try done.
  unfold SF64sqrt, SFsqrt.
  destruct (SFsqrt_core_binary prec emax (Z.pos m) e) as [[mz ez] lz].
  destruct (binary_round_aux_sign false mz ez lz) as [E|[E|[E|(m' & e' & E)]]];
    rewrite E; reflexivity.
Qed.

Lemma sqrt_nan_or_not_below_zero (v : float) : sqrt v = nan \/ (0 <=? sqrt v) = true.
Proof.
  destruct (Prim2SF (sqrt v)) as [s|[|]| |[|] m e] eqn:E.
  - right. rewrite leb_spec, E. done.
  - pose proof (sqrt_not_negative v) as Hs. rewrite ltb_spec, E in Hs. done.
  - right. rewrite leb_spec, E. done.
  - left. apply Prim2SF_inj. by rewrite E.
  - pose proof (sqrt_not_negative v) as Hs. rewrite ltb_spec, E in Hs. done.
  - right. rewrite leb_spec, E. done.
Qed.

(** *** Subtraction the other way round *)

(** [v] is [u] negated, or both are zeros. *)
Definition mirrored (u v : spec_float) : Prop :=
  v = SFopp u \/ exists s s', u = S754_zero s /\ v = S754_zero s'.

Lemma sub_mirrored (x y : spec_float) : mirrored (SF64sub x y) (SF64sub y x).
Proof.
  destruct x as [sx|sx| |sx mx ex], y as [sy|sy| |sy my ey];
    try (left; by destruct sx, sy); try (left; by destruct sx); try (left; by destruct sy);
    try (left; done).
  - right. destruct sx, sy; cbn; eauto.
  - unfold SF64sub, SFsub. cbv zeta.
    replace (IntDef.Z.min ey ex) with (IntDef.Z.min ex ey) by apply Z.min_comm.
    set (ez := IntDef.Z.min ex ey).
    set (A := cond_Zopp sx (Z.pos (fst (shl_align mx ex ez)))).
    set (B := cond_Zopp sy (Z.pos (fst (shl_align my ey ez)))).
    replace (B - A)%Z with (- (A - B))%Z by lia.
    clearbody A B. generalize (A - B)%Z. clear A B.
    intros [|d|d].
    + right. cbn. eauto.
    + left. change (- Z.pos d)%Z with (Z.neg d). unfold binary_normalize, binary_round.
      destruct (shl_align _ _ _) as [mz ez']. apply (binary_round_aux_opp false).
    + left. change (- Z.neg d)%Z with (Z.pos d). unfold binary_normalize, binary_round.
      destruct (shl_align _ _ _) as [mz ez']. rewrite (binary_round_aux_opp false).
      by destruct (binary_round_aux _ _ _ _ _ _) as [[]|[]| |[]].
Qed.

Lemma mul_mirrored (u v : spec_float) : mirrored u v -> SF64mul u u = SF64mul v v.
Proof.
  intros [->|(s & s' & -> & ->)].
  - destruct u as [[]|[]| |[] m e]; done.
  - by destruct s, s'.
Qed.

(** *** The order of binary64, read on integers *)

(** A key that orders the numbers as [<] does: class and sign first, then
    exponent, then mantissa. *)
Definition key (x : spec_float) : option (Z * Z * Z) :=
  match x with
  | S754_nan => None
  | S754_zero _ => Some (0, 0, 0)%Z
  | S754_infinity s => Some (if s then -2 else 2, 0, 0)%Z
  | S754_finite s m e => Some (if s then (-1, - e, - Z.pos m) else (1, e, Z.pos m))%Z
  end.

Definition lexlt (a b : Z * Z * Z) : Prop :=
  (a.1.1 < b.1.1 \/ (a.1.1 = b.1.1 /\ (a.1.2 < b.1.2 \/ (a.1.2 = b.1.2 /\ a.2 < b.2))))%Z.

Definition below (x y : spec_float) : Prop :=
  match key x, key y with
  | Some a, Some b => lexlt a b
  | _, _ => False
  end.

Definition level (x y : spec_float) : Prop :=
  match key x, key y with
  | Some a, Some b => a = b
  | _, _ => False
  end.

Lemma SFcompare_key (x y : spec_float) :
  match SFcompare x y with
  | Some Lt => below x y
  | Some Eq => level x y
  | Some Gt => below y x
  | None => key x = None \/ key y = None
  end.
Proof.
  destruct x as [sx|sx| |sx mx ex], y as [sy|sy| |sy my ey]; cbn; auto;
    try (destruct sx; cbn; unfold below, lexlt; cbn; lia);
    try (destruct sy; cbn; unfold below, lexlt; cbn; lia);
    try (destruct sx, sy; cbn; unfold below, level, lexlt; cbn; (lia || done)).
  change (PosDef.Pos.compare_cont Eq mx my) with (Pos.compare mx my).
  destruct sx, sy; cbn; try (unfold below, lexlt; cbn; lia);
    destruct (Z.compare_spec ex ey) as [->| |]; cbn;
    try (unfold below, lexlt; cbn; lia);
    destruct (Pos.compare_spec mx my) as [->| |]; cbn;
    unfold below, level, lexlt; cbn; (done || lia).
Qed.

Lemma ltb_below (a b : float) : (a <? b) = true <-> below (Prim2SF a) (Prim2SF b).
Proof.
  rewrite ltb_spec. unfold SFltb.
  pose proof (SFcompare_key (Prim2SF a) (Prim2SF b)) as Hk.
  pose proof (SFcompare_key (Prim2SF b) (Prim2SF a)) as Hk'.
  unfold below, level, lexlt in *.
  destruct (SFcompare (Prim2SF a) (Prim2SF b)) as [[| |]|];
    destruct (key (Prim2SF a)) as [[[a1 a2] a3]|], (key (Prim2SF b)) as [[[b1 b2] b3]|];
    cbn in *; split; try done; try lia; intros; simplify_eq; try lia; naive_solver.
Qed.

Lemma leb_below (a b : float) :
  (a <=? b) = true <-> below (Prim2SF a) (Prim2SF b) \/ level (Prim2SF a) (Prim2SF b).
Proof.
  rewrite leb_spec. unfold SFleb.
  pose proof (SFcompare_key (Prim2SF a) (Prim2SF b)) as Hk.
  unfold below, level, lexlt in *.
  destruct (SFcompare (Prim2SF a) (Prim2SF b)) as [[| |]|];
    destruct (key (Prim2SF a)) as [[[a1 a2] a3]|], (key (Prim2SF b)) as [[[b1 b2] b3]|];
    cbn in *; split; try done; try lia; intros; simplify_eq; try lia; naive_solver lia.
Qed.

(** Comparisons see a number through its key only. *)
Lemma ltb_key_l (a a' b : float) :
  key (Prim2SF a) = key (Prim2SF a') -> (a <? b) = (a' <? b).
Proof.
  intros E. apply eq_true_iff_eq. rewrite !ltb_below. unfold below. by rewrite E.
Qed.

Lemma leb_key_l (a a' b : float) :
  key (Prim2SF a) = key (Prim2SF a') -> (a <=? b) = (a' <=? b).
Proof.
  intros E. apply eq_true_iff_eq. rewrite !leb_below. unfold below, level. by rewrite E.
Qed.

Lemma leb_key_r (a b b' : float) :
  key (Prim2SF b) = key (Prim2SF b') -> (a <=? b) = (a <=? b').
Proof.
  intros E. apply eq_true_iff_eq. rewrite !leb_below. unfold below, level. by rewrite E.
Qed.

Ltac order :=
  repeat match goal with
    | H : (_ <? _) = true |- _ => apply ltb_below in H
    | H : (_ <=? _) = true |- _ => apply leb_below in H
    | H : (_ <? _) = false |- _ => apply not_true_iff_false in H; rewrite ltb_below in H
    | |- (_ <? _) = false => apply not_true_iff_false; intros ?
    end;
  unfold below, level, lexlt in *;
  repeat match goal with
    | H : context [key ?x] |- _ => destruct (key x) as [[[? ?] ?]|]
    end;
  cbn in *; simplify_eq; try done; try lia; try naive_solver lia.

Lemma ltb_nan_l (a : float) : (nan <? a) = false.
Proof. rewrite ltb_spec. reflexivity. Qed.

Lemma ltb_nan_r (a : float) : (a <? nan) = false.
Proof.
  rewrite ltb_spec. change (Prim2SF nan) with S754_nan.
  unfold SFltb, SFcompare. by destruct (Prim2SF a).
Qed.

Lemma Math_max_not_below (o a b : float) :
  (o <=? a) = true -> (Math_max a b <? o) = false.
Proof.
  intros Hoa. unfold Math_max.
  destruct (is_nan a || is_nan b); [apply ltb_nan_l|].
  destruct (a <? b) eqn:Hab; [order|].
  destruct (b <? a) eqn:Hba; [order|].
  destruct (get_sign a); order.
Qed.

Lemma Math_min_not_above (o a b : float) :
  (a <=? o) = true -> (o <? Math_min a b) = false.
Proof.
  intros Hao. unfold Math_min.
  destruct (is_nan a || is_nan b); [apply ltb_nan_r|].
  destruct (a <? b) eqn:Hab; [order|].
  destruct (b <? a) eqn:Hba; [order|].
  destruct (get_sign a); order.
Qed.

(** A point inside an obstacle is inside the bounding box of every segment
    that starts there. *)
Lemma inside_bbox (p1 p2 : Point) (obstacle : Obstacle) :
  inside (Point.x p1) (Point.y p1) obstacle = true -> bboxDisjoint p1 p2 obstacle = false.
Proof.
  unfold inside, bboxDisjoint. rewrite !andb_true_iff. intros [[[Hx1 Hx2] Hy1] Hy2].
  by rewrite !Math_max_not_below, !Math_min_not_above.
Qed.

(** *** The first sample of a segment *)

Lemma is_finite_cases (v : float) :
  is_finite v = true ->
  (exists s, Prim2SF v = S754_zero s) \/ exists s m e, Prim2SF v = S754_finite s m e.
Proof.
  unfold is_finite, is_nan, is_infinity.
  rewrite !FloatAxioms.eqb_spec, abs_spec. change (Prim2SF infinity) with (S754_infinity false).
  destruct (Prim2SF v) as [s|s| |s m e]; [eauto| | |eauto 6].
  - cbn. by rewrite orb_true_r.
  - done.
Qed.

Lemma first_parameter (steps : float) : (0 <? steps) = true -> Prim2SF (0 / steps) = S754_zero false.
Proof.
  rewrite ltb_spec, div_spec. change (Prim2SF 0) with (S754_zero false).
  by destruct (Prim2SF steps) as [s|[|]| |[|] m e].
Qed.

(** At parameter [0 / steps] the interpolated coordinate compares as the
    coordinate of the first end. *)
Lemma first_sample_key (c d steps : float) :
  (0 <? steps) = true -> is_finite d = true ->
  key (Prim2SF (c + 0 / steps * d)) = key (Prim2SF c).
Proof.
  intros Hsteps Hd. rewrite add_spec, mul_spec, (first_parameter steps Hsteps).
  destruct (is_finite_cases d Hd) as [[s ->]|(s & m & e & ->)]; cbn [SF64mul SFmul];
    unfold SF64add, SFadd; destruct (Prim2SF c) as [[|]|[|]| |[|] mc ec]; cbn; by destruct s.
Qed.

Lemma first_sample_inside (c1 c2 d1 d2 steps : float) (obstacle : Obstacle) :
  (0 <? steps) = true -> is_finite d1 = true -> is_finite d2 = true ->
  inside (c1 + 0 / steps * d1) (c2 + 0 / steps * d2) obstacle = inside c1 c2 obstacle.
Proof.
  intros Hsteps H1 H2. unfold inside.
  rewrite (leb_key_r _ _ c1 (first_sample_key c1 d1 steps Hsteps H1)).
  rewrite (leb_key_l _ c1 _ (first_sample_key c1 d1 steps Hsteps H1)).
  rewrite (leb_key_r _ _ c2 (first_sample_key c2 d2 steps Hsteps H2)).
  rewrite (leb_key_l _ c2 _ (first_sample_key c2 d2 steps Hsteps H2)).
  done.
Qed.

Lemma ltb_leb (a b : float) : (a <? b) = true -> (a <=? b) = true.
Proof. rewrite ltb_below, leb_below. auto. Qed.

Lemma lineIntersectsObstacle_from_inside (fuel : nat) (p1 p2 : Point) (obstacle : Obstacle) :
  inside (Point.x p1) (Point.y p1) obstacle = true ->
  (0 <? Math_ceil (dist p1 p2 / 5)) = true ->
  is_finite (Point.x p2 - Point.x p1) = true ->
  is_finite (Point.y p2 - Point.y p1) = true ->
  lineIntersectsObstacle (S fuel) p1 p2 obstacle = Some true.
Proof.
  intros Hin Hsteps Hdx Hdy. unfold lineIntersectsObstacle.
  rewrite (inside_bbox p1 p2 obstacle Hin). cbn [sampleLoop].
  rewrite (ltb_leb _ _ Hsteps), first_sample_inside by done. by rewrite Hin.
Qed.

Lemma checkCollision_free (fuel : nat) (p1 p2 : Point) (obstacles : list Obstacle) :
  checkCollision fuel p1 p2 obstacles = Some false
  <-> forall obstacle, obstacle ∈ obstacles ->
        lineIntersectsObstacle fuel p1 p2 obstacle = Some false.
Proof.
  induction obstacles as [|o rest IH]; cbn [checkCollision].
  { split; [by intros _ ? ?%elem_of_nil|done]. }
  destruct (lineIntersectsObstacle fuel p1 p2 o) as [[|]|] eqn:Ho.
  - split; [done|]. intros Hall. specialize (Hall o ltac:(left)). congruence.
  - rewrite IH. split.
    + intros Hall o' [->|Ho']%elem_of_cons; auto.
    + intros Hall o' Ho'. apply Hall. by right.
  - split; [done|]. intros Hall. specialize (Hall o ltac:(left)). congruence.
Qed.

(** X18.  [dist] does not depend on the order of its arguments, on every pair
    of binary64 points (infinite and NaN coordinates included). *)
Theorem dist_is_symmetric (p q : Point) : dist p q = dist q p.
Proof.
  assert (forall a b : float, Math_pow2 (a - b) = Math_pow2 (b - a)) as Hsq.
  { intros a b. unfold Math_pow2. apply Prim2SF_inj. rewrite !mul_spec, !sub_spec.
    apply mul_mirrored, sub_mirrored. }
  unfold dist. by rewrite (Hsq (Point.x p)), (Hsq (Point.y p)).
Qed.

(** X19.  [dist] is never negative: no distance is below 0, and a distance is
    NaN or at least 0. *)
Theorem dist_is_not_negative (p q : Point) :
  (dist p q <? 0) = false /\ (dist p q = nan \/ (0 <=? dist p q) = true).
Proof. split; [apply sqrt_not_negative|apply sqrt_nan_or_not_below_zero]. Qed.

(** X20.  [checkCollision] reports a segment free exactly when
    [lineIntersectsObstacle] reports it free of every obstacle of the list:
    the answer [false] does not depend on the order of the obstacles, and
    survives the removal of obstacles.  A reported hit comes from an obstacle
    whose bounding box meets that of the segment. *)
Theorem checkCollision_free_of_every_obstacle (fuel : nat) (p1 p2 : Point)
    (obstacles : list Obstacle) :
  (checkCollision fuel p1 p2 obstacles = Some false
   <-> forall obstacle, obstacle ∈ obstacles ->
         lineIntersectsObstacle fuel p1 p2 obstacle = Some false)
  /\ (checkCollision fuel p1 p2 obstacles = Some true ->
      exists obstacle,
        obstacle ∈ obstacles /\ lineIntersectsObstacle fuel p1 p2 obstacle = Some true
        /\ bboxDisjoint p1 p2 obstacle = false).
Proof.
  split; [apply checkCollision_free|].
  induction obstacles as [|o rest IH]; cbn [checkCollision]; [done|].
  destruct (lineIntersectsObstacle fuel p1 p2 o) as [[|]|] eqn:Ho; [|..|done].
  - intros _. exists o. split; [left|]. split; [done|].
    unfold lineIntersectsObstacle in Ho. by destruct (bboxDisjoint p1 p2 o).
  - intros (o' & Ho' & Hhit)%IH. exists o'. split; [by right|done].
Qed.

(** X21.  A segment that starts inside an obstacle is never reported free,
    unless it is degenerate: when the first end is in an obstacle
    ([pointInObstacles]), the step count [Math.ceil(d / 5)] is positive and
    the coordinate differences are finite, [lineIntersectsObstacle] answers
    [true] for that obstacle at its first sample, and [checkCollision] does
    not answer [false]. *)
Theorem segment_from_inside_is_reported (fuel : nat) (p1 p2 : Point)
    (obstacles : list Obstacle) :
  pointInObstacles p1 obstacles = true ->
  (0 <? Math_ceil (dist p1 p2 / 5)) = true ->
  is_finite (Point.x p2 - Point.x p1) = true ->
  is_finite (Point.y p2 - Point.y p1) = true ->
  (exists obstacle,
      obstacle ∈ obstacles /\ inside (Point.x p1) (Point.y p1) obstacle = true
      /\ lineIntersectsObstacle (S fuel) p1 p2 obstacle = Some true)
  /\ checkCollision (S fuel) p1 p2 obstacles <> Some false.
Proof.
  intros Hin Hsteps Hdx Hdy. unfold pointInObstacles in Hin.
  apply existsb_exists in Hin as (o & Ho%list_elem_of_In & Hino).
  pose proof (lineIntersectsObstacle_from_inside fuel p1 p2 o Hino Hsteps Hdx Hdy) as Hhit.
  split; [by exists o|].
  intros Hfree. rewrite checkCollision_free in Hfree. specialize (Hfree o Ho). congruence.
Qed.

End GeoFacts.

(** ** Runs that exercise the facts above *)

Module FrameRuns.
Import F64.
Local Open Scope float_scope.

(** Plain RRT in the open field, the goal (3,4) sampled on every draw: two
    iterations add node 1 below the root and node 2 below node 1. *)
Definition grown : RRTTree float :=
  set_nodes
    [Node.mk 0 0 0 None 0 [1%nat];
     Node.mk 1 3 4 (Some 0%nat) 5 [2%nat];
     Node.mk 2 3 4 (Some 1%nat) 5 []]
    (Runs.open_field 2000 RRT).

Lemma grown_run :
  exists bs g', runMicro 10 50 (Runs.open_field 2000 RRT) Runs.no_draws = Ok (bs, grown, g').
Proof. eexists _, _. vm_compute. reflexivity. Qed.

Lemma grown_reachable : reachable (Runs.open_field 2000 RRT) grown.
Proof.
  destruct grown_run as (bs & g' & Hrun).
  eapply runMicro_reachable; [apply reachable_construct|exact Hrun].
Qed.

Lemma configuration_is_constant_witness :
  reachable (Runs.open_field 2000 RRT) grown
  /\ length (nodes grown) = 3%nat
  /\ width grown = 16 /\ height grown = 16
  /\ start grown = Point.mk 0 0 /\ goal grown = Point.mk 3 4
  /\ obstacles grown = [] /\ params grown = params (Runs.open_field 2000 RRT)
  /\ algorithm grown = RRT /\ goalNodeId grown = None.
Proof.
  assert (forall A B : Prop, A -> (A -> B) -> A /\ B) as both by tauto.
  apply both; [exact grown_reachable|]. intros Hreach.
  split; [reflexivity|].
  exact (configuration_is_constant _ _ Hreach).
Defined.

Lemma nodes_never_move_witness :
  reachable (Runs.open_field 2000 RRT) grown
  /\ (length (nodes (Runs.open_field 2000 RRT)) <= length (nodes grown))%nat
  /\ forall i n0,
       nodes (Runs.open_field 2000 RRT) !! i = Some n0 ->
       exists n,
         nodes grown !! i = Some n
         /\ Node.id n = Node.id n0 /\ Node.x n = Node.x n0 /\ Node.y n = Node.y n0.
Proof.
  assert (forall A B : Prop, A -> (A -> B) -> A /\ B) as both by tauto.
  apply both; [exact grown_reachable|]. intros Hreach.
  exact (nodes_never_move _ _ Hreach).
Defined.

Lemma node_count_bounded_witness :
  reachable (Runs.open_field 2000 RRT) grown
  /\ (1 <= length (nodes grown) <= Nat.max 1 2000)%nat.
Proof.
  assert (forall A B : Prop, A -> (A -> B) -> A /\ B) as both by tauto.
  apply both; [exact grown_reachable|]. intros Hreach.
  exact (node_count_bounded _ _ _ _ _ _ _ _ Hreach).
Defined.

(** Room for one node only: the planner is saturated from the start. *)
Lemma saturated_planner_is_frozen_witness :
  (maxIterations (params (Runs.open_field 1 RRTstar))
   <= length (nodes (Runs.open_field 1 RRTstar)))%nat
  /\ runMicro 3 50 (Runs.open_field 1 RRTstar) Runs.no_draws
     = Ok ([false; false; false], Runs.open_field 1 RRTstar, Runs.no_draws)
  /\ stepWhile 20 50 (Runs.open_field 1 RRTstar) Runs.no_draws
     = Ok (1%nat, Runs.open_field 1 RRTstar, Runs.no_draws)
  /\ step 50 (Runs.open_field 1 RRTstar) Runs.no_draws
     = Ok (true, Runs.open_field 1 RRTstar, Runs.no_draws).
Proof.
  assert (forall A B : Prop, A -> (A -> B) -> A /\ B) as both by tauto.
  apply both; [cbn; lia|]. intros Hsat.
  exact (saturated_planner_is_frozen 3 50 _ Runs.no_draws Hsat).
Defined.

Lemma rrt_nodes_are_settled_witness :
  algorithm (Runs.open_field 2000 RRT) = RRT
  /\ reachable (Runs.open_field 2000 RRT) grown
  /\ forall i n0,
       nodes (Runs.open_field 2000 RRT) !! i = Some n0 ->
       exists n,
         nodes grown !! i = Some n
         /\ Node.id n = Node.id n0 /\ Node.point n = Node.point n0
         /\ Node.parentId n = Node.parentId n0 /\ Node.cost n = Node.cost n0
         /\ Node.children n0 `prefix_of` Node.children n.
Proof.
  assert (forall A B : Prop, A -> (A -> B) -> A /\ B) as both by tauto.
  apply both; [reflexivity|]. intros Halg.
  apply both; [exact grown_reachable|]. intros Hreach.
  exact (rrt_nodes_are_settled _ _ Halg Hreach).
Defined.

Lemma unused_states_witness :
  reachable (Runs.open_field 2000 RRT) grown
  /\ microState grown <> IDLE
  /\ (RRT = RRT ->
      microState grown <> NEIGHBORS /\ microState grown <> CHOOSE_PARENT
      /\ microState grown <> REWIRE
      /\ tempNeighbors grown = [] /\ tempBestParent grown = None).
Proof.
  assert (forall A B : Prop, A -> (A -> B) -> A /\ B) as both by tauto.
  apply both; [exact grown_reachable|]. intros Hreach.
  exact (unused_states _ _ _ _ _ _ _ _ Hreach).
Defined.

(** The third iteration of the same run: the sample is the goal again, the
    nearest node is node 1 (the first at distance 0), and the candidate is
    the goal. *)
Lemma rrt_iteration_in_five_calls_witness :
  reachable (Runs.open_field 2000 RRT) grown
  /\ (length (nodes grown) < maxIterations (params grown))%nat
  /\ microState grown = SAMPLE
  /\ nearestLoop (fst (drawSample grown Runs.no_draws)) (nodes grown) 0 num_infinity None
     = Some 1%nat
  /\ nodes grown !! 1%nat = Some (Node.mk 1 3 4 (Some 0%nat) 5 [2%nat])
  /\ candidate grown Runs.no_draws (Node.mk 1 3 4 (Some 0%nat) 5 [2%nat]) = Point.mk 3 4
  /\ checkCollision (Point.mk 3 4) (Point.mk 3 4) (obstacles grown) = Some false
  /\ exists t' g',
       runMicro 5 50 grown Runs.no_draws = Ok ([true; true; true; true; false], t', g')
       /\ nodes t' =
            [Node.mk 0 0 0 None 0 [1%nat];
             Node.mk 1 3 4 (Some 0%nat) 5 [2; 3]%nat;
             Node.mk 2 3 4 (Some 1%nat) 5 [];
             Node.mk 3 3 4 (Some 1%nat) 5 []].
Proof.
  assert (forall A B : Prop, A -> (A -> B) -> A /\ B) as both by tauto.
  apply both; [exact grown_reachable|]. intros Hreach.
  apply both; [cbn; lia|]. intros Hlt.
  apply both; [reflexivity|]. intros Hstate.
  apply both; [reflexivity|]. intros Hnear.
  apply both; [reflexivity|]. intros Hnearest.
  apply both; [reflexivity|]. intros Hcand.
  apply both; [reflexivity|]. intros Hfree.
  eexists _, _. split.
  - exact (rrt_iteration_in_five_calls _ _ _ _ _ _ 50 grown Runs.no_draws 1 _
             Hreach Hlt Hstate Hnear Hnearest Hfree).
  - vm_compute. reflexivity.
Defined.

(** A wall between the start and the goal: the candidate of the first
    iteration is the goal, and the segment to it crosses the wall. *)
Definition walled : RRTTree float :=
  construct 32 32 (Point.mk (-5) 5) (Point.mk 15 5) [Obstacle.mk 0 0 10 10]
    {| stepSize := 100; maxIterations := 2000; goalBias := 1; searchRadius := 5 |}
    RRTstar.

Lemma colliding_candidate_is_discarded_witness :
  (length (nodes walled) < maxIterations (params walled))%nat
  /\ microState walled = SAMPLE
  /\ nearestLoop (fst (drawSample walled Runs.no_draws)) (nodes walled) 0 num_infinity None
     = Some 0%nat
  /\ nodes walled !! 0%nat = Some (Node.mk 0 (-5) 5 None 0 [])
  /\ checkCollision (Point.mk (-5) 5)
       (candidate walled Runs.no_draws (Node.mk 0 (-5) 5 None 0 [])) (obstacles walled)
     = Some true
  /\ exists t',
       runMicro 4 50 walled Runs.no_draws
       = Ok ([true; true; true; false], t', snd (drawSample walled Runs.no_draws))
       /\ nodes t' = nodes walled /\ microState t' = SAMPLE /\ scratchCleared t'
       /\ t' = resetTemp walled.
Proof.
  assert (forall A B : Prop, A -> (A -> B) -> A /\ B) as both by tauto.
  apply both; [cbn; lia|]. intros Hlt.
  apply both; [reflexivity|]. intros Hstate.
  apply both; [reflexivity|]. intros Hnear.
  apply both; [reflexivity|]. intros Hnearest.
  apply both; [vm_compute; reflexivity|]. intros Hhit.
  exact (colliding_candidate_is_discarded 50 walled Runs.no_draws 0 _
           Hlt Hstate Hnear Hnearest Hhit).
Defined.

End FrameRuns.

Module LatticeProgress.
Import Lattice.

(** [-] and [*] on the lattice.  The lattice has no 1.5: the band factor is
    taken as 2. *)
Definition sub (a b : num) : num :=
  match a, b with
  | Fin u, Fin v => Fin (u - v)
  | _, _ => PInf
  end.

Definition mul (a b : num) : num :=
  match a, b with
  | Fin u, Fin v => Fin (u * v)
  | _, _ => PInf
  end.

#[export] Instance pathNumbers : PathNumbers num := {|
  num_sub := sub;
  num_mul := mul;
  num_1_5 := Fin 2
|}.

(** The lattice field with step 10 and the goal at (3,28): of the nodes the
    draws produce, only node 3 at (3,9) is within 20 of the goal. *)
Definition field : RRTTree num :=
  construct (Fin 16) (Fin 16) (Point.mk (Fin 0) (Fin 0)) (Point.mk (Fin 3) (Fin 28)) []
    {| stepSize := Fin 10; maxIterations := 2000; goalBias := Fin 0; searchRadius := Fin 5 |}
    RRTstar.

(** After three iterations, and after the fourth, which re-parents nodes 2
    and 3 below the new node 4. *)
Definition earlier : RRTTree num :=
  set_nodes
    [Node.mk 0 (Fin 0) (Fin 0) None (Fin 0) [1%nat];
     Node.mk 1 (Fin 8) (Fin 6) (Some 0%nat) (Fin 10) [2; 3]%nat;
     Node.mk 2 (Fin 3) (Fin 6) (Some 1%nat) (Fin 15) [];
     Node.mk 3 (Fin 3) (Fin 9) (Some 1%nat) (Fin 15) []]
    field.

Definition later : RRTTree num :=
  set_nodes
    [Node.mk 0 (Fin 0) (Fin 0) None (Fin 0) [1; 4]%nat;
     Node.mk 1 (Fin 8) (Fin 6) (Some 0%nat) (Fin 10) [];
     Node.mk 2 (Fin 3) (Fin 6) (Some 4%nat) (Fin 7) [];
     Node.mk 3 (Fin 3) (Fin 9) (Some 4%nat) (Fin 10) [];
     Node.mk 4 (Fin 3) (Fin 4) (Some 0%nat) (Fin 5) [2; 3]%nat]
    field.

Lemma progress_run :
  exists bs g' bs' g'',
    runMicro 24 50 field field_draws = Ok (bs, earlier, g')
    /\ runMicro 8 50 earlier g' = Ok (bs', later, g'').
Proof. eexists _, _, _, _. split; vm_compute; reflexivity. Qed.

Lemma earlier_reachable : reachable field earlier.
Proof.
  destruct progress_run as (bs & g' & bs' & g'' & Hrun & _).
  eapply runMicro_reachable; [apply reachable_construct|exact Hrun].
Qed.

Lemma later_reachable : reachable earlier later.
Proof.
  destruct progress_run as (bs & g' & bs' & g'' & _ & Hrun).
  eapply runMicro_reachable; [apply reachable_construct|exact Hrun].
Qed.

Lemma later_costsComparable : costsComparable (nodes later).
Proof.
  intros a b c Ha Hb Hc. cbn in Ha, Hb, Hc.
  rewrite !elem_of_cons, elem_of_nil in Ha, Hb, Hc.
  destruct Ha as [->|[->|[->|[->|[->|[]]]]]], Hb as [->|[->|[->|[->|[->|[]]]]]],
    Hc as [->|[->|[->|[->|[->|[]]]]]]; by vm_compute.
Qed.


(** The planner after the first SAMPLE call: the sample is (8,6). *)
Definition sampled : RRTTree num :=
  set_microState NEAREST (set_tempSample (Some (Point.mk (Fin 8) (Fin 6))) earlier).


(** The planner in NEIGHBORS with the candidate (3,4). *)
Definition steered : RRTTree num :=
  set_microState NEIGHBORS (set_tempNewPoint (Some (Point.mk (Fin 3) (Fin 4))) earlier).

Lemma neighbors_are_the_nodes_in_radius_witness :
  (length (nodes steered) < maxIterations (params steered))%nat
  /\ microState steered = NEIGHBORS
  /\ tempNewPoint steered = Some (Point.mk (Fin 3) (Fin 4))
  /\ stepMicro 50 steered field_draws
     = Ok (true, set_microState CHOOSE_PARENT (set_tempNeighbors [0; 1; 2; 3]%nat steered),
           field_draws)
  /\ exists l,
       stepMicro 50 steered field_draws
       = Ok (true, set_microState CHOOSE_PARENT (set_tempNeighbors l steered), field_draws)
       /\ (forall k, k ∈ l <-> exists n, nodes steered !! k = Some n
                        /\ leb (dist (Node.point n) (Point.mk (Fin 3) (Fin 4)))
                               (searchRadius (params steered)) = true)
       /\ (forall i j a b, (i < j)%nat -> l !! i = Some a -> l !! j = Some b -> (a < b)%nat).
Proof.
  assert (forall A B : Prop, A -> (A -> B) -> A /\ B) as both by tauto.
  apply both; [cbn; lia|]. intros Hlt.
  apply both; [reflexivity|]. intros Hstate.
  apply both; [reflexivity|]. intros Hpoint.
  split; [reflexivity|].
  exact (neighbors_are_the_nodes_in_radius 50 steered field_draws _ Hlt Hstate Hpoint).
Defined.





End LatticeProgress.

Module PathFacts.
Import F64.
Local Open Scope float_scope.


(** The planned tree with the cost of node 2 out of date: the cascade from
    node 4 sets it to 5 + 2 and the cost of its child 3 to 7 + 3. *)
Definition stale : list (Node.t float) :=
  [Node.mk 0 0 0 None 0 [1; 4]%nat;
   Node.mk 1 8 6 (Some 0%nat) 10 [];
   Node.mk 2 3 6 (Some 4%nat) 15 [3%nat];
   Node.mk 3 3 9 (Some 2%nat) 18 [];
   Node.mk 4 3 4 (Some 0%nat) 5 [2%nat]].

Lemma stale_Shape : Shape stale.
Proof.
  apply (sameShape_Shape (nodes PathRuns.planned)); [|exact PathRuns.planned_Shape].
  rewrite PathRuns.planned_nodes. reflexivity.
Qed.

Lemma updateCost_is_idempotent_witness :
  Shape stale /\ (4 < length stale)%nat /\ (length stale <= 50)%nat
  /\ updateCost 50 stale 4 = Ok (nodes PathRuns.planned)
  /\ exists ns',
       updateCost 50 stale 4 = Ok ns'
       /\ sameShape stale ns'
       /\ updateCost 50 ns' 4 = Ok ns'
       /\ ((forall i, sdesc stale 4 i -> costOk stale i) -> ns' = stale).
Proof.
  assert (forall A B : Prop, A -> (A -> B) -> A /\ B) as both by tauto.
  apply both; [exact stale_Shape|]. intros HS.
  apply both; [cbn; lia|]. intros Ha.
  apply both; [cbn; lia|]. intros Hfuel.
  split; [vm_compute; reflexivity|].
  exact (updateCost_is_idempotent 50 stale 4 HS Ha Hfuel).
Defined.

(** A segment from the middle of a 10 x 10 obstacle to a point outside. *)
Lemma segment_from_inside_is_reported_witness :
  Geo.pointInObstacles (Point.mk 5 5) [Obstacle.mk 20 20 1 1; Obstacle.mk 0 0 10 10] = true
  /\ (0 <? Geo.Math_ceil (Geo.dist (Point.mk 5 5) (Point.mk 15 5) / 5)) = true
  /\ is_finite (15 - 5) = true
  /\ is_finite (5 - 5) = true
  /\ (exists obstacle,
        obstacle ∈ [Obstacle.mk 20 20 1 1; Obstacle.mk 0 0 10 10]
        /\ Geo.inside 5 5 obstacle = true
        /\ Geo.lineIntersectsObstacle 1 (Point.mk 5 5) (Point.mk 15 5) obstacle = Some true)
  /\ Geo.checkCollision 1 (Point.mk 5 5) (Point.mk 15 5)
       [Obstacle.mk 20 20 1 1; Obstacle.mk 0 0 10 10] <> Some false.
Proof.
  assert (forall A B : Prop, A -> (A -> B) -> A /\ B) as both by tauto.
  apply both; [reflexivity|]. intros Hin.
  apply both; [reflexivity|]. intros Hsteps.
  apply both; [reflexivity|]. intros Hdx.
  apply both; [reflexivity|]. intros Hdy.
  exact (GeoFacts.segment_from_inside_is_reported 0 (Point.mk 5 5) (Point.mk 15 5) _
           Hin Hsteps Hdx Hdy).
Defined.

End PathFacts.

(** ** Every call returns *)

Section Totality.
Context {num : Type} `{Numbers num} `{Geometry num}.
Local Open Scope num_scope.

Implicit Types (ns : list (Node.t num)) (t : RRTTree num) (g : Rng num).

(** The indices held in the scratch fields are indices of the store. *)
Definition scratchValid t : Prop :=
  (forall k, k ∈ tempNeighbors t -> (k < length (nodes t))%nat)
  /\ (forall b, tempBestParent t = Some b -> (b < length (nodes t))%nat)
  /\ (forall i, tempNearestNode t = Some i -> (i < length (nodes t))%nat).

Lemma resetTemp_scratchValid (m : CodeStep) ns t :
  scratchValid (set_microState m (resetTemp (set_nodes ns t))).
Proof. split; [by intros k ?%elem_of_nil|]. by split. Qed.

Lemma stepMicro_scratchValid (fuel : nat) t g (b : bool) t' g' :
  TreeInv (nodes t) -> scratchValid t ->
  stepMicro fuel t g = Ok (b, t', g') -> scratchValid t'.
Proof.
  intros [HS _] (Hnb & Hbest & Hnear). unfold stepMicro.
  case_bool_decide; [by intros [= _ <- _]|].
  destruct (microState t) eqn:Hstate; intros Hstep.
  - (* SAMPLE *)
    destruct (Math_random g) as [r g1]. destruct (_ <? _); [by injection Hstep as _ <- _|].
    destruct (samplePoint _ _ _). by injection Hstep as _ <- _.
  - (* NEAREST *)
    destruct (tempSample t) as [sample|]; injection Hstep as _ <- _; [|done].
    split; [done|]. split; [done|]. cbn. intros i Hi.
    apply nearestLoop_valid in Hi as [|]; [done|lia].
  - (* STEER *)
    destruct (nearestNode t), (tempSample t); by injection Hstep as _ <- _.
  - (* COLLISION_CHECK *)
    destruct (nearestNode t), (tempNewPoint t); try (by injection Hstep as _ <- _).
    destruct (checkCollision _ _ _) as [[|]|]; [| |done].
    + injection Hstep as _ <- _. destruct t. apply (resetTemp_scratchValid SAMPLE).
    + by destruct (algorithm_eqb _ _); injection Hstep as _ <- _.
  - (* NEIGHBORS *)
    destruct (tempNewPoint t) as [newPoint|]; injection Hstep as _ <- _; [|done].
    split; [|done]. cbn. intros k Hk%neighborsLoop_valid. lia.
  - (* CHOOSE_PARENT *)
    destruct (tempNewPoint t) as [newPoint|]; [|by injection Hstep as _ <- _].
    destruct (nearestNode t) as [nearest|] eqn:Hn; [|by injection Hstep as _ <- _].
    apply bind_Ok in Hstep as ([best bestCost] & Hloop & [= _ <- _]).
    split; [done|]. split; [|done]. cbn. intros b0 [= <-].
    apply chooseParentLoop_in in Hloop as [->|Hin]; [|by apply Hnb].
    unfold nearestNode in Hn. destruct (tempNearestNode t) as [i|]; [|done].
    rewrite (shape_ids _ HS i nearest Hn). by eapply lookup_lt_Some.
  - (* ADD_NODE *)
    destruct (tempNewPoint t) as [newPoint|]; [|by injection Hstep as _ <- _].
    apply bind_Ok in Hstep as (parent & _ & Hstep).
    destruct (algorithm_eqb _ _); injection Hstep as _ <- _;
      [|apply resetTemp_scratchValid].
    unfold scratchValid. cbn [nodes tempNeighbors tempBestParent tempNearestNode
                               set_microState set_nodes].
    rewrite length_alter, length_app. cbn [length].
    split; [|split].
    + intros k Hk. apply Hnb in Hk. lia.
    + intros b0 Hb0. apply Hbest in Hb0. lia.
    + intros i Hi. apply Hnear in Hi. lia.
  - (* REWIRE *)
    apply bind_Ok in Hstep as (ns' & _ & [= _ <- _]). apply resetTemp_scratchValid.
  - by injection Hstep as _ <- _.
Qed.

Lemma reachable_scratchValid (width height : num) (start goal : Point.t num)
    (obs : list (Obstacle.t num)) (prm : SolverParams num) (alg : AlgorithmType) t :
  CostLaws ->
  reachable (construct width height start goal obs prm alg) t -> scratchValid t.
Proof.
  intros HL Hreach.
  induction Hreach as [|fuel t g b t' g' Hreach IH Hstep].
  - split; [by intros k ?%elem_of_nil|]. by split.
  - eapply stepMicro_scratchValid; [|done..].
    by eapply reachable_TreeInv.
Qed.

(** A call on a well-formed planner returns: it reads no missing node, and
    its loops end within the fuel. *)
Lemma stepMicro_returns (fuel : nat) t g :
  CostLaws -> TreeInv (nodes t) -> scratchValid t ->
  (forall p q, is_Some (checkCollision p q (obstacles t))) ->
  (length (nodes t) < fuel)%nat ->
  exists b t' g', stepMicro fuel t g = Ok (b, t', g').
Proof.
  intros HL HT (Hnb & Hbest & Hnear) Hcheck Hfuel. pose proof HT as [HS _].
  unfold stepMicro. case_bool_decide; [eauto|].
  destruct (microState t) eqn:Hstate.
  - destruct (Math_random g) as [r g1]. destruct (_ <? _); [eauto|].
    destruct (samplePoint _ _ _). eauto.
  - destruct (tempSample t); eauto.
  - destruct (nearestNode t), (tempSample t); eauto.
  - destruct (nearestNode t) as [nearest|], (tempNewPoint t) as [newPoint|]; eauto.
    destruct (Hcheck (Node.point nearest) newPoint) as [[|] ->]; [eauto|].
    destruct (algorithm_eqb _ _); eauto.
  - destruct (tempNewPoint t); eauto.
  - destruct (tempNewPoint t) as [newPoint|]; eauto.
    destruct (nearestNode t) as [nearest|]; eauto.
    destruct (chooseParentLoop_returns (nodes t) newPoint (obstacles t) (tempNeighbors t)
                (Node.id nearest) (Node.cost nearest + dist (Node.point nearest) newPoint))
      as [[best bestCost] ->]; cbn; eauto.
    intros i Hi. by apply lookup_lt_is_Some, Hnb.
  - destruct (tempNewPoint t) as [newPoint|]; eauto.
    set (fp := match algorithm t, tempBestParent t with
               | RRTstar, Some best => best
               | _, _ => _
               end).
    assert (fp < length (nodes t))%nat as Hfp.
    { assert (match nearestNode t with Some nearest => Node.id nearest | None => 0%nat end
              < length (nodes t))%nat as Hdef.
      { unfold nearestNode. destruct (tempNearestNode t) as [i|] eqn:Hi.
        - destruct (nodes t !! i) as [nearest|] eqn:Hn.
          + rewrite (shape_ids _ HS i nearest Hn). by eapply lookup_lt_Some.
          + apply lookup_lt_is_Some, (shape_root _ HS).
        - apply lookup_lt_is_Some, (shape_root _ HS). }
      unfold fp. destruct (algorithm t); [done|].
      destruct (tempBestParent t) as [best|] eqn:Hb; [by apply Hbest|done]. }
    destruct (lookup_lt_is_Some_2 _ _ Hfp) as [parent Hparent].
    unfold get. rewrite Hparent. cbn. destruct (algorithm_eqb _ _); eauto.
  - destruct (algorithm t), (tempNewPoint t); cbn; eauto.
    destruct (rewireLoop_returns fuel (obstacles t) (length (nodes t) - 1) (tempNeighbors t)
                (nodes t) HL HT) as (ns' & -> & _); cbn; eauto.
    + apply lookup_lt_is_Some. destruct (shape_root _ HS) as [[r Hr%lookup_lt_Some] _]. lia.
    + intros i Hi. by apply lookup_lt_is_Some, Hnb.
    + lia.
  - eauto.
Qed.

Lemma stepWhile_returns (width height : num) (start goal : Point.t num)
    (obs : list (Obstacle.t num)) (prm : SolverParams num) (alg : AlgorithmType)
    (fuel : nat) :
  CostLaws ->
  (forall p q, is_Some (checkCollision p q obs)) ->
  forall (remaining : nat) t g,
    reachable (construct width height start goal obs prm alg) t ->
    (length (nodes t) + remaining < fuel)%nat ->
    exists calls t' g', stepWhile remaining fuel t g = Ok (calls, t', g').
Proof.
  intros HL Hcheck.
  assert (forall t, reachable (construct width height start goal obs prm alg) t ->
            forall g, (length (nodes t) < fuel)%nat ->
            exists b t' g', stepMicro fuel t g = Ok (b, t', g')) as Hone.
  { intros t Hreach g Hfuel. apply stepMicro_returns; try done.
    - by eapply reachable_TreeInv.
    - by eapply reachable_scratchValid.
    - apply reachable_configuration in Hreach. unfold configuration in Hreach.
      simplify_eq. by replace (obstacles t) with obs. }
  induction remaining as [|remaining IH]; intros t g Hreach Hfuel; cbn [stepWhile].
  - destruct (Hone t Hreach g ltac:(lia)) as (b & t' & g' & ->). cbn. eauto.
  - destruct (Hone t Hreach g ltac:(lia)) as (b & t' & g' & Hstep). rewrite Hstep. cbn.
    destruct b; [|eauto].
    destruct (IH t' g') as (calls & t'' & g'' & ->); cbn; eauto.
    + by eapply reachable_stepMicro.
    + destruct (stepMicro_placement _ _ _ _ _ _ Hstep) as [E|(p & _ & _ & _ & E)];
        apply (f_equal length) in E; rewrite ?length_app, !length_fmap in E; cbn in E; lia.
Qed.


End Totality.

(** ** Segments with a NaN coordinate *)

Module GeoEdges.
Import Geo.
Local Open Scope float_scope.

Lemma is_nan_eq (v : float) : is_nan v = true -> v = nan.
Proof.
  unfold is_nan. rewrite FloatAxioms.eqb_spec. intros Hv. apply Prim2SF_inj.
  change (Prim2SF nan) with S754_nan.
  destruct (Prim2SF v) as [s|[|]| |[|] m e]; try done; cbn in Hv;
    rewrite Z.compare_refl in Hv;
    change (PosDef.Pos.compare_cont Eq m m) with (Pos.compare m m) in Hv;
    by rewrite Pos.compare_refl in Hv.
Qed.

Lemma nan_add_l (a : float) : nan + a = nan.
Proof. apply Prim2SF_inj. rewrite add_spec. reflexivity. Qed.

Lemma nan_sub_l (a : float) : nan - a = nan.
Proof. apply Prim2SF_inj. rewrite sub_spec. reflexivity. Qed.

Lemma nan_sub_r (a : float) : a - nan = nan.
Proof.
  apply Prim2SF_inj. rewrite sub_spec. change (Prim2SF nan) with S754_nan.
  unfold SF64sub, SFsub. by destruct (Prim2SF a).
Qed.

(** The distance to or from a point with a NaN coordinate is NaN. *)
Lemma dist_nan (p1 p2 : Point) :
  is_nan (Point.x p1) || is_nan (Point.y p1) || is_nan (Point.x p2) || is_nan (Point.y p2) = true ->
  dist p1 p2 = nan.
Proof.
  rewrite !orb_true_iff. unfold dist.
  intros [[[E|E]|E]|E]; apply is_nan_eq in E; rewrite E;
    rewrite ?nan_sub_l, ?nan_sub_r;
    change (Math_pow2 nan) with nan; rewrite ?nan_add_l, ?nan_add_r; reflexivity.
Qed.

Lemma lineIntersectsObstacle_nan (fuel : nat) (p1 p2 : Point) (obstacle : Obstacle) :
  is_nan (Point.x p1) || is_nan (Point.y p1) || is_nan (Point.x p2) || is_nan (Point.y p2) = true ->
  lineIntersectsObstacle (S fuel) p1 p2 obstacle = Some false.
Proof.
  intros Hnan. unfold lineIntersectsObstacle.
  destruct (bboxDisjoint p1 p2 obstacle); [done|].
  rewrite (dist_nan p1 p2 Hnan). change (Math_ceil (nan / 5)) with nan.
  cbn [sampleLoop]. by rewrite leb_nan_r.
Qed.

(** X23.  A segment with a NaN coordinate is always reported free: its
    length is NaN, so is the step count, the sampling loop is not entered,
    and [checkCollision] answers [false] for every obstacle list. *)
Theorem nan_segment_is_reported_free (fuel : nat) (p1 p2 : Point) (obstacles : list Obstacle) :
  is_nan (Point.x p1) || is_nan (Point.y p1) || is_nan (Point.x p2) || is_nan (Point.y p2) = true ->
  dist p1 p2 = nan
  /\ Math_ceil (dist p1 p2 / 5) = nan
  /\ checkCollision (S fuel) p1 p2 obstacles = Some false.
Proof.
  intros Hnan. split; [by apply dist_nan|]. split; [by rewrite dist_nan|].
  induction obstacles as [|o rest IH]; [done|].
  cbn [checkCollision]. by rewrite lineIntersectsObstacle_nan.
Qed.

End GeoEdges.

Module TotalityRuns.
Import Lattice.


End TotalityRuns.

Module GeoEdgeRuns.
Import Geo.
Local Open Scope float_scope.

Lemma nan_segment_is_reported_free_witness :
  is_nan nan || is_nan 5 || is_nan 15 || is_nan 5 = true
  /\ pointInObstacles (Point.mk 15 5) [Obstacle.mk 10 0 10 10] = true
  /\ dist (Point.mk nan 5) (Point.mk 15 5) = nan
  /\ Math_ceil (dist (Point.mk nan 5) (Point.mk 15 5) / 5) = nan
  /\ checkCollision 1 (Point.mk nan 5) (Point.mk 15 5) [Obstacle.mk 10 0 10 10] = Some false.
Proof.
  assert (forall A B : Prop, A -> (A -> B) -> A /\ B) as both by tauto.
  apply both; [reflexivity|]. intros Hnan.
  split; [reflexivity|].
  exact (GeoEdges.nan_segment_is_reported_free 0 (Point.mk nan 5) (Point.mk 15 5)
           [Obstacle.mk 10 0 10 10] Hnan).
Defined.

End GeoEdgeRuns.
